(** * ParkWise: the state synchronisation and denormalisation pipeline

    A shallow embedding of the SQLite pipeline of
    [carpark_availability_rates/carpark_avail_rates_util.py],
    [data_pipelines_join/ingest_hdb_carpark_info.py] and
    [data_pipelines_join/ingest_ev_locations.py].

    Tables are lists of rows in rowid order.  A nullable TEXT column is an
    [option string], a nullable INTEGER an [option Z], a nullable REAL an
    [option float]; [None] is SQL NULL (and Python [None] when bound as a
    statement parameter).  Strings are byte strings.  The SQL text
    functions (TRIM, UPPER) act on ASCII in SQLite itself; the Python ones
    ([strip], [upper], [int]) are embedded as they act on ASCII text. *)

From Stdlib Require Import ZArith List String Ascii Bool Lia PrimFloat Permutation Sorted DecimalString.
Import ListNotations.
Open Scope string_scope.
Open Scope list_scope.
Open Scope Z_scope.

Set Warnings "-inexact-float".

(** ** SQL and Python text primitives *)

(** [a = b] in a WHERE or ON clause: true only when both sides are non-NULL
    and equal (a NULL operand makes the comparison unknown, which selects
    nothing). *)
Definition sql_eqb (a b : option string) : bool :=
  match a, b with
  | Some x, Some y => String.eqb x y
  | _, _ => false
  end.

(** Whole-value comparison of two nullable texts, NULL equal to NULL: the
    grouping equality of GROUP BY. *)
Definition text_eqb (a b : option string) : bool :=
  match a, b with
  | Some x, Some y => String.eqb x y
  | None, None => true
  | _, _ => false
  end.

(** [COALESCE(a, b)]. *)
Definition coalesce {A : Type} (a b : option A) : option A :=
  match a with
  | Some _ => a
  | None => b
  end.

Definition is_space (c : ascii) : bool := Ascii.eqb c " "%char.

(** Python [str.isspace] on the ASCII range: TAB, LF, VT, FF, CR, FS, GS, RS,
    US and SPACE. *)
Definition is_py_space (c : ascii) : bool :=
  let n := N_of_ascii c in
  ((9 <=? n) && (n <=? 13) || (28 <=? n) && (n <=? 32))%N.

Fixpoint lstrip (sp : ascii -> bool) (s : string) : string :=
  match s with
  | String c s' => if sp c then lstrip sp s' else s
  | EmptyString => EmptyString
  end.

Fixpoint rstrip (sp : ascii -> bool) (s : string) : string :=
  match s with
  | String c s' =>
      match rstrip sp s' with
      | EmptyString => if sp c then EmptyString else String c EmptyString
      | t => String c t
      end
  | EmptyString => EmptyString
  end.

Definition upper_char (c : ascii) : ascii :=
  let n := N_of_ascii c in
  if ((97 <=? n) && (n <=? 122))%N then ascii_of_N (n - 32) else c.

Fixpoint map_string (f : ascii -> ascii) (s : string) : string :=
  match s with
  | String c s' => String (f c) (map_string f s')
  | EmptyString => EmptyString
  end.

(** SQLite [TRIM(x)] removes spaces from both ends; [UPPER(x)] folds the
    ASCII letters. *)
Definition sql_trim (s : string) : string := rstrip is_space (lstrip is_space s).
Definition sql_upper (s : string) : string := map_string upper_char s.

(** Python [s.strip()] and [s.upper()] on an ASCII text: [strip] removes
    the characters of [is_py_space] from both ends and [upper] folds a-z.
    Beyond ASCII Python also strips Unicode whitespace (such as NBSP) and
    folds Unicode letters, which these byte functions do not: the
    statements about what the loaders make of a text take the text to be
    ASCII ([ascii_text] below). *)
Definition py_strip (s : string) : string := rstrip is_py_space (lstrip is_py_space s).
Definition py_upper (s : string) : string := map_string upper_char s.

(** [UPPER(TRIM(x))] on a nullable column: NULL stays NULL. *)
Definition norm_key (k : option string) : option string :=
  option_map (fun s => sql_upper (sql_trim s)) k.

(** [x IS NULL OR TRIM(x) = ''] *)
Definition is_blank (v : option string) : bool :=
  match v with
  | None => true
  | Some s => String.eqb (sql_trim s) EmptyString
  end.

(** ** Feed payload *)

Inductive json : Type :=
  | JNull
  | JNum (z : Z)
  | JStr (s : string).

Definition digit_val (c : ascii) : option Z :=
  let n := N_of_ascii c in
  if ((48 <=? n) && (n <=? 57))%N then Some (Z.of_N (n - 48)) else None.

(** The digits after a first digit: each is a digit, or one underscore
    followed by a digit. *)
Fixpoint parse_digits (acc : Z) (s : string) : option Z :=
  match s with
  | EmptyString => Some acc
  | String c s' =>
      match digit_val c with
      | Some d => parse_digits (10 * acc + d) s'
      | None =>
          if Ascii.eqb c "_"%char then
            match s' with
            | String c' s'' =>
                match digit_val c' with
                | Some d => parse_digits (10 * acc + d) s''
                | None => None
                end
            | EmptyString => None
            end
          else None
      end
  end.

Definition parse_unsigned (s : string) : option Z :=
  match s with
  | String c s' =>
      match digit_val c with
      | Some d => parse_digits d s'
      | None => None
      end
  | EmptyString => None
  end.

(** The whitespace [int()] skips around the literal of an ASCII text: TAB,
    LF, VT, FF, CR and SPACE (not FS, GS, RS, US, which [str.strip]
    removes). *)
Definition is_int_space (c : ascii) : bool :=
  let n := N_of_ascii c in
  ((9 <=? n) && (n <=? 13) || (n =? 32))%N.

Fixpoint digit_count (s : string) : N :=
  match s with
  | EmptyString => 0%N
  | String c s' =>
      match digit_val c with
      | Some _ => N.succ (digit_count s')
      | None => digit_count s'
      end
  end.

(** [sys.int_max_str_digits], at its default. *)
Definition int_max_str_digits : N := 4300.

(** Python [int(x)] on a JSON scalar of the feed (null, an integer or a
    text); [None] is a raised TypeError or ValueError.  An ASCII text is
    accepted when it is, between whitespace, an optional sign and decimal
    digits in which single underscores may separate digits, with no more
    digits than [int_max_str_digits]. *)
Definition py_int (j : json) : option Z :=
  match j with
  | JNull => None
  | JNum z => Some z
  | JStr s =>
      if (int_max_str_digits <? digit_count s)%N then None
      else
        match rstrip is_int_space (lstrip is_int_space s) with
        | String "-"%char t => option_map Z.opp (parse_unsigned t)
        | String "+"%char t => parse_unsigned t
        | t => parse_unsigned t
        end
  end.

(** SQLite stores a signed 64-bit INTEGER: binding a Python [int] outside
    this range raises OverflowError. *)
Definition fits_int64 (z : Z) : bool :=
  (- 9223372036854775808 <=? z) && (z <=? 9223372036854775807).

(** One element of [cp["carpark_info"]]; an absent key is [None]. *)
Record lot_info : Type := {
  li_lot_type : option string;
  li_lots_available : option json;
  li_total_lots : option json
}.

(** One element of [carpark_data]. *)
Record carpark : Type := {
  cp_carpark_number : option string;
  cp_update_datetime : option string;
  cp_carpark_info : option (list lot_info)
}.

Record item : Type := { carpark_data : option (list carpark) }.

Record payload : Type := { items : option (list item) }.

(** [items[0].get("carpark_data", []) if items else []] *)
Definition carparks_of (p : payload) : list carpark :=
  match items p with
  | Some (it :: _) =>
      match carpark_data it with
      | Some l => l
      | None => []
      end
  | _ => []
  end.

(** [int(info.get("lots_available", 0))] *)
Definition lots_avail_of (info : lot_info) : option Z :=
  match li_lots_available info with
  | None => Some 0
  | Some j => py_int j
  end.

(** [int(raw_total)] unless [raw_total] is [None] or the empty text, any
    exception giving [None]. *)
Definition total_lots_of (info : lot_info) : option Z :=
  match li_total_lots info with
  | None | Some JNull | Some (JStr EmptyString) => None
  | Some j => py_int j
  end.

(** ** Snapshot store: [carpark_availability] *)

(** [lots_available] and [last_seen_at] are only ever written from a Python
    [int] and from the formatted clock reading, so these two columns are
    not nullable here; the key columns are, as [upsert] binds whatever
    [dict.get] returned. *)
Module Avail.
Record row : Type := {
  carpark_number : option string;
  lot_type : option string;
  lots_available : Z;
  update_datetime : option string;
  last_seen_at : string;
  total_lots : option Z
}.
End Avail.

Definition avail_table : Type := list Avail.row.

(** The parameters bound by [upsert_snapshot]. *)
Record observation : Type := {
  o_cp_no : option string;
  o_lot_type : option string;
  o_lots_avail : Z;
  o_total_lots : option Z;
  o_upd : option string;
  o_seen : string
}.

(** Both integers of the observation fit a SQLite INTEGER, so the
    statements of [upsert_snapshot] bind them. *)
Definition bindable (o : observation) : bool :=
  fits_int64 (o_lots_avail o)
  && match o_total_lots o with
     | Some t => fits_int64 t
     | None => true
     end.

(** Same primary key [(carpark_number, lot_type)]. *)
Definition key_match (cp lt : option string) (r : Avail.row) : bool :=
  sql_eqb (Avail.carpark_number r) cp && sql_eqb (Avail.lot_type r) lt.

Definition inserted_row (o : observation) : Avail.row :=
  {| Avail.carpark_number := o_cp_no o;
     Avail.lot_type := o_lot_type o;
     Avail.lots_available := o_lots_avail o;
     Avail.update_datetime := o_upd o;
     Avail.last_seen_at := o_seen o;
     Avail.total_lots := o_total_lots o |}.

(** The DO UPDATE SET clause: [excluded] is the row that failed to insert. *)
Definition do_update_set (old excluded : Avail.row) : Avail.row :=
  {| Avail.carpark_number := Avail.carpark_number old;
     Avail.lot_type := Avail.lot_type old;
     Avail.lots_available := Avail.lots_available excluded;
     Avail.update_datetime := Avail.update_datetime excluded;
     Avail.last_seen_at := Avail.last_seen_at excluded;
     Avail.total_lots := coalesce (Avail.total_lots old) (Avail.total_lots excluded) |}.

(** [INSERT ... ON CONFLICT(carpark_number, lot_type) DO UPDATE SET ...]:
    the row that conflicts with the new one on the primary key is updated in
    place, and with no conflict the new row is appended. *)
Fixpoint insert_on_conflict (t : avail_table) (new : Avail.row) : avail_table :=
  match t with
  | [] => [new]
  | r :: t' =>
      if key_match (Avail.carpark_number new) (Avail.lot_type new) r
      then do_update_set r new :: t'
      else r :: insert_on_conflict t' new
  end.

(** The SET clause of the fallback UPDATE. *)
Definition legacy_set (o : observation) (r : Avail.row) : Avail.row :=
  {| Avail.carpark_number := Avail.carpark_number r;
     Avail.lot_type := Avail.lot_type r;
     Avail.lots_available := o_lots_avail o;
     Avail.update_datetime := o_upd o;
     Avail.last_seen_at := o_seen o;
     Avail.total_lots :=
       match Avail.total_lots r with
       | None => o_total_lots o
       | Some _ => Avail.total_lots r
       end |}.

(** [UPDATE t SET ... WHERE w]: the new table and [cur.rowcount]. *)
Definition sql_update {R : Type} (w : R -> bool) (set : R -> R) (t : list R)
  : list R * nat :=
  (map (fun r => if w r then set r else r) t, List.length (filter w t)).

(** The fallback: UPDATE, then INSERT when no row was updated. *)
Definition legacy_upsert (t : avail_table) (o : observation) : avail_table :=
  let (t', rowcount) :=
    sql_update (key_match (o_cp_no o) (o_lot_type o)) (legacy_set o) t in
  if Nat.eqb rowcount 0 then t' ++ [inserted_row o] else t'.

(** [upsert_snapshot].  [on_conflict_ok] says whether the SQLite at hand
    parses ON CONFLICT (otherwise the statement raises the syntax error the
    code probes for, changing nothing); [use_legacy_upsert] is the module
    global, returned updated. *)
Definition upsert_snapshot (on_conflict_ok use_legacy_upsert : bool)
    (t : avail_table) (o : observation) : bool * avail_table :=
  if negb use_legacy_upsert then
    if on_conflict_ok then (use_legacy_upsert, insert_on_conflict t (inserted_row o))
    else (true, legacy_upsert t o)
  else (use_legacy_upsert, legacy_upsert t o).

(** ** History: [carpark_availability_history] *)

(** The AUTOINCREMENT [id] is the position in the list. *)
Module Hist.
Record row : Type := {
  carpark_number : option string;
  lot_type : option string;
  lots_available : Z;
  update_datetime : option string;
  retrieved_at : string
}.
End Hist.

Definition hist_table : Type := list Hist.row.

(** Two rows collide on the unique index [idx_hist_unique] when the three
    indexed columns are equal; a NULL in an indexed column never collides. *)
Definition hist_conflict (a b : Hist.row) : bool :=
  sql_eqb (Hist.carpark_number a) (Hist.carpark_number b)
  && sql_eqb (Hist.lot_type a) (Hist.lot_type b)
  && sql_eqb (Hist.update_datetime a) (Hist.update_datetime b).

(** [INSERT OR IGNORE INTO carpark_availability_history ...]: the new table
    and [cur.rowcount]. *)
Definition insert_or_ignore (h : hist_table) (new : Hist.row) : hist_table * Z :=
  if existsb (hist_conflict new) h then (h, 0) else (h ++ [new], 1).

Definition hist_row_of (o : observation) : Hist.row :=
  {| Hist.carpark_number := o_cp_no o;
     Hist.lot_type := o_lot_type o;
     Hist.lots_available := o_lots_avail o;
     Hist.update_datetime := o_upd o;
     Hist.retrieved_at := o_seen o |}.

(** ** Metadata store: [carpark_info] *)

(** The eleven static attribute columns, shared by [carpark_info] and
    [carpark_availability_join]. *)
Record static_attrs : Type := {
  address : option string;
  x_coord : option string;
  y_coord : option string;
  car_park_type : option string;
  type_of_parking_system : option string;
  short_term_parking : option string;
  free_parking : option string;
  night_parking : option string;
  car_park_decks : option string;
  gantry_height : option string;
  car_park_basement : option string
}.

Definition null_attrs : static_attrs :=
  {| address := None; x_coord := None; y_coord := None; car_park_type := None;
     type_of_parking_system := None; short_term_parking := None;
     free_parking := None; night_parking := None; car_park_decks := None;
     gantry_height := None; car_park_basement := None |}.

(** The only INSERT into [carpark_info] binds a non-empty Python [str] as
    [carpark_number], so the key column is a [string]. *)
Module Info.
Record row : Type := {
  carpark_number : string;
  attrs : static_attrs;
  updated_at : option string;
  is_central : option Z;
  carpark_rate : option float;
  current_rate_30min : option float;
  active_cap_type : option string;
  active_cap_amount : option float;
  rate_updated_at : option string
}.
End Info.

Definition info_table : Type := list Info.row.

(** ** Joined view: [carpark_availability_join] *)

Module Join.
Record row : Type := {
  carpark_number : option string;
  lot_type : option string;
  lots_available : Z;
  total_lots : option Z;
  update_datetime : option string;
  attrs : static_attrs;
  carpark_rate : option float;
  current_rate_30min : option float;
  active_cap_type : option string;
  active_cap_amount : option float;
  ev_lot_location : option string;
  has_info : Z
}.
End Join.

Definition join_table : Type := list Join.row.

(** ** The store *)

Record store : Type := {
  carpark_availability : avail_table;
  carpark_availability_history : hist_table;
  carpark_info : info_table;
  carpark_availability_join : join_table
}.

Definition empty_store : store :=
  {| carpark_availability := [];
     carpark_availability_history := [];
     carpark_info := [];
     carpark_availability_join := [] |}.

(** ** Availability ingestion: [upsert] *)

(** What the transaction body carries: the module global
    [use_legacy_upsert], the two tables it writes and [history_inserts]. *)
Record txn : Type := {
  tx_legacy : bool;
  tx_avail : avail_table;
  tx_hist : hist_table;
  tx_history_inserts : Z
}.

(** A statement that raises aborts the body: [None]. *)
Definition bind {A B : Type} (m : option A) (k : A -> option B) : option B :=
  match m with
  | Some a => k a
  | None => None
  end.

Notation "x <- m ;; k" := (bind m (fun x => k))
  (at level 61, m at next level, right associativity).

(** The body of the inner loop for one [info] of one carpark. *)
Definition process_info (on_conflict_ok : bool) (cp_no upd : option string)
    (retrieved_at : string) (s : txn) (info : lot_info) : option txn :=
  lots_avail <- lots_avail_of info ;;
  let o := {| o_cp_no := cp_no;
              o_lot_type := li_lot_type info;
              o_lots_avail := lots_avail;
              o_total_lots := total_lots_of info;
              o_upd := upd;
              o_seen := retrieved_at |} in
  if bindable o then
    let (legacy, avail) := upsert_snapshot on_conflict_ok (tx_legacy s) (tx_avail s) o in
    let (hist, rowcount) := insert_or_ignore (tx_hist s) (hist_row_of o) in
    Some {| tx_legacy := legacy;
            tx_avail := avail;
            tx_hist := hist;
            tx_history_inserts := tx_history_inserts s + rowcount |}
  else None.

(** A [for] loop whose body may raise. *)
Fixpoint for_each {S X : Type} (body : S -> X -> option S) (xs : list X) (s : S)
  : option S :=
  match xs with
  | [] => Some s
  | x :: xs' => s' <- body s x ;; for_each body xs' s'
  end.

(** [cp.get("carpark_info", [])] *)
Definition infos_of (cp : carpark) : list lot_info :=
  match cp_carpark_info cp with
  | Some l => l
  | None => []
  end.

(** The body of the outer loop: [for info in cp.get("carpark_info", [])]. *)
Definition process_carpark (on_conflict_ok : bool) (retrieved_at : string)
    (s : txn) (cp : carpark) : option txn :=
  for_each
    (process_info on_conflict_ok (cp_carpark_number cp) (cp_update_datetime cp)
       retrieved_at)
    (infos_of cp)
    s.

(** [DELETE FROM carpark_availability WHERE last_seen_at < ?]: TEXT values
    compare bytewise.  The new table and [cur.rowcount]. *)
Definition delete_stale (cutoff : string) (t : avail_table) : avail_table * Z :=
  (filter (fun r => negb (String.ltb (Avail.last_seen_at r) cutoff)) t,
   Z.of_nat (List.length (filter (fun r => String.ltb (Avail.last_seen_at r) cutoff) t))).

Record upsert_stats : Type := {
  seen_carparks : Z;
  snapshot_rows : Z;
  history_inserts : Z;
  mirror_deleted : Z;
  legacy_upsert_used : bool
}.

(** The result of a transactional operation: the committed store with the
    value returned, or the exception re-raised after ROLLBACK, which leaves
    the store as it was. *)
Inductive outcome (A : Type) : Type :=
  | Committed (s : store) (a : A)
  | RolledBack.
Arguments Committed {A} s a.
Arguments RolledBack {A}.

(** [upsert(payload)], with the environment made explicit:
    [SNAPSHOT_STRICT_MIRROR], whether SQLite parses ON CONFLICT, the global
    [use_legacy_upsert] and the clock reading [retrieved_at]. *)
Definition upsert (strict_mirror on_conflict_ok use_legacy_upsert : bool)
    (retrieved_at : string) (db : store) (p : payload) : outcome upsert_stats :=
  let carparks := carparks_of p in
  match
    for_each (process_carpark on_conflict_ok retrieved_at) carparks
      {| tx_legacy := use_legacy_upsert;
         tx_avail := carpark_availability db;
         tx_hist := carpark_availability_history db;
         tx_history_inserts := 0 |}
  with
  | None => RolledBack
  | Some s =>
      let (avail, deleted) :=
        if strict_mirror then delete_stale retrieved_at (tx_avail s)
        else (tx_avail s, 0) in
      Committed
        {| carpark_availability := avail;
           carpark_availability_history := tx_hist s;
           carpark_info := carpark_info db;
           carpark_availability_join := carpark_availability_join db |}
        {| seen_carparks := Z.of_nat (List.length carparks);
           snapshot_rows := Z.of_nat (List.length avail);
           history_inserts := tx_history_inserts s;
           mirror_deleted := deleted;
           legacy_upsert_used := tx_legacy s |}
  end.

(** ** Pricing engine *)

Definition CENTRAL : list string :=
  ["ACB"; "BBB"; "BRB1"; "CY"; "DUXM"; "HLM"; "KAB"; "KAM"; "KAS"; "PRM";
   "SLS"; "SR1"; "SR2"; "TPM"; "UCS"; "WCB"].

Definition set_is_central (r : Info.row) : Info.row :=
  {| Info.carpark_number := Info.carpark_number r;
     Info.attrs := Info.attrs r;
     Info.updated_at := Info.updated_at r;
     Info.is_central :=
       Some (if existsb (String.eqb (Info.carpark_number r)) CENTRAL then 1 else 0);
     Info.carpark_rate := Info.carpark_rate r;
     Info.current_rate_30min := Info.current_rate_30min r;
     Info.active_cap_type := Info.active_cap_type r;
     Info.active_cap_amount := Info.active_cap_amount r;
     Info.rate_updated_at := Info.rate_updated_at r |}.

Definition set_carpark_rate (r : Info.row) : Info.row :=
  {| Info.carpark_number := Info.carpark_number r;
     Info.attrs := Info.attrs r;
     Info.updated_at := Info.updated_at r;
     Info.is_central := Info.is_central r;
     Info.carpark_rate :=
       Some (match Info.is_central r with
             | Some 1 => 1.2%float
             | _ => 0.6%float
             end);
     Info.current_rate_30min := Info.current_rate_30min r;
     Info.active_cap_type := Info.active_cap_type r;
     Info.active_cap_amount := Info.active_cap_amount r;
     Info.rate_updated_at := Info.rate_updated_at r |}.

(** [mark_central_and_base_rates]: two UPDATEs over every row. *)
Definition mark_central_and_base_rates (t : info_table) : info_table :=
  map set_carpark_rate (map set_is_central t).

(** [sgt_now.weekday()] (Monday is 0), [sgt_now.hour], [sgt_now.minute]. *)
Record civil_time : Type := { wk : Z; hh : Z; mm : Z }.

Definition in_night (now : civil_time) : bool :=
  ((hh now >? 22) || ((hh now =? 22) && (mm now >=? 30))) || (hh now <? 7).

Definition in_day (now : civil_time) : bool :=
  ((hh now >? 7) || ((hh now =? 7) && (mm now >=? 0)))
  && ((hh now <? 22) || ((hh now =? 22) && (mm now <? 30))).

(** Python truth value of the [is_central] column: NULL and 0 are false. *)
Definition truthy (v : option Z) : bool :=
  match v with
  | Some z => negb (z =? 0)
  | None => false
  end.

(** [night_parking], or the empty text when it is false, then
    [.strip().upper().startswith("YES")]. *)
Definition nps_of (night_parking : option string) : bool :=
  String.prefix "YES"
    (py_upper (py_strip (match night_parking with Some s => s | None => EmptyString end))).

Definition current_rate_of (now : civil_time) (is_central : bool) : float :=
  if is_central && (wk now <=? 5) && ((7 <=? hh now) && (hh now <? 17))
  then 1.2%float else 0.6%float.

Definition cap_of (now : civil_time) (is_central nps : bool)
  : option string * option float :=
  if nps && in_night now then (Some "NPS_NIGHT_CAP", Some 5.0%float)
  else if in_day now
       then (Some "DAY_CAP", Some (if is_central then 20.0%float else 12.0%float))
       else (None, None).

Definition set_pricing (rate : float) (cap : option string * option float)
    (stamp : string) (r : Info.row) : Info.row :=
  {| Info.carpark_number := Info.carpark_number r;
     Info.attrs := Info.attrs r;
     Info.updated_at := Info.updated_at r;
     Info.is_central := Info.is_central r;
     Info.carpark_rate := Info.carpark_rate r;
     Info.current_rate_30min := Some rate;
     Info.active_cap_type := fst cap;
     Info.active_cap_amount := snd cap;
     Info.rate_updated_at := Some stamp |}.

(** The loop of [refresh_time_dependent_rates] over the rows selected at its
    start; [stamp i] is the clock reading formatted in iteration [i]. *)
Fixpoint refresh_loop (now : civil_time) (stamp : nat -> string) (i : nat)
    (rows : list (string * option Z * option string)) (t : info_table)
  : info_table :=
  match rows with
  | [] => t
  | (cp_no, is_central, night_parking) :: rows' =>
      let is_central := truthy is_central in
      let nps := nps_of night_parking in
      let current_rate := current_rate_of now is_central in
      let cap := cap_of now is_central nps in
      refresh_loop now stamp (S i) rows'
        (fst (sql_update (fun r => String.eqb (Info.carpark_number r) cp_no)
                (set_pricing current_rate cap (stamp i)) t))
  end.

Definition refresh_time_dependent_rates (now : civil_time) (stamp : nat -> string)
    (t : info_table) : info_table :=
  refresh_loop now stamp 0
    (map (fun r => (Info.carpark_number r, Info.is_central r,
                    night_parking (Info.attrs r))) t)
    t.

(** ** Join materialiser *)

(** [MAX(x)] over a group: NULLs are skipped, texts compare bytewise, and a
    group with no non-NULL value gives NULL. *)
Definition max_text (a b : option string) : option string :=
  match a, b with
  | None, _ => b
  | _, None => a
  | Some x, Some y => if String.ltb x y then b else a
  end.

Definition agg_max (l : list (option string)) : option string :=
  fold_left max_text l None.

(** The distinct values of the grouping column, NULL being one group. *)
Fixpoint group_keys (l : list (option string)) : list (option string) :=
  match l with
  | [] => []
  | k :: l' => if existsb (text_eqb k) l' then group_keys l' else k :: group_keys l'
  end.

(** [SELECT carpark_number, MAX(ev_lot_location) FROM carpark_availability_join
     GROUP BY carpark_number] *)
Definition ev_cache (v : join_table) : list (option string * option string) :=
  map (fun k =>
         (k, agg_max (map Join.ev_lot_location
                        (filter (fun r => text_eqb (Join.carpark_number r) k) v))))
      (group_keys (map Join.carpark_number v)).

(** [(SELECT c.ev_lot_location FROM _ev_cache c WHERE c.carpark_number = k)]
    as a scalar: the first selected row, NULL when none is selected. *)
Definition cache_lookup (c : list (option string * option string))
    (k : option string) : option string :=
  match find (fun e => sql_eqb (fst e) k) c with
  | Some e => snd e
  | None => None
  end.

(** [a LEFT JOIN b ON on]: every pairing that satisfies [on], and one
    unmatched pairing for a left row with none. *)
Definition left_join {A B : Type} (on : A -> B -> bool) (l : list A) (r : list B)
  : list (A * option B) :=
  flat_map (fun a =>
              match filter (on a) r with
              | [] => [(a, None)]
              | ms => map (fun b => (a, Some b)) ms
              end) l.

(** [ON UPPER(TRIM(a.carpark_number)) = i.carpark_number] *)
Definition join_on (a : Avail.row) (i : Info.row) : bool :=
  sql_eqb (norm_key (Avail.carpark_number a)) (Some (Info.carpark_number i)).

(** A column of the right side of a LEFT JOIN: NULL for an unmatched row. *)
Definition col {B C : Type} (f : B -> option C) (i : option B) : option C :=
  match i with
  | Some b => f b
  | None => None
  end.

Definition attrs_of (i : option Info.row) : static_attrs :=
  match i with
  | Some b => Info.attrs b
  | None => null_attrs
  end.

(** [CASE WHEN i.carpark_number IS NULL THEN 0 ELSE 1 END] *)
Definition has_info_of (i : option Info.row) : Z :=
  match i with
  | Some _ => 1
  | None => 0
  end.

(** One row of the INSERT ... SELECT of [rebuild_join_snapshot]; the column
    list leaves [ev_lot_location] out, so it is NULL. *)
Definition priced_join_row (ai : Avail.row * option Info.row) : Join.row :=
  let (a, i) := ai in
  {| Join.carpark_number := Avail.carpark_number a;
     Join.lot_type := Avail.lot_type a;
     Join.lots_available := Avail.lots_available a;
     Join.total_lots := Avail.total_lots a;
     Join.update_datetime := Avail.update_datetime a;
     Join.attrs := attrs_of i;
     Join.carpark_rate := col Info.carpark_rate i;
     Join.current_rate_30min := col Info.current_rate_30min i;
     Join.active_cap_type := col Info.active_cap_type i;
     Join.active_cap_amount := col Info.active_cap_amount i;
     Join.ev_lot_location := None;
     Join.has_info := has_info_of i |}.

Definition set_ev (v : option string) (j : Join.row) : Join.row :=
  {| Join.carpark_number := Join.carpark_number j;
     Join.lot_type := Join.lot_type j;
     Join.lots_available := Join.lots_available j;
     Join.total_lots := Join.total_lots j;
     Join.update_datetime := Join.update_datetime j;
     Join.attrs := Join.attrs j;
     Join.carpark_rate := Join.carpark_rate j;
     Join.current_rate_30min := Join.current_rate_30min j;
     Join.active_cap_type := Join.active_cap_type j;
     Join.active_cap_amount := Join.active_cap_amount j;
     Join.ev_lot_location := v;
     Join.has_info := Join.has_info j |}.

(** [UPDATE carpark_availability_join AS j SET ev_lot_location =
     COALESCE((SELECT ... FROM _ev_cache ...), ev_lot_location)] *)
Definition restore_ev (c : list (option string * option string)) (j : Join.row)
  : Join.row :=
  set_ev (coalesce (cache_lookup c (Join.carpark_number j)) (Join.ev_lot_location j)) j.

(** [rebuild_join_snapshot], on the three tables it reads: cache the
    annotations, delete the view, reinsert it from the left join, restore the
    annotations. *)
Definition rebuild_view (avail : avail_table) (info : info_table) (v : join_table)
  : join_table :=
  let cache := ev_cache v in
  let inserted := map priced_join_row (left_join join_on avail info) in
  map (restore_ev cache) inserted.

Definition rebuild_join_snapshot (db : store) : store :=
  {| carpark_availability := carpark_availability db;
     carpark_availability_history := carpark_availability_history db;
     carpark_info := carpark_info db;
     carpark_availability_join :=
       rebuild_view (carpark_availability db) (carpark_info db)
         (carpark_availability_join db) |}.

(** One row of the INSERT ... SELECT of [rebuild_join_table]
    (ingest_hdb_carpark_info.py): its column list has neither the pricing
    columns nor [ev_lot_location]. *)
Definition plain_join_row (ai : Avail.row * option Info.row) : Join.row :=
  let (a, i) := ai in
  {| Join.carpark_number := Avail.carpark_number a;
     Join.lot_type := Avail.lot_type a;
     Join.lots_available := Avail.lots_available a;
     Join.total_lots := Avail.total_lots a;
     Join.update_datetime := Avail.update_datetime a;
     Join.attrs := attrs_of i;
     Join.carpark_rate := None;
     Join.current_rate_30min := None;
     Join.active_cap_type := None;
     Join.active_cap_amount := None;
     Join.ev_lot_location := None;
     Join.has_info := has_info_of i |}.

(** [rebuild_join_table]: the store and [(matched, unmatched, total)]. *)
Definition rebuild_join_table (db : store) : store * (Z * Z * Z) :=
  let v := map plain_join_row
             (left_join join_on (carpark_availability db) (carpark_info db)) in
  let total := Z.of_nat (List.length v) in
  let unmatched := Z.of_nat (List.length (filter (fun j => Join.has_info j =? 0) v)) in
  ({| carpark_availability := carpark_availability db;
      carpark_availability_history := carpark_availability_history db;
      carpark_info := carpark_info db;
      carpark_availability_join := v |},
   (total - unmatched, unmatched, total)).

(** ** Metadata ingestion: [load_info_into_sqlite] *)

(** A record of the metadata source: a JSON object whose values are texts
    or null. *)
Definition record_obj : Type := list (string * option string).

Fixpoint rec_find (rec : record_obj) (k : string) : option (option string) :=
  match rec with
  | [] => None
  | (k', v) :: rec' => if String.eqb k' k then Some v else rec_find rec' k
  end.

(** [rec.get(k)] and [rec.get(k, dflt)]. *)
Definition rec_get (rec : record_obj) (k : string) : option string :=
  match rec_find rec k with
  | Some v => v
  | None => None
  end.

Definition rec_get_or (rec : record_obj) (k dflt : string) : option string :=
  match rec_find rec k with
  | Some v => v
  | None => Some dflt
  end.

(** Python [a or b] on optional texts: [None] and the empty text are
    false. *)
Definition py_or (a b : option string) : option string :=
  match a with
  | Some EmptyString | None => b
  | Some _ => a
  end.

(** [rec.get("car_park_no") or rec.get("carpark_number")] or the empty
    text, then [.strip().upper()]. *)
Definition record_key (rec : record_obj) : string :=
  match py_or (rec_get rec "car_park_no")
              (py_or (rec_get rec "carpark_number") (Some EmptyString)) with
  | Some s => py_upper (py_strip s)
  | None => EmptyString
  end.

(** The row bound by the INSERT: thirteen columns are listed, the six
    pricing columns are not and take their default, NULL. *)
Definition info_row_of (now : string) (rec : record_obj) : Info.row :=
  {| Info.carpark_number := record_key rec;
     Info.attrs :=
       {| address := rec_get_or rec "address" EmptyString;
          x_coord := rec_get_or rec "x_coord" EmptyString;
          y_coord := rec_get_or rec "y_coord" EmptyString;
          car_park_type := rec_get_or rec "car_park_type" EmptyString;
          type_of_parking_system := rec_get_or rec "type_of_parking_system" EmptyString;
          short_term_parking := rec_get_or rec "short_term_parking" EmptyString;
          free_parking := rec_get_or rec "free_parking" EmptyString;
          night_parking := rec_get_or rec "night_parking" EmptyString;
          car_park_decks := rec_get_or rec "car_park_decks" EmptyString;
          gantry_height := rec_get_or rec "gantry_height" EmptyString;
          car_park_basement := rec_get_or rec "car_park_basement" EmptyString |};
     Info.updated_at := Some now;
     Info.is_central := None;
     Info.carpark_rate := None;
     Info.current_rate_30min := None;
     Info.active_cap_type := None;
     Info.active_cap_amount := None;
     Info.rate_updated_at := None |}.

(** The loop over [records]; a second record with the same key violates the
    primary key and raises. *)
Fixpoint load_loop (now : string) (records : list record_obj) (t : info_table)
    (rows : Z) : option (info_table * Z) :=
  match records with
  | [] => Some (t, rows)
  | rec :: records' =>
      let cp := record_key rec in
      if String.eqb cp EmptyString then load_loop now records' t rows
      else if existsb (fun r => String.eqb (Info.carpark_number r) cp) t then None
      else load_loop now records' (t ++ [info_row_of now rec]) (rows + 1)
  end.

(** [load_info_into_sqlite]: DELETE FROM carpark_info, then the loop. *)
Definition load_info_into_sqlite (now : string) (db : store)
    (records : list record_obj) : outcome Z :=
  match load_loop now records [] 0 with
  | None => RolledBack
  | Some (t, rows) =>
      Committed
        {| carpark_availability := carpark_availability db;
           carpark_availability_history := carpark_availability_history db;
           carpark_info := t;
           carpark_availability_join := carpark_availability_join db |}
        rows
  end.

(** ** Annotation merge: [_apply_ev_mapping] *)

(** The loop of [_load_ev_mapping_csv] over the parsed rows, each given as
    [(row.get(cp_header), row.get(loc_header))]: the first non-empty entry
    of a carpark is kept. *)
Fixpoint load_ev_rows (rows : list (option string * option string))
    (mapping : list (string * string)) : list (string * string) :=
  match rows with
  | [] => mapping
  | (c, e) :: rows' =>
      let cp := py_upper (py_strip (match c with Some s => s | None => EmptyString end)) in
      let ev := py_strip (match e with Some s => s | None => EmptyString end) in
      if String.eqb cp EmptyString then load_ev_rows rows' mapping
      else if negb (existsb (fun kv => String.eqb (fst kv) cp) mapping)
              && negb (String.eqb ev EmptyString)
           then load_ev_rows rows' (mapping ++ [(cp, ev)])
           else load_ev_rows rows' mapping
  end.

(** One UPDATE of the mapping loop:
    [SET ev_lot_location = ? WHERE UPPER(TRIM(carpark_number)) = ?]. *)
Definition apply_entry (v : join_table) (e : string * string) : join_table * nat :=
  sql_update (fun j => sql_eqb (norm_key (Join.carpark_number j)) (Some (fst e)))
    (set_ev (Some (snd e))) v.

Fixpoint apply_entries (mapping : list (string * string)) (v : join_table)
    (updates : nat) : join_table * nat :=
  match mapping with
  | [] => (v, updates)
  | e :: mapping' =>
      let (v', n) := apply_entry v e in
      apply_entries mapping' v' (updates + n)
  end.

Record ev_stats : Type := {
  total_rows : nat;
  sheet_matches_applied : nat;
  defaulted_set_this_run : nat;
  with_ev_location : nat
}.

(** [_apply_ev_mapping]; [mapping] lists [mapping.items()] in order. *)
Definition _apply_ev_mapping (mapping : list (string * string))
    (default_text : string) (v : join_table) : join_table * ev_stats :=
  let (v1, defaulted) :=
    sql_update (fun j => is_blank (Join.ev_lot_location j))
      (set_ev (Some default_text)) v in
  let (v2, updates) := apply_entries mapping v1 0%nat in
  (v2,
   {| total_rows := List.length v2;
      sheet_matches_applied := updates;
      defaulted_set_this_run := defaulted;
      with_ev_location :=
        List.length
          (filter (fun j =>
                     match Join.ev_lot_location j with
                     | None => false
                     | Some s =>
                         negb (String.eqb (sql_trim s) default_text)
                         && negb (String.eqb (sql_trim s) EmptyString)
                     end) v2) |}).

(** ** The pipeline as a transition system *)

Definition with_info (db : store) (t : info_table) : store :=
  {| carpark_availability := carpark_availability db;
     carpark_availability_history := carpark_availability_history db;
     carpark_info := t;
     carpark_availability_join := carpark_availability_join db |}.

Definition with_join (db : store) (v : join_table) : store :=
  {| carpark_availability := carpark_availability db;
     carpark_availability_history := carpark_availability_history db;
     carpark_info := carpark_info db;
     carpark_availability_join := v |}.

(** One committed transaction of the pricing, metadata or annotation job,
    or of the join materialiser. *)
Inductive job_step : store -> store -> Prop :=
  | step_mark_central db :
      job_step db (with_info db (mark_central_and_base_rates (carpark_info db)))
  | step_refresh_rates now stamp db :
      job_step db
        (with_info db (refresh_time_dependent_rates now stamp (carpark_info db)))
  | step_rebuild_join_snapshot db :
      job_step db (rebuild_join_snapshot db)
  | step_load_info now records db db' n :
      load_info_into_sqlite now db records = Committed db' n ->
      job_step db db'
  | step_rebuild_join_table db :
      job_step db (fst (rebuild_join_table db))
  | step_apply_ev mapping default_text db :
      job_step db
        (with_join db
           (fst (_apply_ev_mapping mapping default_text
                   (carpark_availability_join db)))).

(** One committed transaction of the pipeline: an availability ingestion
    cycle, or one of the above. *)
Inductive step : store -> store -> Prop :=
  | step_upsert strict ok legacy retrieved_at p db db' st :
      upsert strict ok legacy retrieved_at db p = Committed db' st ->
      step db db'
  | step_job db db' :
      job_step db db' ->
      step db db'.

Inductive reachable : store -> Prop :=
  | reach_empty : reachable empty_store
  | reach_step db db' : reachable db -> step db db' -> reachable db'.

(** * Definitions for the statements *)

(** ** The primary key of the snapshot table *)

(** No two rows of the table collide on [(carpark_number, lot_type)]: what
    the PRIMARY KEY of [carpark_availability] enforces. *)
Fixpoint pk_ok (t : avail_table) : bool :=
  match t with
  | [] => true
  | r :: t' =>
      negb (existsb (key_match (Avail.carpark_number r) (Avail.lot_type r)) t')
      && pk_ok t'
  end.

(** ** Loops that may raise, run side by side *)

Definition opt_rel {A B : Type} (R : A -> B -> Prop) (a : option A) (b : option B)
  : Prop :=
  match a, b with
  | Some x, Some y => R x y
  | None, None => True
  | _, _ => False
  end.

(** Two transaction states that differ at most in [use_legacy_upsert], over
    a snapshot table that satisfies its primary key. *)
Definition same_tables (s1 s2 : txn) : Prop :=
  tx_avail s1 = tx_avail s2 /\ tx_hist s1 = tx_hist s2
  /\ tx_history_inserts s1 = tx_history_inserts s2
  /\ pk_ok (tx_avail s1) = true.

Definition table0 : avail_table :=
  [ {| Avail.carpark_number := Some "ACB"; Avail.lot_type := Some "C";
       Avail.lots_available := 10; Avail.update_datetime := Some "2025-01-01T09:00:00";
       Avail.last_seen_at := "2025-01-01T01:00:05Z"; Avail.total_lots := Some 100 |};
    {| Avail.carpark_number := Some "BBB"; Avail.lot_type := Some "C";
       Avail.lots_available := 7; Avail.update_datetime := Some "2025-01-01T09:00:00";
       Avail.last_seen_at := "2025-01-01T01:00:05Z"; Avail.total_lots := None |} ].

Definition obs0 : observation :=
  {| o_cp_no := Some "BBB"; o_lot_type := Some "C"; o_lots_avail := 3;
     o_total_lots := Some 50; o_upd := Some "2025-01-01T09:05:00";
     o_seen := "2025-01-01T01:05:05Z" |}.

(** ** Sequences of upserts to one key *)

(** Successive calls of [upsert_snapshot], threading [use_legacy_upsert]. *)
Fixpoint upsert_all (ok legacy : bool) (t : avail_table) (os : list observation)
  : bool * avail_table :=
  match os with
  | [] => (legacy, t)
  | o :: os' =>
      let (legacy', t') := upsert_snapshot ok legacy t o in
      upsert_all ok legacy' t' os'
  end.

Fixpoint first_non_null (l : list (option Z)) : option Z :=
  match l with
  | [] => None
  | Some z :: _ => Some z
  | None :: l' => first_non_null l'
  end.

Definition to_key (c l : string) (o : observation) : Prop :=
  o_cp_no o = Some c /\ o_lot_type o = Some l.

(** The row of one key after the observations [os] were folded into it. *)
Definition row_after (r : Avail.row) (os : list observation) : Avail.row :=
  fold_left (fun r o => do_update_set r (inserted_row o)) os r.

Definition obs_hlm (lots : Z) (total : option Z) (seen : string) : observation :=
  {| o_cp_no := Some "HLM"; o_lot_type := Some "C"; o_lots_avail := lots;
     o_total_lots := total; o_upd := Some "2025-01-01T09:05:00"; o_seen := seen |}.

(** ** Pricing *)

(** The rule as the specification words it, on the minute of the day. *)
Definition minute_of_day (now : civil_time) : Z := 60 * hh now + mm now.

(** 22:30 to 07:00, wrapping across midnight. *)
Definition spec_in_night_window (now : civil_time) : bool :=
  (22 * 60 + 30 <=? minute_of_day now) || (minute_of_day now <? 7 * 60).

(** 07:00 to 22:30. *)
Definition spec_in_day_window (now : civil_time) : bool :=
  (7 * 60 <=? minute_of_day now) && (minute_of_day now <? 22 * 60 + 30).

(** Monday (0) to Saturday (5). *)
Definition spec_mon_to_sat (now : civil_time) : bool :=
  existsb (Z.eqb (wk now)) [0; 1; 2; 3; 4; 5].

Definition spec_rate (now : civil_time) (central : bool) : float :=
  if central && spec_mon_to_sat now && ((7 <=? hh now) && (hh now <? 17))
  then 1.2%float else 0.6%float.

Definition spec_cap (now : civil_time) (central night_service : bool)
  : option string * option float :=
  if night_service && spec_in_night_window now
  then (Some "NPS_NIGHT_CAP", Some 5.0%float)
  else if spec_in_day_window now
       then (Some "DAY_CAP", Some (if central then 20.0%float else 12.0%float))
       else (None, None).

(** The values [datetime] gives for [weekday()], [hour] and [minute]. *)
Definition valid_time (now : civil_time) : Prop :=
  0 <= wk now <= 6 /\ 0 <= hh now <= 23 /\ 0 <= mm now <= 59.

Fixpoint mapi_from {A B : Type} (i : nat) (f : nat -> A -> B) (l : list A) : list B :=
  match l with
  | [] => []
  | a :: l' => f i a :: mapi_from (S i) f l'
  end.

(** What the loop body writes on the row at position [i]. *)
Definition code_priced (now : civil_time) (stamp : nat -> string) (i : nat)
    (r : Info.row) : Info.row :=
  set_pricing (current_rate_of now (truthy (Info.is_central r)))
    (cap_of now (truthy (Info.is_central r)) (nps_of (night_parking (Info.attrs r))))
    (stamp i) r.

Definition selected (r : Info.row) : string * option Z * option string :=
  (Info.carpark_number r, Info.is_central r, night_parking (Info.attrs r)).

Definition facility0 : Info.row :=
  {| Info.carpark_number := "ACB";
     Info.attrs :=
       {| address := Some "BLK 270/271 ALBERT CENTRE"; x_coord := Some "30314.7936";
          y_coord := Some "31490.4942"; car_park_type := Some "BASEMENT CAR PARK";
          type_of_parking_system := Some "ELECTRONIC PARKING";
          short_term_parking := Some "WHOLE DAY"; free_parking := Some "NO";
          night_parking := Some "YES"; car_park_decks := Some "1";
          gantry_height := Some "1.80"; car_park_basement := Some "Y" |};
     Info.updated_at := Some "2025-01-01T00:00:00Z";
     Info.is_central := Some 1;
     Info.carpark_rate := Some 1.2%float;
     Info.current_rate_30min := None;
     Info.active_cap_type := None;
     Info.active_cap_amount := None;
     Info.rate_updated_at := None |}.

Definition wednesday (h m : Z) : civil_time := {| wk := 2; hh := h; mm := m |}.

(** ** The carry-forward cache *)

(** The annotations of the view rows of one facility. *)
Definition evs_of (v : join_table) (k : option string) : list (option string) :=
  map Join.ev_lot_location (filter (fun r => text_eqb (Join.carpark_number r) k) v).

(** ** Annotations across a rebuild *)

(** Facility [k] has some non-null annotation in the view. *)
Definition has_annotation (v : join_table) (k : string) : Prop :=
  exists r, In r v /\ Join.carpark_number r = Some k /\ Join.ev_lot_location r <> None.

(** No facility annotated in [v] is without annotation in [v']. *)
Definition annotation_kept (v v' : join_table) : Prop :=
  forall k, has_annotation v k -> has_annotation v' k.

Definition view_row (cp lt : string) (ev : option string) : Join.row :=
  {| Join.carpark_number := Some cp; Join.lot_type := Some lt;
     Join.lots_available := 10; Join.total_lots := Some 100;
     Join.update_datetime := Some "2025-01-01T09:00:00";
     Join.attrs := null_attrs;
     Join.carpark_rate := None; Join.current_rate_30min := None;
     Join.active_cap_type := None; Join.active_cap_amount := None;
     Join.ev_lot_location := ev; Join.has_info := 0 |}.

(** A store whose view still shows the annotated facility HLM, a facility
    the last strict-mirror cycle evicted from the snapshot table. *)
Definition evicted_store : store :=
  {| carpark_availability := table0;
     carpark_availability_history := [];
     carpark_info := [facility0];
     carpark_availability_join :=
       [view_row "ACB" "C" (Some "Level 2"); view_row "HLM" "C" (Some "Deck 3A")] |}.

Definition kept_store : store :=
  {| carpark_availability := table0;
     carpark_availability_history := [];
     carpark_info := [facility0];
     carpark_availability_join :=
       [view_row "ACB" "C" (Some "Level 2"); view_row "ACB" "H" None;
        view_row "BBB" "C" None] |}.

(** ** Pricing fields across a metadata reload *)

(** The six derived pricing fields of a metadata row. *)
Definition pricing_of (r : Info.row)
  : option Z * option float * option float * option string * option float
    * option string :=
  (Info.is_central r, Info.carpark_rate r, Info.current_rate_30min r,
   Info.active_cap_type r, Info.active_cap_amount r, Info.rate_updated_at r).

Definition no_pricing
  : option Z * option float * option float * option string * option float
    * option string :=
  (None, None, None, None, None, None).

(** Every facility present in both tables has the same pricing fields. *)
Definition pricing_unchanged (t t' : info_table) : Prop :=
  forall r r', In r t -> In r' t' ->
               Info.carpark_number r = Info.carpark_number r' ->
               pricing_of r' = pricing_of r.

Definition priced_store : store :=
  {| carpark_availability := table0;
     carpark_availability_history := [];
     carpark_info :=
       [set_pricing 1.2%float (Some "DAY_CAP", Some 20.0%float) "2025-01-01T02:00:00Z"
          facility0];
     carpark_availability_join := [] |}.

Definition record0 : record_obj :=
  [("car_park_no", Some "ACB"); ("address", Some "BLK 270/271 ALBERT CENTRE");
   ("night_parking", Some "YES")].

(** ** Rows of the snapshot table across one upsert *)

Definition row_key (r : Avail.row) : option string * option string :=
  (Avail.carpark_number r, Avail.lot_type r).

(** A row of key [k] last seen at [T]. *)
Definition seen_at (T : string) (k : option string * option string) (r : Avail.row)
  : Prop :=
  row_key r = k /\ Avail.last_seen_at r = T.

Definition obs_key (o : observation) : option string * option string :=
  (o_cp_no o, o_lot_type o).

(** ** The ingestion loop *)

(** The observation bound by the loop body for [info] of a carpark. *)
Definition obs_of (cp_no upd : option string) (T : string) (info : lot_info) (z : Z)
  : observation :=
  {| o_cp_no := cp_no; o_lot_type := li_lot_type info; o_lots_avail := z;
     o_total_lots := total_lots_of info; o_upd := upd; o_seen := T |}.

(** The keys the payload observes. *)
Definition observed_keys (p : payload) : list (option string * option string) :=
  flat_map (fun cp => map (fun info => (cp_carpark_number cp, li_lot_type info))
                        (infos_of cp))
    (carparks_of p).

(** Some row of key [k] in the transaction's table was seen at [T]. *)
Definition has_seen (T : string) (k : option string * option string) (s : txn) : Prop :=
  exists r, In r (tx_avail s) /\ seen_at T k r.

(** Every row of the transaction's table is a row of [pre], untouched, or a
    row of an observed key seen at [T]. *)
Definition old_or_seen (T : string) (pre : avail_table)
    (K : list (option string * option string)) (s : txn) : Prop :=
  forall r, In r (tx_avail s) ->
            In r pre \/ exists k, In k K /\ seen_at T k r.

(** ** Strict mirror *)

(** What the specification promises of the snapshot table [post] left by a
    strict-mirror cycle stamped [T] that found the table [pre] and was fed
    the payload [p]. *)
Definition strict_mirror_post (T : string) (pre : avail_table) (p : payload)
    (post : avail_table) : Prop :=
  (forall r, In r post -> Avail.last_seen_at r = T)
  /\ (forall r, In r pre -> ~ In (row_key r) (observed_keys p) ->
                forall r', In r' post -> row_key r' <> row_key r)
  /\ (forall k, In k (observed_keys p) -> exists r, In r post /\ row_key r = k).

(** A payload with one carpark and one lot type. *)
Definition one_lot (cp : string) (upd : option string) (lots : string) : payload :=
  {| items :=
       Some [ {| carpark_data :=
                   Some [ {| cp_carpark_number := Some cp;
                             cp_update_datetime := upd;
                             cp_carpark_info :=
                               Some [ {| li_lot_type := Some "C";
                                         li_lots_available := Some (JStr lots);
                                         li_total_lots := Some (JStr "100") |} ] |} ] |} ] |}.

Definition committed_store {A : Type} (o : outcome A) : store :=
  match o with
  | Committed s _ => s
  | RolledBack => empty_store
  end.

(** The store after a first cycle, stamped 01:05:05, that observed HLM. *)
Definition store_after_hlm : store :=
  committed_store
    (upsert true true false "2025-01-01T01:05:05Z" empty_store
       (one_lot "HLM" (Some "2025-01-01T09:04:00") "5")).

(** ** History *)

Definition hist_key (r : Hist.row) : option string * option string * option string :=
  (Hist.carpark_number r, Hist.lot_type r, Hist.update_datetime r).

(** No two rows of the table collide on the unique index. *)
Fixpoint hist_unique (h : hist_table) : bool :=
  match h with
  | [] => true
  | r :: h' => negb (existsb (hist_conflict r) h') && hist_unique h'
  end.

(** The specification's wording: no two rows agree on the three columns. *)
Definition hist_no_dup (h : hist_table) : Prop :=
  forall i j r1 r2,
    nth_error h i = Some r1 -> nth_error h j = Some r2 -> i <> j ->
    hist_key r1 <> hist_key r2.

(** The history table of the transaction satisfies its unique index and
    extends [h0]. *)
Definition hist_inv (h0 : hist_table) (s : txn) : Prop :=
  (hist_unique h0 = true -> hist_unique (tx_hist s) = true)
  /\ exists more, tx_hist s = h0 ++ more.

(** An observation of HLM whose carpark entry has no update_datetime. *)
Definition undated : payload := one_lot "HLM" None "5".

Definition store_undated_twice : store :=
  committed_store
    (upsert true true false "2025-01-01T01:10:05Z"
       (committed_store
          (upsert true true false "2025-01-01T01:05:05Z" empty_store undated))
       undated).

Definition hlm_again : Hist.row :=
  {| Hist.carpark_number := Some "HLM"; Hist.lot_type := Some "C";
     Hist.lots_available := 9;
     Hist.update_datetime := Some "2025-01-01T09:04:00";
     Hist.retrieved_at := "2025-01-01T01:10:05Z" |}.

(** ** Annotation merge *)

(** The row condition of one mapping UPDATE. *)
Definition hits (e : string * string) (j : Join.row) : bool :=
  sql_eqb (norm_key (Join.carpark_number j)) (Some (fst e)).

(** The annotation of a row of normalised key [k] after the mapping loop,
    from the annotation [x] it had before the loop. *)
Definition after_entries (mapping : list (string * string)) (k : option string)
    (x : option string) : option string :=
  fold_left (fun acc e => if sql_eqb k (Some (fst e)) then Some (snd e) else acc)
    mapping x.

(** The annotation after phase one. *)
Definition defaulted (default_text : string) (x : option string) : option string :=
  if is_blank x then Some default_text else x.

(** What a whole run makes of one row. *)
Definition merged_row (mapping : list (string * string)) (default_text : string)
    (j : Join.row) : Join.row :=
  set_ev (after_entries mapping (norm_key (Join.carpark_number j))
            (defaulted default_text (Join.ev_lot_location j))) j.

(** No entry of the mapping has a blank text. *)
Definition values_non_blank (mapping : list (string * string)) : Prop :=
  forall e, In e mapping -> is_blank (Some (snd e)) = false.

Definition view0 : join_table :=
  [view_row "ACB" "C" None; view_row "BBB" "C" (Some "  "); view_row "HLM" "C" (Some "Deck 3A")].

(** * Further code and definitions for its properties *)

(** ** The pricing job: [lambda_handler] of update_carpark_rates.py *)

(** [mark_central_and_base_rates(conn)], [refresh_time_dependent_rates(conn)],
    [rebuild_join_snapshot(conn)], in this order. *)
Definition update_carpark_rates_handler (now : civil_time) (stamp : nat -> string)
    (db : store) : store :=
  rebuild_join_snapshot
    (with_info db
       (refresh_time_dependent_rates now stamp
          (mark_central_and_base_rates (carpark_info db)))).

(** Membership in the allow-list [CENTRAL]. *)
Definition in_central (k : string) : bool := existsb (String.eqb k) CENTRAL.

(** The row [mark_central_and_base_rates] should leave in place of [r]. *)
Definition classified (r : Info.row) : Info.row :=
  {| Info.carpark_number := Info.carpark_number r;
     Info.attrs := Info.attrs r;
     Info.updated_at := Info.updated_at r;
     Info.is_central := Some (if in_central (Info.carpark_number r) then 1 else 0);
     Info.carpark_rate :=
       Some (if in_central (Info.carpark_number r) then 1.2%float else 0.6%float);
     Info.current_rate_30min := Info.current_rate_30min r;
     Info.active_cap_type := Info.active_cap_type r;
     Info.active_cap_amount := Info.active_cap_amount r;
     Info.rate_updated_at := Info.rate_updated_at r |}.

(** ** The shape of the joined view *)

(** The five columns a view row takes from the snapshot table. *)
Definition snapshot_cols (a : Avail.row)
  : option string * option string * Z * option Z * option string :=
  (Avail.carpark_number a, Avail.lot_type a, Avail.lots_available a,
   Avail.total_lots a, Avail.update_datetime a).

Definition view_cols (j : Join.row)
  : option string * option string * Z * option Z * option string :=
  (Join.carpark_number j, Join.lot_type j, Join.lots_available j,
   Join.total_lots j, Join.update_datetime j).

(** The four priced columns of a view row, and those of a metadata row. *)
Definition view_pricing (j : Join.row)
  : option float * option float * option string * option float :=
  (Join.carpark_rate j, Join.current_rate_30min j, Join.active_cap_type j,
   Join.active_cap_amount j).

Definition info_pricing (i : Info.row)
  : option float * option float * option string * option float :=
  (Info.carpark_rate i, Info.current_rate_30min i, Info.active_cap_type i,
   Info.active_cap_amount i).

(** A view row built from a metadata hit [i], or from no hit. *)
Definition joined_with (info : info_table) (j : Join.row) : Prop :=
  (Join.has_info j = 1
   /\ exists i, In i info
                /\ norm_key (Join.carpark_number j) = Some (Info.carpark_number i)
                /\ Join.attrs j = Info.attrs i)
  \/ (Join.has_info j = 0
      /\ (forall i, In i info ->
                    norm_key (Join.carpark_number j) <> Some (Info.carpark_number i))
      /\ Join.attrs j = null_attrs
      /\ view_pricing j = (None, None, None, None)).

(** The snapshot rows with no metadata hit. *)
Definition unmatched_rows (avail : avail_table) (info : info_table) : avail_table :=
  filter (fun a => negb (existsb (join_on a) info)) avail.

(** The view after the pricing job run on Wednesday 10:00 over the store
    [priced_store]. *)
Definition priced_view : join_table :=
  carpark_availability_join
    (update_carpark_rates_handler (wednesday 10 0) (fun _ => "2025-01-01T02:00:00Z")
       priced_store).

(** ** One ingestion cycle *)

(** A text of ASCII characters: on these the text functions above are what
    Python computes. *)
Fixpoint ascii_text (s : string) : bool :=
  match s with
  | EmptyString => true
  | String c s' => (N_of_ascii c <? 128)%N && ascii_text s'
  end.

Definition ascii_opt (v : option string) : bool :=
  match v with
  | Some s => ascii_text s
  | None => true
  end.





(** An observation that carries the three values of the history index. *)
Definition complete_triple (cp : carpark) (info : lot_info) : Prop :=
  cp_carpark_number cp <> None /\ cp_update_datetime cp <> None
  /\ li_lot_type info <> None.

(** A history row with the three indexed values of an observation. *)
Definition probe (cp : carpark) (info : lot_info) : Hist.row :=
  {| Hist.carpark_number := cp_carpark_number cp;
     Hist.lot_type := li_lot_type info;
     Hist.lots_available := 0;
     Hist.update_datetime := cp_update_datetime cp;
     Hist.retrieved_at := EmptyString |}.

(** The value a committed operation returned. *)
Definition committed_value {A : Type} (o : outcome A) (d : A) : A :=
  match o with
  | Committed _ a => a
  | RolledBack => d
  end.

Definition no_stats : upsert_stats :=
  {| seen_carparks := 0; snapshot_rows := 0; history_inserts := 0;
     mirror_deleted := 0; legacy_upsert_used := false |}.

(** A second cycle, five minutes after the one that left [store_after_hlm],
    observing ACB only: with strict mirror, and without. *)
Definition second_cycle (strict : bool) : outcome upsert_stats :=
  upsert strict true false "2025-01-01T01:10:05Z" store_after_hlm
    (one_lot "ACB" (Some "2025-01-01T09:09:00") "7").

(** Row [r'] continues row [r]: same key, and the total_lots of [r] when it
    had one. *)
Definition continues (r r' : Avail.row) : Prop :=
  row_key r' = row_key r
  /\ (Avail.total_lots r <> None -> Avail.total_lots r' = Avail.total_lots r).

(** ** Metadata ingestion *)

(** The two texts a record's key is read from are ASCII. *)
Definition ascii_key (rec : record_obj) : bool :=
  ascii_opt (rec_get rec "car_park_no") && ascii_opt (rec_get rec "carpark_number").

(** The records [load_info_into_sqlite] does not skip, their keys and the
    rows it inserts for them. *)
Definition has_key (rec : record_obj) : bool :=
  negb (String.eqb (record_key rec) EmptyString).

Definition loaded_keys (records : list record_obj) : list string :=
  map record_key (filter has_key records).

Definition loaded_rows (now : string) (records : list record_obj) : info_table :=
  map (info_row_of now) (filter has_key records).

(** One page of the datastore: the ids of [res["fields"]] and
    [res["records"]]. *)
Record page : Type := {
  pg_fields : list string;
  pg_records : list record_obj
}.

(** What [fetch_info_records] comes to: its result, the exception of a
    failed request, or a loop still running when the fuel is spent. *)
Inductive fetched : Type :=
  | Fetched (fields : list string) (records : list record_obj)
  | FetchFailed
  | OutOfFuel.

(** The [while True] loop of [fetch_info_records]; [get limit offset] is the
    request, [None] when [raise_for_status] raises. *)
Fixpoint fetch_loop (fuel : nat) (get : nat -> nat -> option page)
    (page_size offset : nat) (fields : option (list string))
    (all_records : list record_obj) : fetched :=
  match fuel with
  | O => OutOfFuel
  | S fuel' =>
      match get page_size offset with
      | None => FetchFailed
      | Some res =>
          let fields :=
            match fields with
            | None =>
                Some (filter (fun f => negb (String.eqb f "_id")) (pg_fields res))
            | Some _ => fields
            end in
          let records := pg_records res in
          let result all :=
            Fetched (match fields with Some f => f | None => [] end) all in
          match records with
          | [] => result all_records
          | _ :: _ =>
              let all_records := all_records ++ records in
              if (List.length records <? page_size)%nat then result all_records
              else fetch_loop fuel' get page_size (offset + List.length records)%nat
                     fields all_records
          end
      end
  end.

Definition fetch_info_records (fuel : nat) (get : nat -> nat -> option page)
    (page_size : nat) : fetched :=
  fetch_loop fuel get page_size 0 None [].

(** A datastore that serves the records [data] by limit and offset. *)
Definition serves (fields : list string) (data : list record_obj)
    (get : nat -> nat -> option page) : Prop :=
  forall limit offset,
    get limit offset
    = Some {| pg_fields := fields; pg_records := firstn limit (skipn offset data) |}.

(** ** Annotation source *)

(** [mapping.get(k)] on the items of a dict. *)
Definition dict_get (mapping : list (string * string)) (k : string) : option string :=
  option_map snd (find (fun kv => String.eqb (fst kv) k) mapping).

(** Both cells of a row of the sheet are ASCII. *)
Definition ascii_row (row : option string * option string) : bool :=
  ascii_opt (fst row) && ascii_opt (snd row).

(** The key and the text [_load_ev_mapping_csv] reads from a row. *)
Definition ev_key (row : option string * option string) : string :=
  py_upper (py_strip (match fst row with Some s => s | None => EmptyString end)).

Definition ev_text (row : option string * option string) : string :=
  py_strip (match snd row with Some s => s | None => EmptyString end).

(** The first row of the sheet for carpark [k] that has a text. *)
Definition first_text (rows : list (option string * option string)) (k : string)
  : option string :=
  option_map ev_text
    (find (fun row => String.eqb (ev_key row) k
                      && negb (String.eqb (ev_text row) EmptyString)) rows).

(** [_latest_csv_key]: the objects listed under the prefix, page after
    page, each with its key and LastModified; [None] is the
    FileNotFoundError. *)
Definition py_lower_char (c : ascii) : ascii :=
  let n := N_of_ascii c in
  if ((65 <=? n) && (n <=? 90))%N then ascii_of_N (n + 32) else c.

Definition py_lower (s : string) : string := map_string py_lower_char s.

(** [s.endswith(suffix)] *)
Fixpoint endswith (s suffix : string) : bool :=
  String.eqb s suffix
  || match s with
     | String _ s' => endswith s' suffix
     | EmptyString => false
     end.

Definition is_csv (obj : string * Z) : bool := endswith (py_lower (fst obj)) ".csv".

Fixpoint latest_loop (objs : list (string * Z)) (latest : option (string * Z))
  : option (string * Z) :=
  match objs with
  | [] => latest
  | obj :: objs' =>
      latest_loop objs'
        (if is_csv obj
         then match latest with
              | None => Some obj
              | Some l => if snd obj >? snd l then Some obj else latest
              end
         else latest)
  end.

Definition _latest_csv_key (objs : list (string * Z)) : option string :=
  option_map fst (latest_loop objs None).

(** ** The availability job: [lambda_handler] of update_carpark_availability.py *)

(** [upsert(payload)], then [rebuild_join_snapshot(conn)]; an exception of
    [upsert] ends the handler before the rebuild. *)
Definition update_carpark_availability_handler
    (strict_mirror on_conflict_ok use_legacy_upsert : bool) (retrieved_at : string)
    (db : store) (p : payload) : outcome upsert_stats :=
  match upsert strict_mirror on_conflict_ok use_legacy_upsert retrieved_at db p with
  | Committed db1 stats => Committed (rebuild_join_snapshot db1) stats
  | RolledBack => RolledBack
  end.

Definition view_key (j : Join.row) : option string * option string :=
  (Join.carpark_number j, Join.lot_type j).

(** ** Loop invariants of the ingestion cycle *)

(** The history grows by exactly the rows counted, at most one for each
    element of the loop. *)
Definition counted (h0 : nat) (n0 : Z) (k : nat) (s : txn) : Prop :=
  Z.of_nat (List.length (tx_hist s)) - tx_history_inserts s = Z.of_nat h0 - n0
  /\ n0 <= tx_history_inserts s <= n0 + Z.of_nat k.

(** The history holds the triple of the observation, when it is complete. *)
Definition recorded (cp : carpark) (info : lot_info) (s : txn) : Prop :=
  complete_triple cp info -> existsb (hist_conflict (probe cp info)) (tx_hist s) = true.

(** ** The metadata job: [lambda_handler] of ingest_hdb_carpark_info.py *)

(** The body of the response. *)
Record ingest_report : Type := {
  info_rows_downloaded : Z;
  info_rows_loaded : Z;
  join_rows_total : Z;
  join_rows_matched : Z;
  join_rows_unmatched : Z;
  info_columns : list string
}.

(** The handler answers, or an exception leaves it (with the store as the
    rollback left it), or the fetch loop is still running. *)
Inductive job_result : Type :=
  | JobDone (db : store) (r : ingest_report)
  | JobRaised (db : store)
  | JobOutOfFuel.

(** [fetch_info_records], [load_info_into_sqlite], [rebuild_join_table]; the
    two exports to the object store write no table. *)
Definition ingest_hdb_carpark_info_handler (fuel : nat) (get : nat -> nat -> option page)
    (page_size : nat) (now : string) (db : store) : job_result :=
  match fetch_info_records fuel get page_size with
  | OutOfFuel => JobOutOfFuel
  | FetchFailed => JobRaised db
  | Fetched fields records =>
      match load_info_into_sqlite now db records with
      | RolledBack => JobRaised db
      | Committed db1 info_rows =>
          let '(db2, (matched, unmatched, total)) := rebuild_join_table db1 in
          JobDone db2
            {| info_rows_downloaded := Z.of_nat (List.length records);
               info_rows_loaded := info_rows;
               join_rows_total := total;
               join_rows_matched := matched;
               join_rows_unmatched := unmatched;
               info_columns := fields |}
      end
  end.

(** ** The primary key of the view *)

(** Two keys collide when both parts are equal and not null. *)
Definition keys_collide (k k' : option string * option string) : bool :=
  sql_eqb (fst k) (fst k') && sql_eqb (snd k) (snd k').

(** What PRIMARY KEY (carpark_number, lot_type) enforces on the rows of a
    table, on their keys. *)
Fixpoint distinct_keys (ks : list (option string * option string)) : bool :=
  match ks with
  | [] => true
  | k :: ks' => negb (existsb (keys_collide k) ks') && distinct_keys ks'
  end.

(** ** The lot entries of a payload *)

(** The lot entries, each with its carpark, in the order the two loops of
    [upsert] visit them. *)
Definition entries (p : payload) : list (carpark * lot_info) :=
  flat_map (fun cp => map (pair cp) (infos_of cp)) (carparks_of p).

(** The entry is bound to the key [(c, l)]. *)
Definition entry_to (c l : string) (e : carpark * lot_info) : bool :=
  sql_eqb (cp_carpark_number (fst e)) (Some c) && sql_eqb (li_lot_type (snd e)) (Some l).

Fixpoint last_of {A : Type} (l : list A) : option A :=
  match l with
  | [] => None
  | a :: l' =>
      match last_of l' with
      | Some b => Some b
      | None => Some a
      end
  end.

(** The body of the inner loop, on an entry. *)
Definition process_entry (on_conflict_ok : bool) (retrieved_at : string) (s : txn)
    (e : carpark * lot_info) : option txn :=
  process_info on_conflict_ok (cp_carpark_number (fst e)) (cp_update_datetime (fst e))
    retrieved_at s (snd e).

(** The row holds what the cycle at [T] read from the entry. *)
Definition settled (T : string) (e : carpark * lot_info) (r : Avail.row) : Prop :=
  Some (Avail.lots_available r) = lots_avail_of (snd e)
  /\ Avail.update_datetime r = cp_update_datetime (fst e)
  /\ Avail.last_seen_at r = T.

(** A lot entry of type C, and a payload that lists HLM with two such
    entries. *)
Definition lot_c (lots : string) : lot_info :=
  {| li_lot_type := Some "C";
     li_lots_available := Some (JStr lots);
     li_total_lots := None |}.

Definition hlm_carpark : carpark :=
  {| cp_carpark_number := Some "HLM";
     cp_update_datetime := Some "2025-01-01T09:04:00";
     cp_carpark_info := Some [lot_c "5"; lot_c "9"] |}.

Definition hlm_twice : payload :=
  {| items := Some [ {| carpark_data := Some [hlm_carpark] |} ] |}.

(** ** The availability reader: lambda_for_carpark_ava_apigw/lambda_function.py *)

(** One element of a carpark's [lots] list. *)
Record lot_json : Type := {
  lj_lot_type : option string;
  lj_lots_available : string
}.

(** Python [str] of an [int]. *)
Definition py_str_int (z : Z) : string := NilZero.string_of_int (Z.to_int z).

(** A fetched row of [SELECT carpark_number, lot_type, lots_available]. *)
Definition snap_row : Type := option string * option string * Z.

Definition snap_cp (r : snap_row) : option string := fst (fst r).

Definition lot_of (r : snap_row) : lot_json :=
  {| lj_lot_type := snd (fst r); lj_lots_available := py_str_int (snd r) |}.

(** [grouped[k].append(v)] on a defaultdict(list), whose keys keep the order
    of their first insertion. *)
Fixpoint group_append (g : list (option string * list lot_json)) (k : option string)
    (v : lot_json) : list (option string * list lot_json) :=
  match g with
  | [] => [(k, [v])]
  | (k', vs) :: g' =>
      if text_eqb k' k then (k', vs ++ [v]) :: g'
      else (k', vs) :: group_append g' k v
  end.

(** The grouping loop over the fetched rows. *)
Definition group_rows (sample_snap : list snap_row)
  : list (option string * list lot_json) :=
  fold_left (fun g r => group_append g (snap_cp r) (lot_of r)) sample_snap [].

(** [grouped[k]] *)
Definition group_get (g : list (option string * list lot_json)) (k : option string)
  : list lot_json :=
  match find (fun kv => text_eqb (fst kv) k) g with
  | Some kv => snd kv
  | None => []
  end.

Fixpoint insert_sorted (x : string) (l : list string) : list string :=
  match l with
  | [] => [x]
  | a :: l' => if String.leb x a then x :: l else a :: insert_sorted x l'
  end.

(** The ascending order of texts. *)
Definition sort_strings (l : list string) : list string :=
  fold_right insert_sorted [] l.

Fixpoint all_some (l : list (option string)) : option (list string) :=
  match l with
  | [] => Some []
  | None :: _ => None
  | Some s :: l' => option_map (cons s) (all_some l')
  end.

(** [sorted(grouped)] on the keys of the dict, which are pairwise distinct:
    with two keys or more, [None] among them is compared with a text, which
    raises TypeError ([None] here). *)
Definition py_sorted_keys (ks : list (option string)) : option (list (option string)) :=
  match ks with
  | [] | [_] => Some ks
  | _ => option_map (fun l => map Some (sort_strings l)) (all_some ks)
  end.

(** The [carpark_ava] list of the response, from the fetched rows: one
    [(carpark_number, lots)] per key, or the TypeError of [sorted]. *)
Definition carpark_ava (sample_snap : list snap_row)
  : option (list (option string * list lot_json)) :=
  let grouped := group_rows sample_snap in
  option_map (map (fun cp => (cp, group_get grouped cp)))
    (py_sorted_keys (map fst grouped)).

(** The lots of carpark [k] among the fetched rows, in the order fetched. *)
Definition lots_of (k : option string) (sample_snap : list snap_row) : list lot_json :=
  map lot_of (filter (fun r => text_eqb (snap_cp r) k) sample_snap).

(** ** The two rebuilds side by side *)

(** The view row with the four priced columns and the annotation null. *)
Definition unpriced (j : Join.row) : Join.row :=
  {| Join.carpark_number := Join.carpark_number j;
     Join.lot_type := Join.lot_type j;
     Join.lots_available := Join.lots_available j;
     Join.total_lots := Join.total_lots j;
     Join.update_datetime := Join.update_datetime j;
     Join.attrs := Join.attrs j;
     Join.carpark_rate := None;
     Join.current_rate_30min := None;
     Join.active_cap_type := None;
     Join.active_cap_amount := None;
     Join.ev_lot_location := None;
     Join.has_info := Join.has_info j |}.

(** * Properties *)

(** ** SQL equality *)

Lemma sql_eqb_true (a b : option string) :
  sql_eqb a b = true <-> exists s, a = Some s /\ b = Some s.
Proof.
  destruct a as [x|], b as [y|]; simpl; split; try discriminate.
  - intros H. apply String.eqb_eq in H. subst. eauto.
  - intros (s & Ha & Hb). inversion Ha; inversion Hb; subst. apply String.eqb_refl.
  - intros (s & Ha & Hb). discriminate.
  - intros (s & Ha & Hb). discriminate.
  - intros (s & Ha & Hb). discriminate.
Qed.

Lemma sql_eqb_refl (s : string) : sql_eqb (Some s) (Some s) = true.
Proof. simpl. apply String.eqb_refl. Qed.

Lemma sql_eqb_eq (a b : option string) : sql_eqb a b = true -> a = b.
Proof. intros H. apply sql_eqb_true in H. destruct H as (s & -> & ->). reflexivity. Qed.

Lemma sql_eqb_sym (a b : option string) : sql_eqb a b = sql_eqb b a.
Proof. destruct a, b; simpl; auto using String.eqb_sym. Qed.

Lemma key_match_true (cp lt : option string) (r : Avail.row) :
  key_match cp lt r = true ->
  Avail.carpark_number r = cp /\ Avail.lot_type r = lt.
Proof.
  unfold key_match. intros H. apply andb_true_iff in H. destruct H as [H1 H2].
  split; apply sql_eqb_eq; assumption.
Qed.

Lemma key_match_some (c l : string) (r : Avail.row) :
  Avail.carpark_number r = Some c -> Avail.lot_type r = Some l ->
  key_match (Some c) (Some l) r = true.
Proof. unfold key_match. intros -> ->. now rewrite !sql_eqb_refl. Qed.

(** ** The primary key of the snapshot table *)

Lemma existsb_false_forall {A : Type} (f : A -> bool) (l : list A) :
  existsb f l = false <-> forall x, In x l -> f x = false.
Proof.
  induction l as [|a l IH]; simpl.
  - split; [intros _ x []|reflexivity].
  - rewrite orb_false_iff, IH. split.
    + intros [Ha Hl] x [<-|Hx]; auto.
    + intros H. split; [apply H; auto|intros x Hx; apply H; auto].
Qed.

Lemma do_update_set_legacy (o : observation) (r : Avail.row) :
  legacy_set o r = do_update_set r (inserted_row o).
Proof.
  unfold legacy_set, do_update_set, coalesce; simpl.
  destruct (Avail.total_lots r); reflexivity.
Qed.

Lemma update_no_match {R : Type} (w : R -> bool) (set : R -> R) (t : list R) :
  (forall r, In r t -> w r = false) ->
  sql_update w set t = (t, 0%nat).
Proof.
  intros H. unfold sql_update. f_equal.
  - induction t as [|r t IH]; simpl; [reflexivity|].
    rewrite (H r) by (simpl; auto). f_equal. apply IH. intros; apply H; simpl; auto.
  - induction t as [|r t IH]; simpl; [reflexivity|].
    rewrite (H r) by (simpl; auto). apply IH. intros; apply H; simpl; auto.
Qed.

Lemma legacy_upsert_cons_miss (r : Avail.row) (t : avail_table) (o : observation) :
  key_match (o_cp_no o) (o_lot_type o) r = false ->
  legacy_upsert (r :: t) o = r :: legacy_upsert t o.
Proof.
  intros H. unfold legacy_upsert, sql_update. simpl. rewrite H.
  destruct (Nat.eqb _ 0); reflexivity.
Qed.

Lemma legacy_upsert_cons_hit (r : Avail.row) (t : avail_table) (o : observation) :
  key_match (o_cp_no o) (o_lot_type o) r = true ->
  (forall r', In r' t -> key_match (o_cp_no o) (o_lot_type o) r' = false) ->
  legacy_upsert (r :: t) o = legacy_set o r :: t.
Proof.
  intros H Ht. unfold legacy_upsert.
  pose proof (update_no_match (key_match (o_cp_no o) (o_lot_type o)) (legacy_set o) t Ht) as E.
  apply (f_equal fst) in E. unfold sql_update in *. simpl in *.
  rewrite H. simpl. now rewrite E.
Qed.

(** On a table that satisfies its primary key, the UPDATE-then-INSERT
    fallback and the ON CONFLICT statement write the same table. *)
Lemma legacy_upsert_on_conflict (t : avail_table) (o : observation) :
  pk_ok t = true ->
  legacy_upsert t o = insert_on_conflict t (inserted_row o).
Proof.
  induction t as [|r t IH]; intros Hpk.
  - reflexivity.
  - simpl in Hpk. apply andb_true_iff in Hpk. destruct Hpk as [Hr Hpk].
    apply negb_true_iff in Hr.
    simpl. destruct (key_match (o_cp_no o) (o_lot_type o) r) eqn:Hm.
    + rewrite legacy_upsert_cons_hit.
      * now rewrite do_update_set_legacy.
      * assumption.
      * apply key_match_true in Hm. destruct Hm as [Hc Hl].
        rewrite Hc, Hl in Hr. now apply existsb_false_forall.
    + rewrite legacy_upsert_cons_miss by assumption. now rewrite IH.
Qed.

Lemma upsert_snapshot_on_conflict (ok legacy : bool) (t : avail_table)
    (o : observation) :
  pk_ok t = true ->
  snd (upsert_snapshot ok legacy t o) = insert_on_conflict t (inserted_row o).
Proof.
  intros Hpk. unfold upsert_snapshot.
  destruct legacy, ok; simpl; auto using legacy_upsert_on_conflict.
Qed.

Lemma key_match_do_update (cp lt : option string) (r new : Avail.row) :
  key_match cp lt (do_update_set r new) = key_match cp lt r.
Proof. reflexivity. Qed.

Lemma key_match_iff (cp lt : option string) (r : Avail.row) :
  key_match cp lt r = true <->
  exists c l, cp = Some c /\ lt = Some l
              /\ Avail.carpark_number r = Some c /\ Avail.lot_type r = Some l.
Proof.
  unfold key_match. rewrite andb_true_iff, !sql_eqb_true. split.
  - intros [(c & H1 & H2) (l & H3 & H4)]. exists c, l. auto.
  - intros (c & l & H1 & H2 & H3 & H4). split; [exists c|exists l]; auto.
Qed.

Lemma existsb_insert_on_conflict (cp lt : option string) (t : avail_table)
    (new : Avail.row) :
  existsb (key_match cp lt) (insert_on_conflict t new)
  = existsb (key_match cp lt) t || key_match cp lt new.
Proof.
  induction t as [|r t IH]; simpl.
  - now rewrite orb_false_r.
  - destruct (key_match (Avail.carpark_number new) (Avail.lot_type new) r) eqn:Hm; simpl.
    + rewrite key_match_do_update.
      destruct (key_match cp lt new) eqn:Hn; [|now rewrite orb_false_r].
      assert (key_match cp lt r = true) as ->; [|reflexivity].
      apply key_match_iff in Hm. apply key_match_iff in Hn. apply key_match_iff.
      destruct Hm as (c & l & H1 & H2 & H3 & H4).
      destruct Hn as (c' & l' & H1' & H2' & H3' & H4').
      exists c', l'. repeat split; congruence.
    + rewrite IH. now rewrite orb_assoc.
Qed.

Lemma pk_ok_insert_on_conflict (t : avail_table) (new : Avail.row) :
  pk_ok t = true -> pk_ok (insert_on_conflict t new) = true.
Proof.
  induction t as [|r t IH]; intros Hpk; [reflexivity|].
  simpl in Hpk. apply andb_true_iff in Hpk. destruct Hpk as [Hr Hpk].
  simpl. destruct (key_match (Avail.carpark_number new) (Avail.lot_type new) r) eqn:Hm.
  - simpl. now rewrite Hr, Hpk.
  - simpl. rewrite existsb_insert_on_conflict, IH by assumption.
    apply negb_true_iff in Hr. rewrite Hr. simpl.
    assert (key_match (Avail.carpark_number r) (Avail.lot_type r) new = false) as ->;
      [|reflexivity].
    destruct (key_match (Avail.carpark_number r) (Avail.lot_type r) new) eqn:Hn; auto.
    apply key_match_iff in Hn. destruct Hn as (c & l & H1 & H2 & H3 & H4).
    assert (key_match (Avail.carpark_number new) (Avail.lot_type new) r = true) as E.
    { apply key_match_iff. exists c, l. auto. }
    congruence.
Qed.

Lemma pk_ok_upsert_snapshot (ok legacy : bool) (t : avail_table) (o : observation) :
  pk_ok t = true -> pk_ok (snd (upsert_snapshot ok legacy t o)) = true.
Proof.
  intros H. rewrite upsert_snapshot_on_conflict by assumption.
  now apply pk_ok_insert_on_conflict.
Qed.

(** ** Loops that may raise, run side by side *)

Lemma for_each_rel {S1 S2 X : Type} (R : S1 -> S2 -> Prop)
    (body1 : S1 -> X -> option S1) (body2 : S2 -> X -> option S2) :
  (forall s1 s2 x, R s1 s2 -> opt_rel R (body1 s1 x) (body2 s2 x)) ->
  forall xs s1 s2, R s1 s2 -> opt_rel R (for_each body1 xs s1) (for_each body2 xs s2).
Proof.
  intros Hbody xs. induction xs as [|x xs IH]; intros s1 s2 HR; simpl.
  - exact HR.
  - specialize (Hbody s1 s2 x HR). unfold bind.
    destruct (body1 s1 x), (body2 s2 x); simpl in Hbody; try contradiction; auto.
Qed.

(** An invariant of the loop state is kept by the loop. *)
Lemma for_each_inv {S X : Type} (P : S -> Prop) (body : S -> X -> option S) :
  (forall s x s', P s -> body s x = Some s' -> P s') ->
  forall xs s s', P s -> for_each body xs s = Some s' -> P s'.
Proof.
  intros Hbody xs. induction xs as [|x xs IH]; intros s s' HP H; simpl in H.
  - now inversion H; subst.
  - unfold bind in H. destruct (body s x) as [s1|] eqn:E; [|discriminate].
    eapply IH; [|exact H]. eapply Hbody; eauto.
Qed.

Lemma process_info_same (ok1 ok2 : bool) (cp_no upd : option string) (T : string)
    (s1 s2 : txn) (info : lot_info) :
  same_tables s1 s2 ->
  opt_rel same_tables (process_info ok1 cp_no upd T s1 info)
                      (process_info ok2 cp_no upd T s2 info).
Proof.
  intros (Ha & Hh & Hn & Hpk). unfold process_info, bind.
  destruct (lots_avail_of info) as [z|]; simpl; [|exact I].
  set (o := {| o_cp_no := cp_no; o_lot_type := li_lot_type info; o_lots_avail := z;
               o_total_lots := total_lots_of info; o_upd := upd; o_seen := T |}).
  destruct (bindable o); [|exact I].
  pose proof (upsert_snapshot_on_conflict ok1 (tx_legacy s1) _ o Hpk) as E1.
  assert (pk_ok (tx_avail s2) = true) as Hpk2 by congruence.
  pose proof (upsert_snapshot_on_conflict ok2 (tx_legacy s2) _ o Hpk2) as E2.
  destruct (upsert_snapshot ok1 (tx_legacy s1) (tx_avail s1) o) as [l1 a1].
  destruct (upsert_snapshot ok2 (tx_legacy s2) (tx_avail s2) o) as [l2 a2].
  simpl in E1, E2. rewrite <- Hh.
  destruct (insert_or_ignore (tx_hist s1) (hist_row_of o)) as [h c].
  simpl. unfold same_tables; simpl. subst a1 a2. rewrite Ha, Hn.
  repeat split. rewrite <- Ha. now apply pk_ok_insert_on_conflict.
Qed.

Lemma process_carpark_same (ok1 ok2 : bool) (T : string) (s1 s2 : txn) (cp : carpark) :
  same_tables s1 s2 ->
  opt_rel same_tables (process_carpark ok1 T s1 cp) (process_carpark ok2 T s2 cp).
Proof.
  intros H. unfold process_carpark. apply for_each_rel; [|assumption].
  intros; now apply process_info_same.
Qed.

(** At the level of the whole cycle: whether ON CONFLICT is available or
    not, and whatever [use_legacy_upsert] was, the cycle rolls back on the
    same payloads and commits the same store. *)
Lemma upsert_same_store (strict ok1 ok2 l1 l2 : bool) (T : string) (db : store)
    (p : payload) :
  pk_ok (carpark_availability db) = true ->
  match upsert strict ok1 l1 T db p, upsert strict ok2 l2 T db p with
  | Committed s1 st1, Committed s2 st2 =>
      s1 = s2 /\ history_inserts st1 = history_inserts st2
      /\ mirror_deleted st1 = mirror_deleted st2
  | RolledBack, RolledBack => True
  | _, _ => False
  end.
Proof.
  intros Hpk. unfold upsert.
  set (i1 := {| tx_legacy := l1; tx_avail := carpark_availability db;
                tx_hist := carpark_availability_history db; tx_history_inserts := 0 |}).
  set (i2 := {| tx_legacy := l2; tx_avail := carpark_availability db;
                tx_hist := carpark_availability_history db; tx_history_inserts := 0 |}).
  assert (same_tables i1 i2) as Hi by (unfold same_tables; simpl; auto).
  pose proof (for_each_rel same_tables (process_carpark ok1 T) (process_carpark ok2 T)
                (fun s1 s2 x H => process_carpark_same ok1 ok2 T s1 s2 x H)
                (carparks_of p) i1 i2 Hi) as H.
  destruct (for_each (process_carpark ok1 T) (carparks_of p) i1) as [s1|],
           (for_each (process_carpark ok2 T) (carparks_of p) i2) as [s2|];
    simpl in H; try contradiction; auto.
  destruct H as (Ha & Hh & Hn & _). rewrite Ha, Hh, Hn.
  destruct strict; simpl; auto.
Qed.

(** C9.  On every snapshot table (satisfying its primary key) and for every
    observation, the read-then-write fallback (UPDATE keeping a non-null
    total_lots, then INSERT when no row was updated) leaves the table exactly
    as the single ON CONFLICT statement does; [upsert_snapshot] returns that
    table on either path, switching to the fallback when ON CONFLICT is not
    parsed; and a whole ingestion cycle without ON CONFLICT support commits
    the same store as one with it, rolling back only when that one does. *)
Theorem legacy_upsert_equivalent (t : avail_table) (o : observation) :
  pk_ok t = true ->
  legacy_upsert t o = insert_on_conflict t (inserted_row o)
  /\ (forall ok legacy,
        snd (upsert_snapshot ok legacy t o) = insert_on_conflict t (inserted_row o))
  /\ upsert_snapshot false false t o = (true, insert_on_conflict t (inserted_row o))
  /\ (forall strict legacy T p info hist view,
        let db := {| carpark_availability := t;
                     carpark_availability_history := hist;
                     carpark_info := info;
                     carpark_availability_join := view |} in
        match upsert strict false legacy T db p, upsert strict true false T db p with
        | Committed s1 _, Committed s2 _ => s1 = s2
        | RolledBack, RolledBack => True
        | _, _ => False
        end).
Proof.
  intros Hpk. repeat split.
  - now apply legacy_upsert_on_conflict.
  - intros. now apply upsert_snapshot_on_conflict.
  - unfold upsert_snapshot. simpl. now rewrite legacy_upsert_on_conflict.
  - intros strict legacy T p info hist view db.
    pose proof (upsert_same_store strict false true legacy false T db p Hpk) as H.
    destruct (upsert strict false legacy T db p), (upsert strict true false T db p);
      auto. now destruct H.
Qed.

Lemma legacy_upsert_equivalent_witness :
  legacy_upsert table0 obs0 = insert_on_conflict table0 (inserted_row obs0).
Proof. exact (proj1 (legacy_upsert_equivalent table0 obs0 eq_refl)). Defined.

(** ** Sequences of upserts to one key *)

Lemma filter_insert_on_conflict (c l : string) (t : avail_table) (new : Avail.row) :
  Avail.carpark_number new = Some c -> Avail.lot_type new = Some l ->
  filter (key_match (Some c) (Some l)) (insert_on_conflict t new)
  = match filter (key_match (Some c) (Some l)) t with
    | [] => [new]
    | r :: rest => do_update_set r new :: rest
    end.
Proof.
  intros Hc Hl. induction t as [|r t IH]; simpl.
  - now rewrite (key_match_some c l new Hc Hl).
  - rewrite Hc, Hl. destruct (key_match (Some c) (Some l) r) eqn:Hm; simpl.
    + now rewrite key_match_do_update, Hm.
    + rewrite Hm. exact IH.
Qed.

Lemma filter_sql_update {R : Type} (w : R -> bool) (set : R -> R) (t : list R) :
  (forall r, w (set r) = w r) ->
  filter w (fst (sql_update w set t)) = map set (filter w t).
Proof.
  intros Hset. unfold sql_update; simpl. induction t as [|r t IH]; simpl; [reflexivity|].
  destruct (w r) eqn:Hw.
  - rewrite Hset, Hw. simpl. now rewrite IH.
  - now rewrite Hw.
Qed.

Lemma filter_legacy_upsert (c l : string) (t : avail_table) (o : observation) :
  to_key c l o ->
  filter (key_match (Some c) (Some l)) (legacy_upsert t o)
  = match filter (key_match (Some c) (Some l)) t with
    | [] => [inserted_row o]
    | r :: rest => map (legacy_set o) (r :: rest)
    end.
Proof.
  intros [Hc Hl]. unfold legacy_upsert. rewrite Hc, Hl.
  pose proof (filter_sql_update (key_match (Some c) (Some l)) (legacy_set o) t
                (fun r => eq_refl)) as E.
  pose proof (update_no_match (key_match (Some c) (Some l)) (legacy_set o) t) as N.
  unfold sql_update in *. simpl in E.
  destruct (filter (key_match (Some c) (Some l)) t) as [|r rest] eqn:F; simpl.
  - rewrite filter_app, E. simpl.
    now rewrite (key_match_some c l (inserted_row o) Hc Hl).
  - exact E.
Qed.

Lemma filter_upsert_snapshot (c l : string) (ok legacy : bool) (t : avail_table)
    (o : observation) :
  to_key c l o ->
  filter (key_match (Some c) (Some l)) (snd (upsert_snapshot ok legacy t o))
  = match filter (key_match (Some c) (Some l)) t with
    | [] => [inserted_row o]
    | [r] => [do_update_set r (inserted_row o)]
    | _ => filter (key_match (Some c) (Some l)) (snd (upsert_snapshot ok legacy t o))
    end.
Proof.
  intros Hk. destruct (filter (key_match (Some c) (Some l)) t) as [|r [|r' rest]] eqn:F;
    try reflexivity.
  - unfold upsert_snapshot. destruct Hk as [Hc Hl].
    destruct legacy, ok; simpl;
      rewrite ?filter_legacy_upsert, ?filter_insert_on_conflict, ?F;
      unfold to_key; auto.
  - unfold upsert_snapshot. destruct Hk as [Hc Hl].
    destruct legacy, ok; simpl;
      rewrite ?filter_legacy_upsert, ?filter_insert_on_conflict, ?F;
      unfold to_key; simpl; auto; now rewrite do_update_set_legacy.
Qed.

Lemma last_cons_default {A : Type} (a d : A) (l : list A) :
  last (a :: l) d = last l a.
Proof.
  revert a d. induction l as [|b l IH]; intros a d; [reflexivity|].
  change (last (a :: b :: l) d) with (last (b :: l) d).
  rewrite (IH b d). symmetry. apply IH.
Qed.

Lemma last_map {A B : Type} (f : A -> B) (l : list A) (d : A) :
  last (map f l) (f d) = f (last l d).
Proof.
  revert d. induction l as [|a l IH]; intros d; [reflexivity|].
  rewrite map_cons, !last_cons_default. apply IH.
Qed.

Lemma row_after_fields (os : list observation) (r : Avail.row) :
  row_after r os
  = let z := last (map inserted_row os) r in
    {| Avail.carpark_number := Avail.carpark_number r;
       Avail.lot_type := Avail.lot_type r;
       Avail.lots_available := Avail.lots_available z;
       Avail.update_datetime := Avail.update_datetime z;
       Avail.last_seen_at := Avail.last_seen_at z;
       Avail.total_lots :=
         coalesce (Avail.total_lots r) (first_non_null (map o_total_lots os)) |}.
Proof.
  revert r. induction os as [|o os IH]; intros r.
  - simpl. destruct r as [? ? ? ? ? tl]; simpl. destruct tl; reflexivity.
  - unfold row_after in *. simpl fold_left. rewrite IH.
    cbv zeta. rewrite map_cons, last_cons_default.
    assert (forall d, last (map inserted_row os) (do_update_set r d)
                      = last (map inserted_row os) (inserted_row o)
                      \/ os = []) as Hl.
    { intros d. destruct os; [now right|left].
      simpl map. now rewrite !last_cons_default. }
    destruct (Hl (inserted_row o)) as [E| ->].
    + rewrite E. simpl. f_equal.
      destruct (Avail.total_lots r), (o_total_lots o); reflexivity.
    + simpl. f_equal.
      destruct (Avail.total_lots r), (o_total_lots o); reflexivity.
Qed.

Lemma upsert_all_one_row (c l : string) (ok : bool) (os : list observation) :
  Forall (to_key c l) os ->
  forall legacy t r,
    filter (key_match (Some c) (Some l)) t = [r] ->
    filter (key_match (Some c) (Some l)) (snd (upsert_all ok legacy t os))
    = [row_after r os].
Proof.
  induction 1 as [|o os Ho Hos IH]; intros legacy t r F; simpl.
  - exact F.
  - pose proof (filter_upsert_snapshot c l ok legacy t o Ho) as E. rewrite F in E.
    destruct (upsert_snapshot ok legacy t o) as [lg t']. simpl in E.
    now apply IH.
Qed.

(** C3.  For every non-empty sequence of upserts to one key
    [(carpark_number, lot_type)] whose row is absent at the start, on either
    upsert path: the table then holds exactly one row for the key, whose
    total_lots is the first non-null total_lots of the sequence (null when
    none was supplied) and whose lots_available, update_datetime and
    last_seen_at are those of the last upsert. *)
Theorem upsert_sequence_fill_once (c l : string) (ok legacy : bool)
    (t : avail_table) (o : observation) (os : list observation) :
  Forall (to_key c l) (o :: os) ->
  filter (key_match (Some c) (Some l)) t = [] ->
  filter (key_match (Some c) (Some l)) (snd (upsert_all ok legacy t (o :: os)))
  = [ {| Avail.carpark_number := Some c;
         Avail.lot_type := Some l;
         Avail.lots_available := o_lots_avail (last os o);
         Avail.update_datetime := o_upd (last os o);
         Avail.last_seen_at := o_seen (last os o);
         Avail.total_lots := first_non_null (map o_total_lots (o :: os)) |} ].
Proof.
  intros Hk F. inversion Hk as [|? ? Ho Hos]; subst.
  simpl upsert_all.
  pose proof (filter_upsert_snapshot c l ok legacy t o Ho) as E. rewrite F in E.
  destruct (upsert_snapshot ok legacy t o) as [lg t']. simpl in E.
  rewrite (upsert_all_one_row c l ok os Hos lg t' (inserted_row o) E).
  rewrite row_after_fields. cbv zeta. destruct Ho as [Hc Hl]. f_equal.
  rewrite last_map. simpl. rewrite Hc, Hl.
  destruct (o_total_lots o); reflexivity.
Qed.

Lemma upsert_sequence_fill_once_witness :
  filter (key_match (Some "HLM") (Some "C"))
    (snd (upsert_all false false table0
            [obs_hlm 5 None "2025-01-01T01:05:05Z";
             obs_hlm 6 (Some 50) "2025-01-01T01:10:05Z";
             obs_hlm 7 (Some 60) "2025-01-01T01:15:05Z";
             obs_hlm 8 None "2025-01-01T01:20:05Z"]))
  = [ {| Avail.carpark_number := Some "HLM"; Avail.lot_type := Some "C";
         Avail.lots_available := 8;
         Avail.update_datetime := Some "2025-01-01T09:05:00";
         Avail.last_seen_at := "2025-01-01T01:20:05Z";
         Avail.total_lots := Some 50 |} ].
Proof.
  apply (upsert_sequence_fill_once "HLM" "C" false false table0
           (obs_hlm 5 None "2025-01-01T01:05:05Z")
           [obs_hlm 6 (Some 50) "2025-01-01T01:10:05Z";
            obs_hlm 7 (Some 60) "2025-01-01T01:15:05Z";
            obs_hlm 8 None "2025-01-01T01:20:05Z"]).
  - repeat constructor.
  - reflexivity.
Defined.

(** ** Pricing *)

Ltac bool_lia :=
  repeat match goal with
         | |- context [?a <=? ?b] => destruct (Z.leb_spec a b)
         | |- context [?a <? ?b] => destruct (Z.ltb_spec a b)
         | |- context [?a >? ?b] => rewrite (Z.gtb_ltb a b)
         | |- context [?a >=? ?b] => rewrite (Z.geb_leb a b)
         | |- context [?a =? ?b] => destruct (Z.eqb_spec a b)
         end;
  cbn [orb andb negb]; try reflexivity; try (exfalso; lia).

Lemma in_night_spec (now : civil_time) :
  valid_time now -> in_night now = spec_in_night_window now.
Proof.
  intros (_ & Hh & Hm). unfold in_night, spec_in_night_window, minute_of_day.
  destruct now as [w h m]; cbn [wk hh mm] in *. bool_lia.
Qed.

Lemma in_day_spec (now : civil_time) :
  valid_time now -> in_day now = spec_in_day_window now.
Proof.
  intros (_ & Hh & Hm). unfold in_day, spec_in_day_window, minute_of_day.
  destruct now as [w h m]; cbn [wk hh mm] in *. bool_lia.
Qed.

Lemma current_rate_spec (now : civil_time) (central : bool) :
  valid_time now -> current_rate_of now central = spec_rate now central.
Proof.
  intros (Hw & _ & _). unfold current_rate_of, spec_rate, spec_mon_to_sat.
  destruct now as [w h m]; cbn [wk hh mm existsb] in *.
  assert ((w <=? 5) = ((w =? 0) || ((w =? 1) || ((w =? 2) || ((w =? 3)
                        || ((w =? 4) || ((w =? 5) || false))))))) as ->;
    [|reflexivity].
  bool_lia.
Qed.

Lemma cap_spec (now : civil_time) (central nps : bool) :
  valid_time now -> cap_of now central nps = spec_cap now central nps.
Proof.
  intros H. unfold cap_of, spec_cap. now rewrite in_night_spec, in_day_spec.
Qed.

Lemma map_if_false {R : Type} (w : R -> bool) (set : R -> R) (t : list R) :
  (forall r, In r t -> w r = false) ->
  map (fun r => if w r then set r else r) t = t.
Proof.
  intros H. exact (f_equal fst (update_no_match w set t H)).
Qed.

(** An UPDATE selecting on a unique key rewrites the one row that has it. *)
Lemma update_unique (set : Info.row -> Info.row) (a b : info_table) (r : Info.row) :
  NoDup (map Info.carpark_number (a ++ r :: b)) ->
  fst (sql_update (fun x => String.eqb (Info.carpark_number x) (Info.carpark_number r))
         set (a ++ r :: b))
  = a ++ set r :: b.
Proof.
  intros Hnd. unfold sql_update; simpl. rewrite map_app; simpl.
  rewrite String.eqb_refl.
  rewrite map_app in Hnd; simpl in Hnd.
  pose proof (NoDup_remove_2 _ _ _ Hnd) as Hnot.
  rewrite !map_if_false; [reflexivity| |].
  - intros x Hx. apply String.eqb_neq. intros E. apply Hnot.
    apply in_or_app. right. rewrite <- E. now apply in_map.
  - intros x Hx. apply String.eqb_neq. intros E. apply Hnot.
    apply in_or_app. left. rewrite <- E. now apply in_map.
Qed.

Lemma refresh_loop_done (now : civil_time) (stamp : nat -> string)
    (post : info_table) :
  forall (pre : info_table) (i : nat),
    NoDup (map Info.carpark_number (pre ++ post)) ->
    refresh_loop now stamp i (map selected post) (pre ++ post)
    = pre ++ mapi_from i (code_priced now stamp) post.
Proof.
  induction post as [|r post IH]; intros pre i Hnd.
  - reflexivity.
  - simpl map. unfold selected at 1. cbn [refresh_loop].
    rewrite update_unique by assumption.
    fold (code_priced now stamp i r).
    change (pre ++ code_priced now stamp i r :: post)
      with (pre ++ [code_priced now stamp i r] ++ post).
    rewrite app_assoc, IH.
    + now rewrite <- app_assoc.
    + rewrite <- app_assoc. simpl.
      rewrite map_app in *. simpl in *. exact Hnd.
Qed.

Lemma mapi_from_ext {A B : Type} (f g : nat -> A -> B) (l : list A) :
  (forall i a, f i a = g i a) -> forall i, mapi_from i f l = mapi_from i g l.
Proof.
  intros H. induction l as [|a l IH]; intros i; simpl; [reflexivity|].
  now rewrite H, IH.
Qed.

Lemma nth_error_mapi_from {A B : Type} (f : nat -> A -> B) (l : list A) :
  forall i n,
    nth_error (mapi_from i f l) n = option_map (f (i + n)%nat) (nth_error l n).
Proof.
  induction l as [|a l IH]; intros i n.
  - destruct n; reflexivity.
  - destruct n as [|n]; simpl.
    + now rewrite Nat.add_0_r.
    + rewrite IH. now rewrite Nat.add_succ_r.
Qed.

(** C4.  At every civil time and on every metadata table (with its primary
    key), the time-window pass keeps the rows in place and writes on each
    facility the rate 1.2 when it is central, the day is Monday to Saturday
    and 7 <= hour < 17, else 0.6, and the cap (NPS_NIGHT_CAP, 5.0) when it
    has night service and the time is in 22:30-07:00, else (DAY_CAP, 20.0 if
    central else 12.0) when the time is in 07:00-22:30, else no cap; it
    stamps rate_updated_at and leaves the other columns alone.  The central
    night-service facility gets rate 1.2 and cap (DAY_CAP, 20.0) on
    Wednesday 10:00, and rate 0.6 and cap (NPS_NIGHT_CAP, 5.0) on Wednesday
    23:00. *)
Theorem refresh_rates_match_spec (now : civil_time) (stamp : nat -> string)
    (t : info_table) :
  valid_time now ->
  NoDup (map Info.carpark_number t) ->
  List.length (refresh_time_dependent_rates now stamp t) = List.length t
  /\ (forall i r,
         nth_error t i = Some r ->
         exists r',
           nth_error (refresh_time_dependent_rates now stamp t) i = Some r'
           /\ Info.current_rate_30min r'
              = Some (spec_rate now (truthy (Info.is_central r)))
           /\ (Info.active_cap_type r', Info.active_cap_amount r')
              = spec_cap now (truthy (Info.is_central r))
                  (nps_of (night_parking (Info.attrs r)))
           /\ Info.rate_updated_at r' = Some (stamp i)
           /\ Info.carpark_number r' = Info.carpark_number r
           /\ Info.attrs r' = Info.attrs r
           /\ Info.updated_at r' = Info.updated_at r
           /\ Info.is_central r' = Info.is_central r
           /\ Info.carpark_rate r' = Info.carpark_rate r)
  /\ map (fun r => (Info.current_rate_30min r, Info.active_cap_type r,
                    Info.active_cap_amount r))
       (refresh_time_dependent_rates (wednesday 10 0) stamp [facility0])
     = [(Some 1.2%float, Some "DAY_CAP", Some 20.0%float)]
  /\ map (fun r => (Info.current_rate_30min r, Info.active_cap_type r,
                    Info.active_cap_amount r))
       (refresh_time_dependent_rates (wednesday 23 0) stamp [facility0])
     = [(Some 0.6%float, Some "NPS_NIGHT_CAP", Some 5.0%float)].
Proof.
  intros Hv Hnd.
  assert (refresh_time_dependent_rates now stamp t
          = mapi_from 0 (code_priced now stamp) t) as E.
  { unfold refresh_time_dependent_rates.
    change (map _ t) with (map selected t).
    change (refresh_loop now stamp 0 (map selected t) t)
      with (refresh_loop now stamp 0 (map selected t) ([] ++ t)).
    now rewrite (refresh_loop_done now stamp t [] 0 Hnd). }
  split; [|split; [|split; reflexivity]].
  - rewrite E. clear. generalize 0%nat. induction t as [|r t IH]; intros i; [reflexivity|].
    simpl. f_equal. apply IH.
  - intros i r Hr. exists (code_priced now stamp i r). rewrite E.
    rewrite nth_error_mapi_from, Hr. split; [reflexivity|].
    unfold code_priced, set_pricing.
    cbn [Info.current_rate_30min Info.active_cap_type Info.active_cap_amount
         Info.rate_updated_at Info.carpark_number Info.attrs Info.updated_at
         Info.is_central Info.carpark_rate].
    rewrite (current_rate_spec now _ Hv), <- (cap_spec now _ _ Hv).
    repeat split. now destruct (cap_of now _ _).
Qed.

Lemma refresh_rates_match_spec_witness :
  exists r',
    nth_error
      (refresh_time_dependent_rates (wednesday 17 0) (fun _ => "2025-01-01T09:00:00Z")
         [facility0]) 0
    = Some r'
    /\ Info.current_rate_30min r' = Some 0.6%float
    /\ (Info.active_cap_type r', Info.active_cap_amount r')
       = (Some "DAY_CAP", Some 20.0%float).
Proof.
  destruct (proj1 (proj2 (refresh_rates_match_spec (wednesday 17 0)
                            (fun _ => "2025-01-01T09:00:00Z") [facility0]
                            ltac:(unfold valid_time; simpl; lia)
                            ltac:(repeat constructor; simpl; tauto)))
              0%nat facility0 eq_refl)
    as (r' & H1 & H2 & H3 & _).
  exists r'. split; [exact H1|]. split; [exact H2|exact H3].
Defined.

(** ** The carry-forward cache *)

Lemma text_eqb_eq (a b : option string) : text_eqb a b = true <-> a = b.
Proof.
  destruct a as [x|], b as [y|]; simpl; split; try discriminate; auto.
  - intros H. apply String.eqb_eq in H. now subst.
  - intros H. inversion H. apply String.eqb_refl.
Qed.

Lemma text_eqb_refl (a : option string) : text_eqb a a = true.
Proof. now apply text_eqb_eq. Qed.

Lemma group_keys_in (k : option string) (l : list (option string)) :
  In k (group_keys l) <-> In k l.
Proof.
  induction l as [|a l IH]; simpl; [tauto|].
  destruct (existsb (text_eqb a) l) eqn:E.
  - rewrite IH. split; auto. intros [<-|H]; auto.
    apply existsb_exists in E. destruct E as (x & Hx & Hax).
    apply text_eqb_eq in Hax. now subst.
  - simpl. now rewrite IH.
Qed.

(** Looking a non-null key up in a cache built with one entry per group. *)
Lemma find_grouped (F : option string -> option string) (k : string)
    (ks : list (option string)) :
  cache_lookup (map (fun k' => (k', F k')) ks) (Some k)
  = if existsb (text_eqb (Some k)) ks then F (Some k) else None.
Proof.
  unfold cache_lookup. induction ks as [|a ks IH]; simpl; [reflexivity|].
  destruct a as [x|]; simpl.
  - rewrite (String.eqb_sym x k). destruct (String.eqb k x) eqn:E; simpl.
    + apply String.eqb_eq in E. now subst.
    + exact IH.
  - exact IH.
Qed.

Lemma cache_lookup_null (c : list (option string * option string)) :
  cache_lookup c None = None.
Proof.
  unfold cache_lookup. induction c as [|[a b] c IH]; simpl; [reflexivity|].
  destruct a; simpl; exact IH.
Qed.

Lemma cache_lookup_ev_cache (v : join_table) (k : string) :
  cache_lookup (ev_cache v) (Some k) = agg_max (evs_of v (Some k)).
Proof.
  unfold ev_cache.
  rewrite (find_grouped (fun k' => agg_max (evs_of v k')) k).
  destruct (existsb (text_eqb (Some k)) (group_keys (map Join.carpark_number v))) eqn:E;
    [reflexivity|].
  unfold evs_of.
  assert (filter (fun r => text_eqb (Join.carpark_number r) (Some k)) v = []) as ->;
    [|reflexivity].
  assert (forall r, In r v -> Join.carpark_number r <> Some k) as Hno.
  { intros r Hr Hk.
    pose proof (proj1 (existsb_false_forall _ _) E (Some k)) as E'.
    rewrite text_eqb_refl in E'. 
    assert (true = false) by (apply E', group_keys_in; rewrite <- Hk; now apply in_map).
    discriminate. }
  clear E. induction v as [|r v IH]; [reflexivity|]. simpl.
  destruct (text_eqb (Join.carpark_number r) (Some k)) eqn:Hr.
  - apply text_eqb_eq in Hr. exfalso. apply (Hno r); simpl; auto.
  - apply IH. intros x Hx. apply Hno. simpl; auto.
Qed.

Lemma max_text_some_l (x : string) (b : option string) :
  exists m, max_text (Some x) b = Some m.
Proof. destruct b as [y|]; simpl; [destruct (String.ltb x y)|]; eauto. Qed.

Lemma fold_max_some (l : list (option string)) (x : string) :
  exists m, fold_left max_text l (Some x) = Some m.
Proof.
  revert x. induction l as [|a l IH]; intros x; cbn [fold_left]; [eauto|].
  destruct (max_text_some_l x a) as (m & ->). apply IH.
Qed.

Lemma agg_max_some (l : list (option string)) (e : string) :
  In (Some e) l -> exists m, agg_max l = Some m.
Proof.
  unfold agg_max. generalize (@None string) as acc.
  induction l as [|a l IH]; intros acc H; [contradiction|]. simpl.
  destruct H as [->|H]; [|now apply IH].
  destruct acc as [x|]; simpl.
  - destruct (String.ltb x e); apply fold_max_some.
  - apply fold_max_some.
Qed.

Lemma ltb_irrefl (x : string) : String.ltb x x = false.
Proof.
  unfold String.ltb. pose proof (String.compare_antisym x x) as H.
  destruct (String.compare x x); simpl in H; try discriminate; reflexivity.
Qed.

Lemma fold_max_same (n : nat) (e : option string) :
  fold_left max_text (repeat e n) e = e.
Proof.
  induction n as [|n IH]; simpl; [reflexivity|].
  assert (max_text e e = e) as ->; [|exact IH].
  destruct e as [x|]; simpl; [now rewrite ltb_irrefl|reflexivity].
Qed.

(** [MAX] over a group whose rows all hold the same value is that value. *)
Lemma agg_max_const (l : list (option string)) (e : option string) :
  l <> [] -> (forall x, In x l -> x = e) -> agg_max l = e.
Proof.
  intros Hne Hall.
  assert (l = repeat e (List.length l)) as E.
  { clear Hne. induction l as [|a l IH]; [reflexivity|]. simpl.
    rewrite (Hall a) by (simpl; auto). f_equal. apply IH.
    intros; apply Hall; simpl; auto. }
  rewrite E. destruct l as [|a l]; [congruence|].
  unfold agg_max. cbn [List.length repeat fold_left].
  change (max_text None e) with e. apply fold_max_same.
Qed.

(** ** The rebuilt view *)

(** Every row of the rebuilt view carries the cached annotation of its
    facility: the greatest non-null annotation the facility had before. *)
Lemma rebuild_view_ev (avail : avail_table) (info : info_table) (v : join_table)
    (r : Join.row) :
  In r (rebuild_view avail info v) ->
  Join.ev_lot_location r
  = match Join.carpark_number r with
    | Some k => agg_max (evs_of v (Some k))
    | None => None
    end.
Proof.
  unfold rebuild_view. intros H. apply in_map_iff in H. destruct H as (j & <- & Hj).
  apply in_map_iff in Hj. destruct Hj as ([a i] & <- & _).
  unfold restore_ev. simpl.
  destruct (Avail.carpark_number a) as [k|].
  - rewrite cache_lookup_ev_cache. now destruct (agg_max (evs_of v (Some k))).
  - now rewrite cache_lookup_null.
Qed.

Lemma left_join_covers {A B : Type} (on : A -> B -> bool) (l : list A) (r : list B)
    (a : A) :
  In a l -> exists b, In (a, b) (left_join on l r).
Proof.
  intros H. unfold left_join.
  destruct (filter (on a) r) as [|b ms] eqn:F.
  - exists None. apply in_flat_map. exists a. split; [assumption|]. rewrite F. now left.
  - exists (Some b). apply in_flat_map. exists a. split; [assumption|]. rewrite F. now left.
Qed.

Lemma inserted_ev_null (avail : avail_table) (info : info_table) (j : Join.row) :
  In j (map priced_join_row (left_join join_on avail info)) ->
  Join.ev_lot_location j = None.
Proof.
  intros H. apply in_map_iff in H. destruct H as ([a i] & <- & _). reflexivity.
Qed.

Lemma evs_of_in (v : join_table) (k : option string) (x : option string) :
  In x (evs_of v k) <->
  exists r, In r v /\ Join.carpark_number r = k /\ Join.ev_lot_location r = x.
Proof.
  unfold evs_of. rewrite in_map_iff. split.
  - intros (r & Hx & Hr). apply filter_In in Hr. destruct Hr as [Hr Hk].
    apply text_eqb_eq in Hk. eauto.
  - intros (r & Hr & Hk & Hx). exists r. split; [assumption|].
    apply filter_In. split; [assumption|]. now apply text_eqb_eq.
Qed.

Lemma rebuild_view_idempotent (avail : avail_table) (info : info_table)
    (v : join_table) :
  rebuild_view avail info (rebuild_view avail info v) = rebuild_view avail info v.
Proof.
  set (v1 := rebuild_view avail info v).
  unfold rebuild_view at 1. unfold v1 at 2. unfold rebuild_view.
  apply map_ext_in. intros j Hj.
  unfold restore_ev. rewrite (inserted_ev_null avail info j Hj). f_equal. f_equal.
  destruct (Join.carpark_number j) as [k|] eqn:Hk; [|now rewrite !cache_lookup_null].
  rewrite !cache_lookup_ev_cache.
  assert (In (restore_ev (ev_cache v) j) v1) as Hin.
  { unfold v1, rebuild_view. now apply in_map. }
  apply agg_max_const.
  - intros E.
    assert (In (Join.ev_lot_location (restore_ev (ev_cache v) j)) (evs_of v1 (Some k))) as H.
    { apply evs_of_in. exists (restore_ev (ev_cache v) j). auto. }
    rewrite E in H. contradiction.
  - intros x Hx. apply evs_of_in in Hx. destruct Hx as (r & Hr & Hrk & <-).
    rewrite (rebuild_view_ev avail info v r Hr), Hrk. reflexivity.
Qed.

(** C7.  On every store, running the join materialiser's rebuild a second
    time, with the snapshot, metadata and view tables untouched in between,
    leaves the store, and so the view with its carried-forward
    ev_lot_location values, exactly as the first run left it. *)
Theorem rebuild_join_snapshot_idempotent (db : store) :
  rebuild_join_snapshot (rebuild_join_snapshot db) = rebuild_join_snapshot db.
Proof.
  unfold rebuild_join_snapshot. simpl. now rewrite rebuild_view_idempotent.
Qed.

(** ** Annotations across a rebuild *)

(** C1, refuted as stated: the rebuild of the availability and pricing
    drivers leaves the evicted facility HLM, annotated before, with no
    annotation at all. *)
Lemma rebuild_loses_annotation_of_evicted :
  ~ annotation_kept (carpark_availability_join evicted_store)
      (carpark_availability_join (rebuild_join_snapshot evicted_store)).
Proof.
  intros H. destruct (H "HLM") as (r & Hr & Hk & _).
  - exists (view_row "HLM" "C" (Some "Deck 3A")). simpl. repeat split; auto.
    discriminate.
  - simpl in Hr. destruct Hr as [<-|[<-|[]]]; discriminate.
Qed.

(** The rebuild of the metadata driver resets every annotation: here ACB,
    present in the snapshot table and annotated before, has none after. *)
Lemma rebuild_join_table_drops_annotation :
  ~ annotation_kept (carpark_availability_join evicted_store)
      (carpark_availability_join (fst (rebuild_join_table evicted_store))).
Proof.
  intros H. destruct (H "ACB") as (r & Hr & _ & He).
  - exists (view_row "ACB" "C" (Some "Level 2")). simpl. repeat split; auto.
    discriminate.
  - simpl in Hr. destruct Hr as [<-|[<-|[]]]; now apply He.
Qed.

(** C1, amended.  Across [rebuild_join_snapshot], a facility that had some
    non-null annotation in the view and has a row in the snapshot table
    still has one: each of its view rows carries the greatest non-null
    annotation the facility had before. *)
Theorem rebuild_join_snapshot_keeps_annotation (db : store) (k : string) :
  has_annotation (carpark_availability_join db) k ->
  (exists a, In a (carpark_availability db) /\ Avail.carpark_number a = Some k) ->
  has_annotation (carpark_availability_join (rebuild_join_snapshot db)) k
  /\ exists e,
       agg_max (evs_of (carpark_availability_join db) (Some k)) = Some e
       /\ forall r, In r (carpark_availability_join (rebuild_join_snapshot db)) ->
                    Join.carpark_number r = Some k ->
                    Join.ev_lot_location r = Some e.
Proof.
  intros (r0 & Hr0 & Hk0 & He0) (a & Ha & Hak).
  destruct (Join.ev_lot_location r0) as [e0|] eqn:E0; [|congruence].
  destruct (agg_max_some (evs_of (carpark_availability_join db) (Some k)) e0)
    as (e & He).
  { apply evs_of_in. eauto. }
  assert (forall r, In r (carpark_availability_join (rebuild_join_snapshot db)) ->
                    Join.carpark_number r = Some k ->
                    Join.ev_lot_location r = Some e) as Hall.
  { intros r Hr Hk. simpl in Hr.
    rewrite (rebuild_view_ev _ _ _ r Hr), Hk. exact He. }
  split; [|eauto].
  destruct (left_join_covers join_on (carpark_availability db) (carpark_info db) a Ha)
    as (i & Hi).
  set (r := restore_ev (ev_cache (carpark_availability_join db)) (priced_join_row (a, i))).
  assert (In r (carpark_availability_join (rebuild_join_snapshot db))) as Hr.
  { simpl. unfold rebuild_view. apply in_map. now apply in_map. }
  exists r. repeat split; auto.
  rewrite (Hall r Hr Hak). discriminate.
Qed.

Lemma rebuild_join_snapshot_keeps_annotation_witness :
  has_annotation (carpark_availability_join (rebuild_join_snapshot kept_store)) "ACB".
Proof.
  refine (proj1 (rebuild_join_snapshot_keeps_annotation kept_store "ACB" _ _)).
  - exists (view_row "ACB" "C" (Some "Level 2")). simpl. repeat split; auto.
    discriminate.
  - eexists. split; [left; reflexivity|reflexivity].
Defined.

(** ** Pricing fields across a metadata reload *)

(** C2, refuted as stated: reloading the metadata of the priced facility
    ACB commits a row whose pricing fields are no longer those it had. *)
Lemma reload_clears_pricing :
  exists db' n,
    load_info_into_sqlite "2025-01-02T00:00:00Z" priced_store [record0]
    = Committed db' n
    /\ ~ pricing_unchanged (carpark_info priced_store) (carpark_info db').
Proof.
  eexists. eexists. split; [reflexivity|].
  intros H. simpl in H.
  specialize (H _ _ (or_introl eq_refl) (or_introl eq_refl) eq_refl).
  discriminate.
Qed.

Lemma load_loop_no_pricing (now : string) (records : list record_obj) :
  forall t rows t' rows',
    (forall r, In r t -> pricing_of r = no_pricing) ->
    load_loop now records t rows = Some (t', rows') ->
    forall r, In r t' -> pricing_of r = no_pricing.
Proof.
  induction records as [|rec records IH]; intros t rows t' rows' Ht H; simpl in H.
  - now inversion H; subst.
  - destruct (String.eqb (record_key rec) EmptyString); [eapply IH; eauto|].
    destruct (existsb _ t); [discriminate|].
    eapply IH; [|exact H].
    intros r Hr. apply in_app_or in Hr. destruct Hr as [Hr|[<-|[]]]; auto.
Qed.

Lemma load_info_committed (now : string) (db db' : store)
    (records : list record_obj) (n : Z) :
  load_info_into_sqlite now db records = Committed db' n ->
  exists t, load_loop now records [] 0 = Some (t, n) /\ db' = with_info db t.
Proof.
  unfold load_info_into_sqlite. intros H.
  destruct (load_loop now records [] 0) as [[t rows]|]; [|discriminate].
  inversion H; subst. now exists t.
Qed.

(** C2, amended.  The metadata full replace does not keep the pricing
    fields: once it commits, every row of [carpark_info] has is_central,
    carpark_rate, current_rate_30min, active_cap_type, active_cap_amount and
    rate_updated_at NULL, whatever they were before, and the other three
    tables are as they were. *)
Theorem load_info_resets_pricing (now : string) (db db' : store)
    (records : list record_obj) (n : Z) :
  load_info_into_sqlite now db records = Committed db' n ->
  (forall r, In r (carpark_info db') -> pricing_of r = no_pricing)
  /\ carpark_availability db' = carpark_availability db
  /\ carpark_availability_history db' = carpark_availability_history db
  /\ carpark_availability_join db' = carpark_availability_join db.
Proof.
  intros H. apply load_info_committed in H. destruct H as (t & E & ->).
  simpl. repeat split.
  eapply load_loop_no_pricing; [|exact E]. intros r [].
Qed.

Lemma load_info_resets_pricing_witness :
  pricing_of (info_row_of "2025-01-02T00:00:00Z" record0) = no_pricing.
Proof.
  exact (proj1 (load_info_resets_pricing "2025-01-02T00:00:00Z" priced_store
                  (with_info priced_store [info_row_of "2025-01-02T00:00:00Z" record0])
                  [record0] 1 eq_refl)
           _ (or_introl eq_refl)).
Defined.

(** ** Rows of the snapshot table across one upsert *)

Lemma insert_on_conflict_rows (t : avail_table) (o : observation) (r' : Avail.row) :
  In r' (insert_on_conflict t (inserted_row o)) ->
  In r' t \/ seen_at (o_seen o) (obs_key o) r'.
Proof.
  induction t as [|r t IH]; simpl.
  - intros [<-|[]]. right. split; reflexivity.
  - destruct (key_match (o_cp_no o) (o_lot_type o) r) eqn:Hm; simpl.
    + intros [<-|H]; auto. right. apply key_match_true in Hm. destruct Hm as [Hc Hl].
      split; [unfold row_key, obs_key; simpl; congruence|reflexivity].
    + intros [<-|H]; auto. destruct (IH H); auto.
Qed.

Lemma legacy_upsert_rows (t : avail_table) (o : observation) (r' : Avail.row) :
  In r' (legacy_upsert t o) ->
  In r' t \/ seen_at (o_seen o) (obs_key o) r'.
Proof.
  unfold legacy_upsert, sql_update.
  assert (In r' (map (fun r => if key_match (o_cp_no o) (o_lot_type o) r
                               then legacy_set o r else r) t) ->
          In r' t \/ seen_at (o_seen o) (obs_key o) r') as Hmap.
  { intros H. apply in_map_iff in H. destruct H as (r & <- & Hr).
    destruct (key_match (o_cp_no o) (o_lot_type o) r) eqn:Hm; auto.
    right. apply key_match_true in Hm. destruct Hm as [Hc Hl].
    split; [unfold row_key, obs_key; simpl; congruence|reflexivity]. }
  destruct (Nat.eqb _ 0); auto.
  intros H. apply in_app_or in H. destruct H as [H|[<-|[]]]; auto.
  right. split; reflexivity.
Qed.

Lemma upsert_snapshot_rows (ok legacy : bool) (t : avail_table) (o : observation)
    (r' : Avail.row) :
  In r' (snd (upsert_snapshot ok legacy t o)) ->
  In r' t \/ seen_at (o_seen o) (obs_key o) r'.
Proof.
  unfold upsert_snapshot.
  destruct legacy, ok; simpl; auto using insert_on_conflict_rows, legacy_upsert_rows.
Qed.

Lemma insert_on_conflict_has (t : avail_table) (o : observation) :
  exists r', In r' (insert_on_conflict t (inserted_row o))
             /\ seen_at (o_seen o) (obs_key o) r'.
Proof.
  induction t as [|r t IH]; simpl.
  - exists (inserted_row o). split; [now left|split; reflexivity].
  - destruct (key_match (o_cp_no o) (o_lot_type o) r) eqn:Hm.
    + exists (do_update_set r (inserted_row o)). split; [now left|].
      apply key_match_true in Hm. destruct Hm as [Hc Hl].
      split; [unfold row_key, obs_key; simpl; congruence|reflexivity].
    + destruct IH as (r' & Hin & Hs). exists r'. split; [now right|assumption].
Qed.

Lemma legacy_upsert_has (t : avail_table) (o : observation) :
  exists r', In r' (legacy_upsert t o) /\ seen_at (o_seen o) (obs_key o) r'.
Proof.
  unfold legacy_upsert, sql_update.
  destruct (filter (key_match (o_cp_no o) (o_lot_type o)) t) as [|r rest] eqn:F; simpl.
  - exists (inserted_row o). split; [|split; reflexivity].
    apply in_or_app. right. now left.
  - assert (In r (filter (key_match (o_cp_no o) (o_lot_type o)) t)) as Hr
        by (rewrite F; now left).
    apply filter_In in Hr. destruct Hr as [Hr Hm].
    exists (legacy_set o r). split.
    + apply in_map_iff. exists r. now rewrite Hm.
    + apply key_match_true in Hm. destruct Hm as [Hc Hl].
      split; [unfold row_key, obs_key; simpl; congruence|reflexivity].
Qed.

Lemma upsert_snapshot_has (ok legacy : bool) (t : avail_table) (o : observation) :
  exists r', In r' (snd (upsert_snapshot ok legacy t o))
             /\ seen_at (o_seen o) (obs_key o) r'.
Proof.
  unfold upsert_snapshot.
  destruct legacy, ok; simpl; auto using insert_on_conflict_has, legacy_upsert_has.
Qed.

(** A row seen at [T] is still there, seen at [T], after an upsert made at
    [T]. *)
Lemma insert_on_conflict_keeps (t : avail_table) (o : observation)
    (k : option string * option string) (r : Avail.row) :
  In r t -> seen_at (o_seen o) k r ->
  exists r', In r' (insert_on_conflict t (inserted_row o)) /\ seen_at (o_seen o) k r'.
Proof.
  intros Hin [Hk Hs]. induction t as [|a t IH]; [contradiction|]. simpl.
  destruct (key_match (o_cp_no o) (o_lot_type o) a) eqn:Hm.
  - destruct Hin as [->|Hin].
    + exists (do_update_set r (inserted_row o)). split; [now left|].
      split; [exact Hk|reflexivity].
    + exists r. split; [now right|split; assumption].
  - destruct Hin as [->|Hin].
    + exists r. split; [now left|split; assumption].
    + destruct (IH Hin) as (r' & H1 & H2). exists r'. split; [now right|assumption].
Qed.

Lemma legacy_upsert_keeps (t : avail_table) (o : observation)
    (k : option string * option string) (r : Avail.row) :
  In r t -> seen_at (o_seen o) k r ->
  exists r', In r' (legacy_upsert t o) /\ seen_at (o_seen o) k r'.
Proof.
  intros Hin [Hk Hs]. unfold legacy_upsert, sql_update.
  exists (if key_match (o_cp_no o) (o_lot_type o) r then legacy_set o r else r).
  split.
  - assert (In (if key_match (o_cp_no o) (o_lot_type o) r then legacy_set o r else r)
              (map (fun r => if key_match (o_cp_no o) (o_lot_type o) r
                             then legacy_set o r else r) t)) as H
        by (apply in_map_iff; eauto).
    destruct (Nat.eqb _ 0); [apply in_or_app; now left|assumption].
  - destruct (key_match (o_cp_no o) (o_lot_type o) r); split; auto.
Qed.

Lemma upsert_snapshot_keeps (ok legacy : bool) (t : avail_table) (o : observation)
    (k : option string * option string) (r : Avail.row) :
  In r t -> seen_at (o_seen o) k r ->
  exists r', In r' (snd (upsert_snapshot ok legacy t o)) /\ seen_at (o_seen o) k r'.
Proof.
  intros Hin Hs. unfold upsert_snapshot.
  destruct legacy, ok; simpl;
    first [now apply insert_on_conflict_keeps with (r := r)
          |now apply legacy_upsert_keeps with (r := r)].
Qed.

(** ** The ingestion loop *)

Lemma for_each_inv_in {S X : Type} (P : S -> Prop) (body : S -> X -> option S)
    (xs : list X) :
  (forall s x s', In x xs -> P s -> body s x = Some s' -> P s') ->
  forall s s', P s -> for_each body xs s = Some s' -> P s'.
Proof.
  induction xs as [|x xs IH]; intros Hbody s s' HP H; simpl in H.
  - now inversion H; subst.
  - unfold bind in H. destruct (body s x) as [s1|] eqn:E; [|discriminate].
    eapply IH; [|eapply Hbody; eauto; now left|exact H].
    intros; eapply Hbody; eauto. now right.
Qed.

(** A loop whose body establishes [Q x] for its element [x] and never
    breaks an established [Q y] has established [Q] for every element. *)
Lemma for_each_establish {S X : Type} (Q : X -> S -> Prop)
    (body : S -> X -> option S) :
  (forall s x s', body s x = Some s' -> Q x s') ->
  (forall s x y s', Q y s -> body s x = Some s' -> Q y s') ->
  forall xs s s', for_each body xs s = Some s' -> forall x, In x xs -> Q x s'.
Proof.
  intros Hest Hpres xs. induction xs as [|a xs IH]; intros s s' H x Hx.
  - contradiction.
  - simpl in H. unfold bind in H. destruct (body s a) as [s1|] eqn:E; [|discriminate].
    destruct Hx as [->|Hx].
    + eapply (for_each_inv (Q x) body); [|eapply Hest; exact E|exact H].
      intros; eapply Hpres; eauto.
    + eapply IH; eauto.
Qed.

(** One ingestion cycle: the lemmas share the ON CONFLICT capability [ok]
    and the clock reading [T] of the cycle. *)
Section Cycle.

Variable ok : bool.
Variable T : string.

Lemma process_info_some (cp_no upd : option string) (s s' : txn)
    (info : lot_info) :
  process_info ok cp_no upd T s info = Some s' ->
  exists z,
    lots_avail_of info = Some z
    /\ tx_avail s'
       = snd (upsert_snapshot ok (tx_legacy s) (tx_avail s) (obs_of cp_no upd T info z))
    /\ tx_hist s' = fst (insert_or_ignore (tx_hist s) (hist_row_of (obs_of cp_no upd T info z)))
    /\ tx_history_inserts s'
       = tx_history_inserts s
         + snd (insert_or_ignore (tx_hist s) (hist_row_of (obs_of cp_no upd T info z))).
Proof.
  unfold process_info, bind. destruct (lots_avail_of info) as [z|]; [|discriminate].
  change {| o_cp_no := cp_no; o_lot_type := li_lot_type info; o_lots_avail := z;
            o_total_lots := total_lots_of info; o_upd := upd; o_seen := T |}
    with (obs_of cp_no upd T info z).
  destruct (bindable (obs_of cp_no upd T info z)); [|discriminate].
  destruct (upsert_snapshot ok (tx_legacy s) (tx_avail s) (obs_of cp_no upd T info z))
    as [lg a] eqn:E1.
  destruct (insert_or_ignore (tx_hist s) (hist_row_of (obs_of cp_no upd T info z)))
    as [h c] eqn:E2.
  intros H. inversion H; subst; simpl. exists z. rewrite E1, E2.
  repeat split; reflexivity.
Qed.

Lemma process_info_has_seen (cp_no upd : option string) (s s' : txn)
    (info : lot_info) :
  process_info ok cp_no upd T s info = Some s' ->
  has_seen T (cp_no, li_lot_type info) s'.
Proof.
  intros H. apply process_info_some in H. destruct H as (z & _ & Ha & _).
  unfold has_seen. rewrite Ha.
  exact (upsert_snapshot_has ok (tx_legacy s) (tx_avail s) (obs_of cp_no upd T info z)).
Qed.

Lemma process_info_keeps_seen (cp_no upd : option string)
    (k : option string * option string) (s s' : txn) (info : lot_info) :
  has_seen T k s ->
  process_info ok cp_no upd T s info = Some s' ->
  has_seen T k s'.
Proof.
  intros (r & Hr & Hs) H. apply process_info_some in H. destruct H as (z & _ & Ha & _).
  unfold has_seen. rewrite Ha.
  exact (upsert_snapshot_keeps ok (tx_legacy s) (tx_avail s) (obs_of cp_no upd T info z)
           k r Hr Hs).
Qed.

Lemma process_info_old_or_seen (cp_no upd : option string)
    (pre : avail_table) (K : list (option string * option string))
    (s s' : txn) (info : lot_info) :
  In (cp_no, li_lot_type info) K ->
  old_or_seen T pre K s ->
  process_info ok cp_no upd T s info = Some s' ->
  old_or_seen T pre K s'.
Proof.
  intros HK Hs H r Hr. apply process_info_some in H. destruct H as (z & _ & Ha & _).
  rewrite Ha in Hr. apply upsert_snapshot_rows in Hr. destruct Hr as [Hr|Hr]; auto.
  right. exists (cp_no, li_lot_type info). auto.
Qed.

Lemma process_carpark_keeps_seen (k : option string * option string)
    (s s' : txn) (cp : carpark) :
  has_seen T k s -> process_carpark ok T s cp = Some s' -> has_seen T k s'.
Proof.
  intros Hs H. unfold process_carpark in H.
  eapply (for_each_inv (has_seen T k)); [|exact Hs|exact H].
  intros s0 x s0' H0 Hx. eapply process_info_keeps_seen; eauto.
Qed.

Lemma cycle_old_or_seen (p : payload) (s s' : txn) :
  old_or_seen T (tx_avail s) (observed_keys p) s ->
  for_each (process_carpark ok T) (carparks_of p) s = Some s' ->
  old_or_seen T (tx_avail s) (observed_keys p) s'.
Proof.
  intros Hs H.
  eapply (for_each_inv_in (old_or_seen T (tx_avail s) (observed_keys p)));
    [|exact Hs|exact H].
  intros s0 cp s0' Hcp H0 Hc. unfold process_carpark in Hc.
  eapply (for_each_inv_in (old_or_seen T (tx_avail s) (observed_keys p)));
    [|exact H0|exact Hc].
  intros s1 info s1' Hinfo H1 Hi.
  eapply process_info_old_or_seen; [|exact H1|exact Hi].
  unfold observed_keys. apply in_flat_map. exists cp. split; [assumption|].
  apply in_map_iff. eauto.
Qed.

Lemma cycle_has_seen (p : payload) (s s' : txn) :
  for_each (process_carpark ok T) (carparks_of p) s = Some s' ->
  forall k, In k (observed_keys p) -> has_seen T k s'.
Proof.
  intros H k Hk. unfold observed_keys in Hk. apply in_flat_map in Hk.
  destruct Hk as (cp & Hcp & Hk). apply in_map_iff in Hk. destruct Hk as (info & <- & Hinfo).
  revert info Hinfo.
  refine (for_each_establish
            (fun cp s => forall info, In info (infos_of cp) ->
                                      has_seen T (cp_carpark_number cp, li_lot_type info) s)
            (process_carpark ok T) _ _ (carparks_of p) s s' H cp Hcp).
  - intros s0 x s0' H0. unfold process_carpark in H0.
    exact (for_each_establish
             (fun info s => has_seen T (cp_carpark_number x, li_lot_type info) s)
             _ (fun s1 i s1' Hi => process_info_has_seen _ _ _ _ _ Hi)
             (fun s1 i y s1' Hy Hi => process_info_keeps_seen _ _ _ _ _ _ Hy Hi)
             (infos_of x) s0 s0' H0).
  - intros s0 x y s0' Hy H0 info Hinfo.
    eapply process_carpark_keeps_seen; eauto.
Qed.

End Cycle.

(** ** Strict mirror *)

Lemma upsert_committed (strict ok legacy : bool) (T : string) (db db' : store)
    (p : payload) (st : upsert_stats) :
  upsert strict ok legacy T db p = Committed db' st ->
  exists s,
    for_each (process_carpark ok T) (carparks_of p)
      {| tx_legacy := legacy; tx_avail := carpark_availability db;
         tx_hist := carpark_availability_history db; tx_history_inserts := 0 |}
    = Some s
    /\ carpark_availability db'
       = (if strict then fst (delete_stale T (tx_avail s)) else tx_avail s)
    /\ carpark_availability_history db' = tx_hist s
    /\ carpark_info db' = carpark_info db
    /\ carpark_availability_join db' = carpark_availability_join db.
Proof.
  unfold upsert. intros H.
  destruct (for_each _ _ _) as [s|]; [|discriminate].
  exists s. destruct strict; inversion H; subst; simpl; auto.
Qed.

Lemma store_after_hlm_reachable : reachable store_after_hlm.
Proof.
  apply reach_step with (db := empty_store); [apply reach_empty|].
  eapply step_upsert with (strict := true) (ok := true) (legacy := false)
    (retrieved_at := "2025-01-01T01:05:05Z")
    (p := one_lot "HLM" (Some "2025-01-01T09:04:00") "5").
  reflexivity.
Qed.

(** C5, refuted as stated: a second cycle within the same second, which
    observes only ACB, commits and leaves the row of HLM, not observed, in
    the snapshot table. *)
Lemma same_second_cycle_keeps_unobserved :
  exists db' st,
    upsert true true false "2025-01-01T01:05:05Z" store_after_hlm
      (one_lot "ACB" (Some "2025-01-01T09:04:30") "7")
    = Committed db' st
    /\ ~ strict_mirror_post "2025-01-01T01:05:05Z"
           (carpark_availability store_after_hlm)
           (one_lot "ACB" (Some "2025-01-01T09:04:30") "7")
           (carpark_availability db').
Proof.
  eexists. eexists. split; [reflexivity|].
  intros (_ & H & _).
  refine (H _ (or_introl eq_refl) _ _ (or_introl eq_refl) eq_refl).
  simpl. intros [E|[]]. discriminate.
Qed.

(** C5, amended.  A committed strict-mirror cycle stamped [T], run on a
    snapshot table whose rows were all last seen strictly before [T],
    leaves only rows last seen at [T]; no row of a key the batch did not
    observe remains, and every observed key has its row. *)
Theorem strict_mirror_cycle (ok legacy : bool) (T : string) (db db' : store)
    (p : payload) (st : upsert_stats) :
  upsert true ok legacy T db p = Committed db' st ->
  (forall r, In r (carpark_availability db) ->
             String.ltb (Avail.last_seen_at r) T = true) ->
  strict_mirror_post T (carpark_availability db) p (carpark_availability db').
Proof.
  intros H Hold. apply upsert_committed in H.
  destruct H as (s & Hloop & Ha & _). rewrite Ha. clear Ha.
  pose proof (cycle_old_or_seen ok T p _ s (fun r Hr => or_introl Hr) Hloop) as Hinv.
  pose proof (cycle_has_seen ok T p _ s Hloop) as Hseen.
  simpl in Hinv. unfold delete_stale; simpl. repeat split.
  - intros r Hr. apply filter_In in Hr. destruct Hr as [Hr Hfresh].
    destruct (Hinv r Hr) as [Hpre|(k & _ & _ & Hs)]; [|exact Hs].
    rewrite (Hold r Hpre) in Hfresh. discriminate.
  - intros r Hr Hnot r' Hr' Hk. apply filter_In in Hr'. destruct Hr' as [Hr' Hfresh].
    destruct (Hinv r' Hr') as [Hpre|(k & HK & Hrk & _)].
    + rewrite (Hold r' Hpre) in Hfresh. discriminate.
    + apply Hnot. now rewrite <- Hk, Hrk.
  - intros k Hk. destruct (Hseen k Hk) as (r & Hr & Hrk & Hs).
    exists r. split; [|exact Hrk]. apply filter_In. split; [exact Hr|].
    now rewrite Hs, ltb_irrefl.
Qed.

Lemma strict_mirror_cycle_witness :
  strict_mirror_post "2025-01-01T01:10:05Z"
    (carpark_availability store_after_hlm)
    (one_lot "ACB" (Some "2025-01-01T09:09:00") "7")
    [ {| Avail.carpark_number := Some "ACB"; Avail.lot_type := Some "C";
         Avail.lots_available := 7;
         Avail.update_datetime := Some "2025-01-01T09:09:00";
         Avail.last_seen_at := "2025-01-01T01:10:05Z";
         Avail.total_lots := Some 100 |} ].
Proof.
  refine (strict_mirror_cycle true false "2025-01-01T01:10:05Z" store_after_hlm
            (committed_store
               (upsert true true false "2025-01-01T01:10:05Z" store_after_hlm
                  (one_lot "ACB" (Some "2025-01-01T09:09:00") "7")))
            (one_lot "ACB" (Some "2025-01-01T09:09:00") "7")
            _ eq_refl _).
  intros r [<-|[]]. reflexivity.
Defined.

(** ** A cycle with nothing observed *)

(** C10, refuted as stated: an empty payload within the second of the
    previous cycle commits and deletes nothing. *)
Lemma same_second_empty_cycle_deletes_nothing :
  exists db' st,
    upsert true true false "2025-01-01T01:05:05Z" store_after_hlm {| items := None |}
    = Committed db' st
    /\ carpark_availability db' <> [].
Proof. eexists. eexists. split; [reflexivity|]. discriminate. Qed.

(** C10, amended.  With strict mirror on, a call whose payload has no
    carpark (items missing or empty, or carpark_data empty) commits, leaves
    the history, metadata and view tables as they were, and deletes from the
    snapshot table exactly the rows last seen before the cycle timestamp:
    every row, when each was last seen strictly before it. *)
Theorem empty_payload_cycle (ok legacy : bool) (T : string) (db : store) (p : payload) :
  carparks_of p = [] ->
  exists st,
    upsert true ok legacy T db p
    = Committed
        {| carpark_availability :=
             filter (fun r => negb (String.ltb (Avail.last_seen_at r) T))
               (carpark_availability db);
           carpark_availability_history := carpark_availability_history db;
           carpark_info := carpark_info db;
           carpark_availability_join := carpark_availability_join db |}
        st
    /\ history_inserts st = 0
    /\ ((forall r, In r (carpark_availability db) ->
                   String.ltb (Avail.last_seen_at r) T = true) ->
        filter (fun r => negb (String.ltb (Avail.last_seen_at r) T))
          (carpark_availability db) = []).
Proof.
  intros Hp. unfold upsert. rewrite Hp. simpl. eexists. repeat split.
  intros Hold. induction (carpark_availability db) as [|r t IH]; [reflexivity|].
  simpl. rewrite (Hold r) by (simpl; auto). simpl. apply IH.
  intros; apply Hold; simpl; auto.
Qed.

Lemma empty_payload_cycle_witness :
  exists st,
    upsert true true false "2025-01-01T01:10:05Z" store_after_hlm {| items := Some [] |}
    = Committed
        {| carpark_availability := [];
           carpark_availability_history := carpark_availability_history store_after_hlm;
           carpark_info := [];
           carpark_availability_join := [] |}
        st
    /\ history_inserts st = 0.
Proof.
  destruct (empty_payload_cycle true false "2025-01-01T01:10:05Z" store_after_hlm
              {| items := Some [] |} eq_refl) as (st & H1 & H2 & _).
  exists st. split; [exact H1|exact H2].
Defined.

(** ** History *)

Lemma hist_conflict_iff (a b : Hist.row) :
  hist_conflict a b = true <->
  exists c l u, hist_key a = (Some c, Some l, Some u) /\ hist_key b = hist_key a.
Proof.
  unfold hist_conflict, hist_key. rewrite !andb_true_iff, !sql_eqb_true. split.
  - intros [[(c & H1 & H2) (l & H3 & H4)] (u & H5 & H6)].
    exists c, l, u. rewrite H1, H2, H3, H4, H5, H6. auto.
  - intros (c & l & u & H1 & H2). rewrite H1 in H2. inversion H1. inversion H2.
    repeat split; eauto.
Qed.

Lemma hist_conflict_sym (a b : Hist.row) : hist_conflict a b = hist_conflict b a.
Proof.
  unfold hist_conflict.
  now rewrite (sql_eqb_sym (Hist.carpark_number a)), (sql_eqb_sym (Hist.lot_type a)),
    (sql_eqb_sym (Hist.update_datetime a)).
Qed.

Lemma hist_unique_app (h : hist_table) (new : Hist.row) :
  hist_unique h = true ->
  existsb (hist_conflict new) h = false ->
  hist_unique (h ++ [new]) = true.
Proof.
  induction h as [|r h IH]; intros Hu Hn; [reflexivity|].
  simpl in *. apply andb_true_iff in Hu. destruct Hu as [Hr Hu].
  apply orb_false_iff in Hn. destruct Hn as [Hnr Hn].
  rewrite existsb_app. simpl. apply negb_true_iff in Hr. rewrite Hr.
  rewrite hist_conflict_sym, Hnr, IH by assumption. reflexivity.
Qed.

Lemma insert_or_ignore_unique (h : hist_table) (new : Hist.row) :
  hist_unique h = true -> hist_unique (fst (insert_or_ignore h new)) = true.
Proof.
  intros Hu. unfold insert_or_ignore.
  destruct (existsb (hist_conflict new) h) eqn:E; simpl; [assumption|].
  now apply hist_unique_app.
Qed.

(** INSERT OR IGNORE only ever appends. *)
Lemma insert_or_ignore_extends (h : hist_table) (new : Hist.row) :
  exists more, fst (insert_or_ignore h new) = h ++ more.
Proof.
  unfold insert_or_ignore. destruct (existsb (hist_conflict new) h); simpl.
  - exists []. now rewrite app_nil_r.
  - now exists [new].
Qed.

Lemma process_info_hist (ok : bool) (cp_no upd : option string) (T : string)
    (h0 : hist_table) (s s' : txn) (info : lot_info) :
  hist_inv h0 s -> process_info ok cp_no upd T s info = Some s' -> hist_inv h0 s'.
Proof.
  intros [Hu (more & Hm)] H. apply process_info_some in H.
  destruct H as (z & _ & _ & Hh & _). unfold hist_inv. rewrite Hh. split.
  - intros H0. apply insert_or_ignore_unique. auto.
  - destruct (insert_or_ignore_extends (tx_hist s) (hist_row_of (obs_of cp_no upd T info z)))
      as (m & ->).
    exists (more ++ m). now rewrite Hm, app_assoc.
Qed.

Lemma upsert_hist (strict ok legacy : bool) (T : string) (db db' : store)
    (p : payload) (st : upsert_stats) :
  upsert strict ok legacy T db p = Committed db' st ->
  (hist_unique (carpark_availability_history db) = true ->
   hist_unique (carpark_availability_history db') = true)
  /\ exists more,
       carpark_availability_history db' = carpark_availability_history db ++ more.
Proof.
  intros H. apply upsert_committed in H. destruct H as (s & Hloop & _ & Hh & _).
  rewrite Hh.
  refine (for_each_inv (hist_inv (carpark_availability_history db))
            (process_carpark ok T) _ (carparks_of p) _ s _ Hloop).
  - intros s0 cp s0' H0 Hc. unfold process_carpark in Hc.
    refine (for_each_inv (hist_inv (carpark_availability_history db)) _ _
              (infos_of cp) s0 s0' H0 Hc).
    intros s1 info s1' H1 Hi. eapply process_info_hist; eauto.
  - split; simpl; [auto|]. exists []. now rewrite app_nil_r.
Qed.

(** The jobs other than availability ingestion leave the history alone. *)
Lemma job_step_history (db db' : store) :
  job_step db db' ->
  carpark_availability_history db' = carpark_availability_history db.
Proof.
  intros H. destruct H; try reflexivity.
  match goal with
  | H : load_info_into_sqlite _ _ _ = _ |- _ =>
      apply load_info_committed in H; destruct H as (t & _ & ->); reflexivity
  end.
Qed.

Lemma hist_unique_nth (h : hist_table) :
  hist_unique h = true ->
  forall i j r1 r2,
    nth_error h i = Some r1 -> nth_error h j = Some r2 -> i <> j ->
    hist_conflict r1 r2 = false.
Proof.
  induction h as [|r h IH]; intros Hu i j r1 r2 H1 H2 Hij.
  - destruct i; discriminate.
  - simpl in Hu. apply andb_true_iff in Hu. destruct Hu as [Hr Hu].
    apply negb_true_iff in Hr.
    pose proof (proj1 (existsb_false_forall _ _) Hr) as Hall.
    destruct i as [|i], j as [|j]; simpl in H1, H2.
    + congruence.
    + inversion H1; subst. apply Hall. eapply nth_error_In; eauto.
    + inversion H2; subst. rewrite hist_conflict_sym. apply Hall.
      eapply nth_error_In; eauto.
    + eapply IH; eauto.
Qed.

Lemma reachable_hist_unique (db : store) :
  reachable db -> hist_unique (carpark_availability_history db) = true.
Proof.
  induction 1 as [|db db' _ IH Hstep]; [reflexivity|].
  destruct Hstep as [strict ok legacy T p db db' st H|db db' H].
  - now apply (upsert_hist strict ok legacy T db db' p st H).
  - now rewrite (job_step_history db db' H).
Qed.

(** C6, refuted as stated: two cycles fed an entry without update_datetime
    reach a store whose history holds two rows with the same
    (carpark_number, lot_type, update_datetime) = (HLM, C, NULL). *)
Lemma undated_history_duplicates :
  reachable store_undated_twice
  /\ ~ hist_no_dup (carpark_availability_history store_undated_twice).
Proof.
  split.
  - eapply reach_step; [eapply reach_step; [apply reach_empty|]|].
    + eapply step_upsert with (strict := true) (ok := true) (legacy := false)
        (retrieved_at := "2025-01-01T01:05:05Z") (p := undated).
      reflexivity.
    + eapply step_upsert with (strict := true) (ok := true) (legacy := false)
        (retrieved_at := "2025-01-01T01:10:05Z") (p := undated).
      reflexivity.
  - intros H. exact (H 0%nat 1%nat _ _ eq_refl eq_refl (fun E => O_S _ E) eq_refl).
Qed.

(** C6, amended.  In every reachable store the history table has no two
    rows with the same (carpark_number, lot_type, update_datetime) when the
    three values are non-null; appending an observation whose three values
    are present and already stored inserts nothing and reports 0, while one
    with a value missing among the three is appended every time.  No
    operation changes or removes a history row: the jobs other than
    availability ingestion leave the table as it is, and ingestion only
    appends to it. *)
Theorem history_unique_reachable (db : store) :
  reachable db ->
  (forall i j r1 r2 c l u,
      nth_error (carpark_availability_history db) i = Some r1 ->
      nth_error (carpark_availability_history db) j = Some r2 ->
      i <> j ->
      hist_key r1 = (Some c, Some l, Some u) ->
      hist_key r2 <> hist_key r1)
  /\ (forall new r c l u,
         In r (carpark_availability_history db) ->
         hist_key new = (Some c, Some l, Some u) ->
         hist_key r = hist_key new ->
         insert_or_ignore (carpark_availability_history db) new
         = (carpark_availability_history db, 0))
  /\ (forall new,
         Hist.carpark_number new = None \/ Hist.lot_type new = None
         \/ Hist.update_datetime new = None ->
         insert_or_ignore (carpark_availability_history db) new
         = (carpark_availability_history db ++ [new], 1))
  /\ (forall db', job_step db db' ->
                  carpark_availability_history db' = carpark_availability_history db)
  /\ (forall db', step db db' ->
                  exists more,
                    carpark_availability_history db'
                    = carpark_availability_history db ++ more).
Proof.
  intros Hreach. pose proof (reachable_hist_unique db Hreach) as Hu. repeat split.
  - intros i j r1 r2 c l u H1 H2 Hij Hk E.
    pose proof (hist_unique_nth _ Hu i j r1 r2 H1 H2 Hij) as Hc.
    assert (hist_conflict r1 r2 = true) as Ht; [|congruence].
    apply hist_conflict_iff. exists c, l, u. auto.
  - intros new r c l u Hr Hk E. unfold insert_or_ignore.
    assert (existsb (hist_conflict new) (carpark_availability_history db) = true) as ->;
      [|reflexivity].
    apply existsb_exists. exists r. split; [assumption|].
    apply hist_conflict_iff. exists c, l, u. auto.
  - intros new Hnull. unfold insert_or_ignore.
    assert (existsb (hist_conflict new) (carpark_availability_history db) = false) as ->;
      [|reflexivity].
    apply existsb_false_forall. intros r _.
    destruct (hist_conflict new r) eqn:E; [|reflexivity].
    apply hist_conflict_iff in E. destruct E as (c & l & u & E & _).
    unfold hist_key in E. inversion E. destruct Hnull as [H|[H|H]]; congruence.
  - apply job_step_history.
  - intros db' Hstep. destruct Hstep as [strict ok legacy T p db db' st H|db db' H].
    + apply (upsert_hist strict ok legacy T db db' p st H).
    + exists []. now rewrite app_nil_r, (job_step_history db db' H).
Qed.

Lemma history_unique_reachable_witness :
  insert_or_ignore (carpark_availability_history store_after_hlm) hlm_again
  = (carpark_availability_history store_after_hlm, 0).
Proof.
  assert (reachable store_after_hlm) as Hreach.
  { apply reach_step with (db := empty_store); [apply reach_empty|].
    eapply step_upsert with (strict := true) (ok := true) (legacy := false)
      (retrieved_at := "2025-01-01T01:05:05Z")
      (p := one_lot "HLM" (Some "2025-01-01T09:04:00") "5").
    reflexivity. }
  exact (proj1 (proj2 (history_unique_reachable store_after_hlm Hreach))
           hlm_again _ "HLM" "C" "2025-01-01T09:04:00"
           (or_introl eq_refl) eq_refl eq_refl).
Defined.

(** ** Annotation merge *)

Lemma set_ev_same (j : Join.row) : set_ev (Join.ev_lot_location j) j = j.
Proof. destruct j; reflexivity. Qed.

Lemma set_ev_set_ev (x y : option string) (j : Join.row) :
  set_ev x (set_ev y j) = set_ev x j.
Proof. reflexivity. Qed.

Lemma apply_entries_rows (mapping : list (string * string)) :
  forall (v : join_table) (n : nat),
    fst (apply_entries mapping v n)
    = map (fun j => set_ev (after_entries mapping (norm_key (Join.carpark_number j))
                              (Join.ev_lot_location j)) j) v.
Proof.
  induction mapping as [|e mapping IH]; intros v n; simpl.
  - rewrite <- (map_id v) at 1. apply map_ext. intros j. symmetry. apply set_ev_same.
  - unfold apply_entry, sql_update. rewrite IH, map_map. apply map_ext. intros j.
    unfold after_entries. simpl. fold (hits e j). unfold hits.
    destruct (sql_eqb (norm_key (Join.carpark_number j)) (Some (fst e))); reflexivity.
Qed.

(** The closed form of a run: every row is merged on its own. *)
Lemma apply_ev_mapping_rows (mapping : list (string * string)) (default_text : string)
    (v : join_table) :
  fst (_apply_ev_mapping mapping default_text v)
  = map (merged_row mapping default_text) v.
Proof.
  unfold _apply_ev_mapping, sql_update.
  pose proof (apply_entries_rows mapping
                (map (fun j => if is_blank (Join.ev_lot_location j)
                               then set_ev (Some default_text) j else j) v) 0%nat) as E.
  destruct (apply_entries mapping _ 0%nat) as [v2 updates]. simpl in *.
  rewrite E, map_map. apply map_ext. intros j. unfold merged_row, defaulted.
  destruct (is_blank (Join.ev_lot_location j)); reflexivity.
Qed.

(** The mapping loop either leaves a row's annotation as it found it, or
    sets it to the value of one of its entries, whatever it found. *)
Lemma after_entries_cases (mapping : list (string * string)) (k : option string) :
  (forall x, after_entries mapping k x = x)
  \/ (exists e, In e mapping /\ forall x, after_entries mapping k x = Some (snd e)).
Proof.
  unfold after_entries. induction mapping as [|e mapping IH]; simpl; [now left|].
  destruct IH as [Hid|(e' & He' & Hc)].
  - destruct (sql_eqb k (Some (fst e))).
    + right. exists e. split; [now left|]. intros x. apply Hid.
    + left. intros x. apply Hid.
  - right. exists e'. split; [now right|]. intros x. apply Hc.
Qed.

Lemma defaulted_idempotent (d : string) (x : option string) :
  defaulted d (defaulted d x) = defaulted d x.
Proof.
  unfold defaulted. destruct (is_blank x) eqn:E; [|now rewrite E].
  destruct (is_blank (Some d)); reflexivity.
Qed.

Lemma merged_row_idempotent (mapping : list (string * string)) (d : string)
    (j : Join.row) :
  merged_row mapping d (merged_row mapping d j) = merged_row mapping d j.
Proof.
  unfold merged_row. simpl. rewrite set_ev_set_ev. f_equal.
  destruct (after_entries_cases mapping (norm_key (Join.carpark_number j)))
    as [Hid|(e & _ & Hc)].
  - rewrite !Hid. apply defaulted_idempotent.
  - now rewrite !Hc.
Qed.

Lemma merged_row_empty (d : string) (j : Join.row) :
  merged_row [] d j = set_ev (defaulted d (Join.ev_lot_location j)) j.
Proof. reflexivity. Qed.

Lemma merged_row_then_empty (mapping : list (string * string)) (d : string)
    (j : Join.row) :
  values_non_blank mapping ->
  merged_row [] d (merged_row mapping d j) = merged_row mapping d j.
Proof.
  intros Hnb. rewrite merged_row_empty. unfold merged_row.
  cbn [Join.ev_lot_location set_ev].
  change (set_ev ?x (set_ev ?y j)) with (set_ev x j). f_equal.
  destruct (after_entries_cases mapping (norm_key (Join.carpark_number j)))
    as [Hid|(e & He & Hc)].
  - rewrite !Hid. apply defaulted_idempotent.
  - rewrite !Hc. unfold defaulted. now rewrite (Hnb e He).
Qed.

(** C8, refuted as stated: after a run whose mapping gives ACB an empty
    text, a re-run with the empty mapping changes ACB's annotation. *)
Lemma rerun_changes_blank_entry :
  fst (_apply_ev_mapping [] "No EV chargers"
         (fst (_apply_ev_mapping [("ACB", EmptyString)] "No EV chargers" view0)))
  <> fst (_apply_ev_mapping [("ACB", EmptyString)] "No EV chargers" view0).
Proof. discriminate. Qed.

(** C8, amended.  For every view, mapping and default text: a run writes on
    each row the text of the mapping entry that matches its normalised
    carpark_number, else the default when its annotation is null or blank,
    else what it had; running it twice with the same mapping and default
    gives the same view as running it once; and, when no entry of the
    mapping has a blank text, re-running it with an empty mapping changes
    nothing. *)
Theorem apply_ev_mapping_idempotent (mapping : list (string * string))
    (default_text : string) (v : join_table) :
  fst (_apply_ev_mapping mapping default_text v)
  = map (merged_row mapping default_text) v
  /\ fst (_apply_ev_mapping mapping default_text
            (fst (_apply_ev_mapping mapping default_text v)))
     = fst (_apply_ev_mapping mapping default_text v)
  /\ (values_non_blank mapping ->
      fst (_apply_ev_mapping [] default_text
             (fst (_apply_ev_mapping mapping default_text v)))
      = fst (_apply_ev_mapping mapping default_text v)).
Proof.
  rewrite !apply_ev_mapping_rows. repeat split.
  - rewrite map_map. apply map_ext. intros j. apply merged_row_idempotent.
  - intros Hnb. rewrite map_map. apply map_ext. intros j.
    now apply merged_row_then_empty.
Qed.

Lemma apply_ev_mapping_idempotent_witness :
  fst (_apply_ev_mapping [] "None"
         (fst (_apply_ev_mapping [("ACB", "L1")] "None" view0)))
  = fst (_apply_ev_mapping [("ACB", "L1")] "None" view0).
Proof.
  refine (proj2 (proj2 (apply_ev_mapping_idempotent [("ACB", "L1")] "None" view0)) _).
  intros e [<-|[]]. reflexivity.
Defined.

(** ** Mappings read from the CSV *)

Lemma lstrip_head (sp : ascii -> bool) (s : string) (c : ascii) (t : string) :
  lstrip sp s = String c t -> sp c = false.
Proof.
  induction s as [|a s IH]; simpl; [discriminate|].
  destruct (sp a) eqn:E; [exact IH|]. intros H. inversion H; subst. exact E.
Qed.

Lemma rstrip_head (sp : ascii -> bool) (c c' : ascii) (s t : string) :
  rstrip sp (String c s) = String c' t -> c' = c.
Proof.
  simpl. destruct (rstrip sp s); [destruct (sp c)|]; intros H; inversion H; reflexivity.
Qed.

Lemma rstrip_keeps (sp : ascii -> bool) (c : ascii) (s : string) :
  sp c = false -> rstrip sp (String c s) <> EmptyString.
Proof.
  intros H. simpl. destruct (rstrip sp s); [rewrite H|]; discriminate.
Qed.

Lemma is_space_py_space (c : ascii) : is_py_space c = false -> is_space c = false.
Proof.
  unfold is_space. destruct (Ascii.eqb c " ") eqn:E; [|reflexivity].
  apply Ascii.eqb_eq in E. subst. discriminate.
Qed.

(** A text that Python's [strip] leaves non-empty is not blank for SQLite. *)
Lemma py_strip_not_blank (s : string) :
  py_strip s <> EmptyString -> is_blank (Some (py_strip s)) = false.
Proof.
  unfold py_strip. intros Hne.
  destruct (lstrip is_py_space s) as [|c t] eqn:E; [now elim Hne|].
  pose proof (lstrip_head is_py_space s c t E) as Hc.
  destruct (rstrip is_py_space (String c t)) as [|c' t'] eqn:R; [now elim Hne|].
  apply rstrip_head in R. subst c'.
  unfold is_blank, sql_trim. cbn [lstrip]. rewrite (is_space_py_space c Hc).
  apply String.eqb_neq. now apply rstrip_keeps, is_space_py_space.
Qed.

(** The mapping [_load_ev_mapping_csv] builds has no blank text. *)
Lemma loaded_mapping_non_blank (rows : list (option string * option string)) :
  forall mapping,
    values_non_blank mapping -> values_non_blank (load_ev_rows rows mapping).
Proof.
  induction rows as [|[c e] rows IH]; intros mapping Hm; simpl; [exact Hm|].
  destruct (String.eqb _ EmptyString); [now apply IH|].
  destruct (negb (existsb _ mapping) && negb (String.eqb _ EmptyString)) eqn:E; [|now apply IH].
  apply IH. intros kv Hkv. apply in_app_or in Hkv. destruct Hkv as [Hkv|[<-|[]]]; auto.
  apply andb_true_iff in E. destruct E as [_ E]. apply negb_true_iff in E.
  apply String.eqb_neq in E. simpl. now apply py_strip_not_blank.
Qed.

(** ** The key constraints hold in every reachable store *)

Lemma pk_ok_filter (f : Avail.row -> bool) (t : avail_table) :
  pk_ok t = true -> pk_ok (filter f t) = true.
Proof.
  induction t as [|r t IH]; intros H; [reflexivity|].
  simpl in H. apply andb_true_iff in H. destruct H as [Hr Ht].
  simpl. destruct (f r); [|now apply IH]. simpl. rewrite IH by assumption.
  rewrite andb_true_r. apply negb_true_iff. apply negb_true_iff in Hr.
  apply existsb_false_forall. intros x Hx. apply filter_In in Hx.
  now apply (proj1 (existsb_false_forall _ _) Hr).
Qed.

Lemma process_info_pk_ok (ok : bool) (cp_no upd : option string) (T : string)
    (s s' : txn) (info : lot_info) :
  pk_ok (tx_avail s) = true ->
  process_info ok cp_no upd T s info = Some s' ->
  pk_ok (tx_avail s') = true.
Proof.
  intros Hpk H. apply process_info_some in H. destruct H as (z & _ & Ha & _).
  rewrite Ha. now apply pk_ok_upsert_snapshot.
Qed.

Lemma upsert_pk_ok (strict ok legacy : bool) (T : string) (db db' : store)
    (p : payload) (st : upsert_stats) :
  upsert strict ok legacy T db p = Committed db' st ->
  pk_ok (carpark_availability db) = true ->
  pk_ok (carpark_availability db') = true.
Proof.
  intros H Hpk. apply upsert_committed in H. destruct H as (s & Hloop & Ha & _).
  assert (pk_ok (tx_avail s) = true) as Hs.
  { refine (for_each_inv (fun s => pk_ok (tx_avail s) = true)
              (process_carpark ok T) _ (carparks_of p) _ s _ Hloop); [|exact Hpk].
    intros s0 cp s0' H0 Hc. unfold process_carpark in Hc.
    refine (for_each_inv (fun s => pk_ok (tx_avail s) = true) _ _
              (infos_of cp) s0 s0' H0 Hc).
    intros s1 info s1' H1 Hi. eapply process_info_pk_ok; eauto. }
  rewrite Ha. destruct strict; [|assumption].
  unfold delete_stale; simpl. now apply pk_ok_filter.
Qed.

Lemma job_step_availability (db db' : store) :
  job_step db db' -> carpark_availability db' = carpark_availability db.
Proof.
  intros H. destruct H; try reflexivity.
  match goal with
  | H : load_info_into_sqlite _ _ _ = _ |- _ =>
      apply load_info_committed in H; destruct H as (t & _ & ->); reflexivity
  end.
Qed.

(** Every reachable snapshot table satisfies its primary key. *)
Lemma reachable_pk_ok (db : store) :
  reachable db -> pk_ok (carpark_availability db) = true.
Proof.
  induction 1 as [|db db' _ IH Hstep]; [reflexivity|].
  destruct Hstep as [strict ok legacy T p db db' st H|db db' H].
  - eapply upsert_pk_ok; eauto.
  - now rewrite (job_step_availability db db' H).
Qed.

Lemma sql_update_keys {R K : Type} (key : R -> K) (w : R -> bool) (set : R -> R)
    (t : list R) :
  (forall r, key (set r) = key r) ->
  map key (fst (sql_update w set t)) = map key t.
Proof.
  intros H. unfold sql_update; simpl. rewrite map_map. apply map_ext.
  intros r. destruct (w r); auto.
Qed.

Lemma refresh_loop_keys (now : civil_time) (stamp : nat -> string)
    (rows : list (string * option Z * option string)) :
  forall i t,
    map Info.carpark_number (refresh_loop now stamp i rows t)
    = map Info.carpark_number t.
Proof.
  induction rows as [|[[cp ic] np] rows IH]; intros i t; simpl; [reflexivity|].
  rewrite IH. now apply sql_update_keys.
Qed.

Lemma load_loop_nodup (now : string) (records : list record_obj) :
  forall t rows t' rows',
    NoDup (map Info.carpark_number t) ->
    load_loop now records t rows = Some (t', rows') ->
    NoDup (map Info.carpark_number t').
Proof.
  induction records as [|rec records IH]; intros t rows t' rows' Ht H; simpl in H.
  - now inversion H; subst.
  - destruct (String.eqb (record_key rec) EmptyString); [eapply IH; eauto|].
    destruct (existsb _ t) eqn:E; [discriminate|].
    eapply IH; [|exact H]. rewrite map_app. simpl.
    apply NoDup_app; [assumption|repeat constructor; now intros []|].
    intros k Hk [<-|[]]. apply in_map_iff in Hk. destruct Hk as (r & Hr & Hin).
    pose proof (proj1 (existsb_false_forall _ _) E r Hin) as Hne. simpl in Hne.
    apply String.eqb_neq in Hne. now apply Hne.
Qed.

(** Every reachable metadata table satisfies its primary key. *)
Lemma reachable_info_nodup (db : store) :
  reachable db -> NoDup (map Info.carpark_number (carpark_info db)).
Proof.
  induction 1 as [|db db' _ IH Hstep]; [constructor|].
  destruct Hstep as [strict ok legacy T p db db' st H|db db' H].
  - apply upsert_committed in H. destruct H as (s & _ & _ & _ & Hi & _).
    now rewrite Hi.
  - destruct H; simpl; try assumption.
    + unfold mark_central_and_base_rates. rewrite !map_map. exact IH.
    + unfold refresh_time_dependent_rates. now rewrite refresh_loop_keys.
    + match goal with
      | H : load_info_into_sqlite _ _ _ = _ |- _ =>
          apply load_info_committed in H; destruct H as (t & E & ->)
      end.
      simpl. eapply load_loop_nodup; [|exact E]. constructor.
Qed.

(** * Further properties *)

(** ** Classification and the cap windows *)

Lemma mark_central_map (t : info_table) :
  mark_central_and_base_rates t = map classified t.
Proof.
  unfold mark_central_and_base_rates. rewrite map_map.
  apply map_ext. intros r. unfold set_carpark_rate, set_is_central, classified.
  cbn [Info.carpark_number Info.attrs Info.updated_at Info.is_central
       Info.carpark_rate Info.current_rate_30min Info.active_cap_type
       Info.active_cap_amount Info.rate_updated_at].
  fold (in_central (Info.carpark_number r)).
  destruct (in_central (Info.carpark_number r)); reflexivity.
Qed.

(** X1.  [mark_central_and_base_rates] writes on every metadata row
    is_central 1 and base rate 1.2 when its carpark_number is on the
    allow-list, else 0 and 0.6, whatever the row held, and leaves the other
    columns alone; running it again changes nothing. *)
Theorem mark_central_classifies (t : info_table) :
  mark_central_and_base_rates t = map classified t
  /\ mark_central_and_base_rates (mark_central_and_base_rates t)
     = mark_central_and_base_rates t.
Proof.
  split; [apply mark_central_map|].
  rewrite !mark_central_map, map_map. apply map_ext. intros r. reflexivity.
Qed.

(** X2.  At every time of day the two cap windows are complementary, so
    the time-window pass leaves the cap fields null exactly for a facility
    without night service during the night window, and a facility with night
    service always has a cap. *)
Theorem cap_windows_partition (now : civil_time) (central nps : bool) :
  valid_time now ->
  in_day now = negb (in_night now)
  /\ (cap_of now central nps = (None, None) <-> nps = false /\ in_night now = true)
  /\ (nps = true -> fst (cap_of now central nps) <> None).
Proof.
  intros (_ & Hh & Hm).
  assert (in_day now = negb (in_night now)) as E.
  { unfold in_day, in_night. destruct now as [w h m]; cbn [wk hh mm] in *. bool_lia. }
  split; [exact E|]. unfold cap_of. rewrite E.
  destruct nps, (in_night now); simpl; intuition (try discriminate; try congruence).
Qed.

Lemma cap_windows_partition_witness :
  cap_of (wednesday 23 15) true false = (None, None).
Proof.
  refine (proj2 (proj1 (proj2 (cap_windows_partition (wednesday 23 15) true false _)))
            (conj eq_refl eq_refl)).
  unfold valid_time; simpl; lia.
Defined.

(** ** The shape of the joined view *)

Lemma join_on_key (a : Avail.row) (i : Info.row) :
  join_on a i = true <-> norm_key (Avail.carpark_number a) = Some (Info.carpark_number i).
Proof.
  unfold join_on. rewrite sql_eqb_true. split.
  - intros (s & H1 & H2). congruence.
  - intros H. eauto.
Qed.

(** Joining on a unique key pairs a left row with at most one right row. *)
Lemma filter_join_unique (a : Avail.row) (info : info_table) :
  NoDup (map Info.carpark_number info) ->
  filter (join_on a) info
  = match find (join_on a) info with
    | Some i => [i]
    | None => []
    end.
Proof.
  induction info as [|i info IH]; intros Hnd; [reflexivity|].
  simpl in Hnd. inversion Hnd as [|? ? Hnot Hnd']; subst. simpl.
  destruct (join_on a i) eqn:E.
  - f_equal. apply join_on_key in E.
    assert (forall x, In x info -> join_on a x = false) as Hno.
    { intros x Hx. destruct (join_on a x) eqn:Ex; [|reflexivity].
      apply join_on_key in Ex. exfalso. apply Hnot.
      assert (Info.carpark_number i = Info.carpark_number x) as -> by congruence.
      now apply in_map. }
    clear -Hno. induction info as [|x info IH]; [reflexivity|]. simpl.
    rewrite (Hno x) by (simpl; auto). apply IH. intros; apply Hno; simpl; auto.
  - now apply IH.
Qed.

Lemma left_join_unique (avail : avail_table) (info : info_table) :
  NoDup (map Info.carpark_number info) ->
  left_join join_on avail info = map (fun a => (a, find (join_on a) info)) avail.
Proof.
  intros Hnd. unfold left_join. induction avail as [|a avail IH]; [reflexivity|].
  cbn [flat_map]. rewrite map_cons, IH, (filter_join_unique a info Hnd).
  destruct (find (join_on a) info); reflexivity.
Qed.

Lemma left_join_pair {A B : Type} (on : A -> B -> bool) (l : list A) (r : list B)
    (a : A) (b : option B) :
  In (a, b) (left_join on l r) ->
  In a l /\ match b with
            | Some x => In x r /\ on a x = true
            | None => forall x, In x r -> on a x = false
            end.
Proof.
  unfold left_join. intros H. apply in_flat_map in H. destruct H as (a' & Ha' & H).
  destruct (filter (on a') r) as [|m ms] eqn:F.
  - destruct H as [H|[]]. inversion H; subst. split; [assumption|].
    intros x Hx. destruct (on a x) eqn:E; [|reflexivity].
    assert (In x (filter (on a) r)) as Hin by (apply filter_In; auto).
    rewrite F in Hin. contradiction.
  - apply in_map_iff in H. destruct H as (x & H & Hx). inversion H; subst.
    split; [assumption|]. rewrite <- F in Hx. apply filter_In in Hx. exact Hx.
Qed.

Lemma priced_row_joined (info : info_table) (a : Avail.row) (i : option Info.row)
    (c : list (option string * option string)) :
  In (a, i) (left_join join_on [a] info) ->
  joined_with info (restore_ev c (priced_join_row (a, i))).
Proof.
  intros H. apply left_join_pair in H. destruct H as [_ H]. destruct i as [i|].
  - left. destruct H as [Hi Hon]. apply join_on_key in Hon. simpl. split; [reflexivity|].
    exists i. auto.
  - right. simpl. repeat split. intros i Hi E. apply join_on_key in E.
    rewrite (H i Hi) in E. discriminate.
Qed.

Lemma left_join_single {A B : Type} (on : A -> B -> bool) (l : list A) (r : list B)
    (a : A) (b : option B) :
  In (a, b) (left_join on l r) -> In (a, b) (left_join on [a] r).
Proof.
  unfold left_join. intros H. apply in_flat_map in H. destruct H as (a' & Ha' & H).
  simpl. rewrite app_nil_r.
  assert (a' = a) as ->; [|exact H].
  destruct (filter (on a') r).
  - destruct H as [H|[]]. now inversion H.
  - apply in_map_iff in H. destruct H as (x & H & _). now inversion H.
Qed.

(** X3.  [rebuild_join_snapshot] leaves, over a metadata table with unique
    carpark_number, exactly one view row per snapshot row, in the same
    order and with the snapshot's five columns; a row has has_info = 1 and
    the attributes and priced columns of the metadata row whose
    carpark_number equals its normalised carpark_number when there is one,
    and has_info = 0 with those columns null when there is none. *)
Theorem rebuild_join_snapshot_shape (db : store) :
  NoDup (map Info.carpark_number (carpark_info db)) ->
  let view := carpark_availability_join (rebuild_join_snapshot db) in
  map view_cols view = map snapshot_cols (carpark_availability db)
  /\ (forall j, In j view -> joined_with (carpark_info db) j)
  /\ (forall j i, In j view -> In i (carpark_info db) ->
                  norm_key (Join.carpark_number j) = Some (Info.carpark_number i) ->
                  view_pricing j = info_pricing i).
Proof.
  intros Hnd view. unfold view. simpl. unfold rebuild_view. repeat split.
  - rewrite (left_join_unique _ _ Hnd), !map_map. apply map_ext. reflexivity.
  - intros j Hj. apply in_map_iff in Hj. destruct Hj as (j0 & <- & Hj).
    apply in_map_iff in Hj. destruct Hj as ([a i] & <- & Hai).
    apply priced_row_joined. eapply left_join_single; eauto.
  - intros j i Hj Hi Hk. apply in_map_iff in Hj. destruct Hj as (j0 & <- & Hj).
    apply in_map_iff in Hj. destruct Hj as ([a i'] & <- & Hai).
    apply left_join_pair in Hai. destruct Hai as [_ Hai]. simpl in Hk.
    destruct i' as [i'|].
    + destruct Hai as [Hi' Hon]. apply join_on_key in Hon.
      assert (i' = i) as ->; [|reflexivity].
      assert (Info.carpark_number i' = Info.carpark_number i) as Ek by congruence.
      clear -Hnd Hi Hi' Ek. induction (carpark_info db) as [|x l IH]; [contradiction|].
      simpl in Hnd. inversion Hnd as [|? ? Hnot Hnd']; subst.
      destruct Hi as [->|Hi], Hi' as [->|Hi']; auto.
      * exfalso. apply Hnot. rewrite <- Ek. now apply in_map.
      * exfalso. apply Hnot. rewrite Ek. now apply in_map.
    + apply (proj2 (join_on_key a i)) in Hk. rewrite (Hai i Hi) in Hk. discriminate.
Qed.

Lemma rebuild_join_snapshot_shape_witness :
  map view_cols (carpark_availability_join (rebuild_join_snapshot kept_store))
  = map snapshot_cols (carpark_availability kept_store).
Proof.
  refine (proj1 (rebuild_join_snapshot_shape kept_store _)).
  repeat constructor. simpl. tauto.
Defined.

Lemma find_none_existsb {A : Type} (f : A -> bool) (l : list A) :
  match find f l with
  | Some _ => existsb f l = true
  | None => existsb f l = false
  end.
Proof.
  induction l as [|a l IH]; simpl; [reflexivity|].
  destruct (f a); simpl; [reflexivity|exact IH].
Qed.

Lemma length_filter_map {A B : Type} (p : B -> bool) (f : A -> B) (l : list A) :
  List.length (filter p (map f l)) = List.length (filter (fun a => p (f a)) l).
Proof.
  induction l as [|a l IH]; simpl; [reflexivity|].
  destruct (p (f a)); simpl; now rewrite IH.
Qed.

(** X4.  Over a metadata table with unique carpark_number,
    [rebuild_join_table] returns total = the number of snapshot rows,
    unmatched = the number of snapshot rows whose normalised carpark_number
    is no metadata key, and matched = total - unmatched; the view it leaves
    has one row per snapshot row, each with the annotation and the four
    priced columns null. *)
Theorem rebuild_join_table_counts (db : store) :
  NoDup (map Info.carpark_number (carpark_info db)) ->
  let view := carpark_availability_join (fst (rebuild_join_table db)) in
  let unmatched :=
    Z.of_nat (List.length (unmatched_rows (carpark_availability db) (carpark_info db))) in
  let total := Z.of_nat (List.length (carpark_availability db)) in
  snd (rebuild_join_table db) = (total - unmatched, unmatched, total)
  /\ 0 <= unmatched <= total
  /\ map view_cols view = map snapshot_cols (carpark_availability db)
  /\ (forall j, In j view ->
                Join.ev_lot_location j = None
                /\ view_pricing j = (None, None, None, None)).
Proof.
  intros Hnd view unmatched total. unfold view, unmatched, total, rebuild_join_table.
  cbn [fst snd carpark_availability_join].
  rewrite (left_join_unique _ _ Hnd), !map_map.
  assert (List.length
            (filter (fun j => Join.has_info j =? 0)
               (map (fun a => plain_join_row (a, find (join_on a) (carpark_info db)))
                  (carpark_availability db)))
          = List.length (unmatched_rows (carpark_availability db) (carpark_info db)))
    as E.
  { rewrite length_filter_map. unfold unmatched_rows. f_equal. apply filter_ext.
    intros a. simpl.
    pose proof (find_none_existsb (join_on a) (carpark_info db)) as H.
    destruct (find (join_on a) (carpark_info db)); rewrite H; reflexivity. }
  rewrite E, length_map. split; [reflexivity|]. split; [|split].
  - split; [lia|]. apply Nat2Z.inj_le. unfold unmatched_rows. apply filter_length_le.
  - apply map_ext. reflexivity.
  - intros j H. apply in_map_iff in H. destruct H as (a & <- & _).
    split; reflexivity.
Qed.

Lemma rebuild_join_table_counts_witness :
  snd (rebuild_join_table kept_store) = (1, 1, 2).
Proof.
  refine (proj1 (rebuild_join_table_counts kept_store _)).
  repeat constructor. simpl. tauto.
Defined.

(** ** The pricing job *)

Lemma in_mapi_from {A B : Type} (f : nat -> A -> B) (l : list A) (y : B) :
  forall i, In y (mapi_from i f l) -> exists n x, In x l /\ y = f n x.
Proof.
  induction l as [|a l IH]; intros i H; [contradiction|].
  destruct H as [<-|H].
  - exists i, a. split; [now left|reflexivity].
  - destruct (IH _ H) as (n & x & Hx & ->). exists n, x. split; [now right|reflexivity].
Qed.

Lemma mark_central_keys (t : info_table) :
  map Info.carpark_number (mark_central_and_base_rates t) = map Info.carpark_number t.
Proof. unfold mark_central_and_base_rates. now rewrite !map_map. Qed.

(** X5.  After the pricing job (classification, time-window pass, rebuild)
    at a valid civil time, over a metadata table with unique
    carpark_number, every view row that has metadata carries the base rate
    of its facility (1.2 on the allow-list, else 0.6) and the current rate
    and cap of the time-window rule for that facility. *)
Theorem update_carpark_rates_prices_view (now : civil_time) (stamp : nat -> string)
    (db : store) (j : Join.row) :
  valid_time now ->
  NoDup (map Info.carpark_number (carpark_info db)) ->
  In j (carpark_availability_join (update_carpark_rates_handler now stamp db)) ->
  Join.has_info j = 1 ->
  exists k,
    norm_key (Join.carpark_number j) = Some k
    /\ Join.carpark_rate j = Some (if in_central k then 1.2%float else 0.6%float)
    /\ Join.current_rate_30min j = Some (spec_rate now (in_central k))
    /\ (Join.active_cap_type j, Join.active_cap_amount j)
       = spec_cap now (in_central k) (nps_of (night_parking (Join.attrs j))).
Proof.
  intros Hv Hnd Hj Hinfo. unfold update_carpark_rates_handler in Hj. simpl in Hj.
  unfold rebuild_view in Hj.
  apply in_map_iff in Hj. destruct Hj as (j0 & <- & Hj).
  apply in_map_iff in Hj. destruct Hj as ([a i] & <- & Hai).
  apply left_join_pair in Hai. destruct Hai as [_ Hai].
  destruct i as [i|]; [|discriminate Hinfo]. destruct Hai as [Hi Hon].
  apply join_on_key in Hon. exists (Info.carpark_number i). split; [exact Hon|].
  unfold refresh_time_dependent_rates in Hi.
  change (map _ (mark_central_and_base_rates (carpark_info db)))
    with (map selected (mark_central_and_base_rates (carpark_info db))) in Hi.
  change (refresh_loop now stamp 0 ?rows ?t)
    with (refresh_loop now stamp 0 rows ([] ++ t)) in Hi.
  rewrite refresh_loop_done in Hi
    by (simpl; now rewrite mark_central_keys).
  simpl in Hi. apply in_mapi_from in Hi. destruct Hi as (n & r1 & Hr1 & ->).
  rewrite mark_central_map in Hr1.
  apply in_map_iff in Hr1. destruct Hr1 as (r & <- & _).
  unfold code_priced. rewrite current_rate_spec, cap_spec by assumption.
  unfold classified, set_pricing, restore_ev, set_ev, priced_join_row.
  cbn [Info.carpark_number Info.attrs Info.is_central Info.carpark_rate
       Info.current_rate_30min Info.active_cap_type Info.active_cap_amount
       Join.carpark_number Join.carpark_rate Join.current_rate_30min
       Join.active_cap_type Join.active_cap_amount Join.attrs col attrs_of].
  generalize (in_central (Info.carpark_number r)). intros c.
  destruct c; repeat split; try reflexivity;
    destruct (spec_cap now _ _); reflexivity.
Qed.

Lemma update_carpark_rates_prices_view_witness :
  exists k,
    norm_key (Join.carpark_number (hd (view_row "X" "C" None) priced_view)) = Some k
    /\ Join.carpark_rate (hd (view_row "X" "C" None) priced_view)
       = Some (if in_central k then 1.2%float else 0.6%float)
    /\ Join.current_rate_30min (hd (view_row "X" "C" None) priced_view)
       = Some (spec_rate (wednesday 10 0) (in_central k))
    /\ (Join.active_cap_type (hd (view_row "X" "C" None) priced_view),
        Join.active_cap_amount (hd (view_row "X" "C" None) priced_view))
       = spec_cap (wednesday 10 0) (in_central k)
           (nps_of (night_parking (Join.attrs (hd (view_row "X" "C" None) priced_view)))).
Proof.
  refine (update_carpark_rates_prices_view (wednesday 10 0)
            (fun _ => "2025-01-01T02:00:00Z") priced_store
            (hd (view_row "X" "C" None) priced_view) _ _ _ _).
  - unfold valid_time; simpl; lia.
  - repeat constructor. simpl. tauto.
  - left. reflexivity.
  - reflexivity.
Defined.

(** ** When a cycle raises, and what it counts *)





Lemma upsert_committed_stats (strict ok legacy : bool) (T : string) (db db' : store)
    (p : payload) (st : upsert_stats) :
  upsert strict ok legacy T db p = Committed db' st ->
  exists s,
    for_each (process_carpark ok T) (carparks_of p)
      {| tx_legacy := legacy; tx_avail := carpark_availability db;
         tx_hist := carpark_availability_history db; tx_history_inserts := 0 |}
    = Some s
    /\ carpark_availability_history db' = tx_hist s
    /\ history_inserts st = tx_history_inserts s
    /\ snapshot_rows st = Z.of_nat (List.length (carpark_availability db'))
    /\ seen_carparks st = Z.of_nat (List.length (carparks_of p))
    /\ mirror_deleted st
       = Z.of_nat (List.length (tx_avail s))
         - Z.of_nat (List.length (carpark_availability db'))
    /\ (List.length (carpark_availability db') <= List.length (tx_avail s))%nat
    /\ (strict = false -> carpark_availability db' = tx_avail s).
Proof.
  unfold upsert. intros H.
  destruct (for_each _ _ _) as [s|]; [|discriminate].
  exists s. destruct strict; inversion H; subst; simpl; repeat split; try lia;
    try apply filter_length_le.
  - assert (forall t,
               List.length (filter (fun r => String.ltb (Avail.last_seen_at r) T) t)
               + List.length
                   (filter (fun r => negb (String.ltb (Avail.last_seen_at r) T)) t)
               = List.length t)%nat as E.
    { induction t as [|r t IH]; [reflexivity|]. simpl.
      destruct (String.ltb (Avail.last_seen_at r) T); simpl; lia. }
    specialize (E (tx_avail s)). lia.
Qed.

Lemma process_infos_counted (ok : bool) (cp_no upd : option string) (T : string)
    (infos : list lot_info) :
  forall s s',
    for_each (process_info ok cp_no upd T) infos s = Some s' ->
    counted (List.length (tx_hist s)) (tx_history_inserts s) (List.length infos) s'.
Proof.
  induction infos as [|info infos IH]; intros s s' H; simpl in H.
  - inversion H; subst. unfold counted. simpl. lia.
  - unfold bind in H.
    destruct (process_info ok cp_no upd T s info) as [s1|] eqn:E; [|discriminate].
    apply IH in H. apply process_info_some in E.
    destruct E as (z & _ & _ & Hh & Hn). unfold counted in *.
    rewrite Hh, Hn in H. unfold insert_or_ignore in H.
    destruct (existsb _ (tx_hist s)); simpl in H;
      rewrite ?length_app in H; simpl in H; simpl; lia.
Qed.

Lemma process_carparks_counted (ok : bool) (T : string) (cps : list carpark) :
  forall s s',
    for_each (process_carpark ok T) cps s = Some s' ->
    counted (List.length (tx_hist s)) (tx_history_inserts s)
      (List.length (flat_map infos_of cps)) s'.
Proof.
  induction cps as [|cp cps IH]; intros s s' H; simpl in H.
  - inversion H; subst. unfold counted. simpl. lia.
  - unfold bind in H.
    destruct (process_carpark ok T s cp) as [s1|] eqn:E; [|discriminate].
    apply IH in H. unfold process_carpark in E. apply process_infos_counted in E.
    unfold counted in *. simpl. rewrite length_app. lia.
Qed.

Lemma observed_keys_length (p : payload) :
  List.length (observed_keys p) = List.length (flat_map infos_of (carparks_of p)).
Proof.
  unfold observed_keys. generalize (carparks_of p). intros l.
  induction l as [|cp l IH]; [reflexivity|].
  cbn [flat_map]. now rewrite !length_app, length_map, IH.
Qed.

(** X7.  A committed cycle reports what it did: history_inserts is the
    number of rows by which the history table grew, between 0 and the
    number of lot entries of the payload; snapshot_rows is the size of the
    snapshot table it leaves; seen_carparks the number of carparks of the
    payload; mirror_deleted is never negative, and 0 with the table left as
    the upserts made it when strict mirror is off. *)
Theorem upsert_counts (strict ok legacy : bool) (T : string) (db db' : store)
    (p : payload) (st : upsert_stats) :
  upsert strict ok legacy T db p = Committed db' st ->
  Z.of_nat (List.length (carpark_availability_history db'))
  = Z.of_nat (List.length (carpark_availability_history db)) + history_inserts st
  /\ 0 <= history_inserts st <= Z.of_nat (List.length (observed_keys p))
  /\ snapshot_rows st = Z.of_nat (List.length (carpark_availability db'))
  /\ seen_carparks st = Z.of_nat (List.length (carparks_of p))
  /\ 0 <= mirror_deleted st
  /\ (strict = false -> mirror_deleted st = 0).
Proof.
  intros H. apply upsert_committed_stats in H.
  destruct H as (s & Hloop & Hh & Hn & Hrows & Hseen & Hdel & Hle & Hoff).
  apply process_carparks_counted in Hloop. unfold counted in Hloop. simpl in Hloop.
  pose proof (observed_keys_length p) as El.
  rewrite Hh, Hn, El. repeat split; try lia.
  intros E. rewrite Hdel, (Hoff E). lia.
Qed.

Lemma upsert_counts_witness :
  Z.of_nat (List.length (carpark_availability_history (committed_store (second_cycle true))))
  = Z.of_nat (List.length (carpark_availability_history store_after_hlm))
    + history_inserts (committed_value (second_cycle true) no_stats).
Proof.
  exact (proj1 (upsert_counts true true false "2025-01-01T01:10:05Z" store_after_hlm
                  (committed_store (second_cycle true))
                  (one_lot "ACB" (Some "2025-01-01T09:09:00") "7")
                  (committed_value (second_cycle true) no_stats) eq_refl)).
Defined.

(** ** Rows that outlive a cycle *)

Lemma continues_refl (r : Avail.row) : continues r r.
Proof. split; auto. Qed.

Lemma continues_trans (r1 r2 r3 : Avail.row) :
  continues r1 r2 -> continues r2 r3 -> continues r1 r3.
Proof.
  intros [K1 T1] [K2 T2]. split; [congruence|].
  intros H. rewrite T2, T1; auto. rewrite T1; auto.
Qed.

Lemma do_update_set_continues (r new : Avail.row) : continues r (do_update_set r new).
Proof.
  split; [reflexivity|]. simpl. destruct (Avail.total_lots r); [reflexivity|congruence].
Qed.

Lemma insert_on_conflict_continues (t : avail_table) (new r : Avail.row) :
  In r t -> exists r', In r' (insert_on_conflict t new) /\ continues r r'.
Proof.
  induction t as [|a t IH]; intros Hin; [contradiction|]. simpl.
  destruct (key_match (Avail.carpark_number new) (Avail.lot_type new) a).
  - destruct Hin as [->|Hin].
    + exists (do_update_set r new). split; [now left|apply do_update_set_continues].
    + exists r. split; [now right|apply continues_refl].
  - destruct Hin as [->|Hin].
    + exists r. split; [now left|apply continues_refl].
    + destruct (IH Hin) as (r' & H1 & H2). exists r'. split; [now right|assumption].
Qed.

Lemma legacy_upsert_continues (t : avail_table) (o : observation) (r : Avail.row) :
  In r t -> exists r', In r' (legacy_upsert t o) /\ continues r r'.
Proof.
  intros Hin. unfold legacy_upsert, sql_update.
  exists (if key_match (o_cp_no o) (o_lot_type o) r then legacy_set o r else r).
  split.
  - assert (In (if key_match (o_cp_no o) (o_lot_type o) r then legacy_set o r else r)
              (map (fun r => if key_match (o_cp_no o) (o_lot_type o) r
                             then legacy_set o r else r) t)) as H
        by (apply in_map_iff; eauto).
    destruct (Nat.eqb _ 0); [apply in_or_app; now left|assumption].
  - destruct (key_match (o_cp_no o) (o_lot_type o) r); [|apply continues_refl].
    rewrite do_update_set_legacy. apply do_update_set_continues.
Qed.

Lemma upsert_snapshot_continues (ok legacy : bool) (t : avail_table) (o : observation)
    (r : Avail.row) :
  In r t -> exists r', In r' (snd (upsert_snapshot ok legacy t o)) /\ continues r r'.
Proof.
  intros Hin. unfold upsert_snapshot.
  destruct legacy, ok; simpl;
    first [now apply insert_on_conflict_continues|now apply legacy_upsert_continues].
Qed.

(** X8.  A committed cycle with strict mirror off removes nothing: every
    row of the snapshot table before it has a row of the same key after it,
    and a total_lots that was set is still the same, whatever the payload
    supplied. *)
Theorem upsert_keeps_rows (ok legacy : bool) (T : string) (db db' : store)
    (p : payload) (st : upsert_stats) (r : Avail.row) :
  upsert false ok legacy T db p = Committed db' st ->
  In r (carpark_availability db) ->
  exists r', In r' (carpark_availability db') /\ continues r r'.
Proof.
  intros H Hr. apply upsert_committed in H. destruct H as (s & Hloop & Ha & _).
  rewrite Ha.
  refine (for_each_inv (fun s => exists r', In r' (tx_avail s) /\ continues r r')
            (process_carpark ok T) _ (carparks_of p) _ s _ Hloop).
  - intros s0 cp s0' H0 Hc. unfold process_carpark in Hc.
    refine (for_each_inv (fun s => exists r', In r' (tx_avail s) /\ continues r r')
              _ _ (infos_of cp) s0 s0' H0 Hc).
    intros s1 info s1' (r1 & Hr1 & Hc1) Hi. apply process_info_some in Hi.
    destruct Hi as (z & _ & Hav & _). rewrite Hav.
    destruct (upsert_snapshot_continues ok (tx_legacy s1) (tx_avail s1)
                (obs_of (cp_carpark_number cp) (cp_update_datetime cp) T info z) r1 Hr1)
      as (r2 & Hr2 & Hc2).
    exists r2. split; [assumption|]. eapply continues_trans; eauto.
  - exists r. split; [assumption|apply continues_refl].
Qed.

Lemma upsert_keeps_rows_witness :
  exists r',
    In r' (carpark_availability (committed_store (second_cycle false)))
    /\ continues (hd (inserted_row obs0) (carpark_availability store_after_hlm)) r'.
Proof.
  refine (upsert_keeps_rows true false "2025-01-01T01:10:05Z" store_after_hlm
            (committed_store (second_cycle false))
            (one_lot "ACB" (Some "2025-01-01T09:09:00") "7")
            (committed_value (second_cycle false) no_stats)
            (hd (inserted_row obs0) (carpark_availability store_after_hlm))
            eq_refl _).
  left. reflexivity.
Defined.

(** ** Replaying a payload *)

Lemma existsb_app_l {A : Type} (f : A -> bool) (l more : list A) :
  existsb f l = true -> existsb f (l ++ more) = true.
Proof. intros H. rewrite existsb_app, H. reflexivity. Qed.

Lemma probe_self (cp : carpark) (info : lot_info) :
  complete_triple cp info -> hist_conflict (probe cp info) (probe cp info) = true.
Proof.
  intros (H1 & H2 & H3). unfold hist_conflict, probe. simpl.
  destruct (cp_carpark_number cp), (cp_update_datetime cp), (li_lot_type info);
    try congruence.
  simpl. now rewrite !String.eqb_refl.
Qed.

Lemma process_info_records (ok : bool) (T : string) (cp : carpark) (s s' : txn)
    (info : lot_info) :
  process_info ok (cp_carpark_number cp) (cp_update_datetime cp) T s info = Some s' ->
  recorded cp info s'.
Proof.
  intros H Hc. apply process_info_some in H. destruct H as (z & _ & _ & Hh & _).
  rewrite Hh. unfold insert_or_ignore.
  change (hist_conflict
            (hist_row_of (obs_of (cp_carpark_number cp) (cp_update_datetime cp) T info z)))
    with (hist_conflict (probe cp info)).
  destruct (existsb (hist_conflict (probe cp info)) (tx_hist s)) eqn:E; simpl.
  - exact E.
  - rewrite existsb_app. simpl.
    change (hist_conflict (probe cp info)
              (hist_row_of (obs_of (cp_carpark_number cp) (cp_update_datetime cp) T info z)))
      with (hist_conflict (probe cp info) (probe cp info)).
    rewrite (probe_self cp info Hc). now rewrite orb_true_r.
Qed.

Lemma process_info_keeps_recorded (ok : bool) (cp_no upd : option string) (T : string)
    (cp : carpark) (i : lot_info) (s s' : txn) (info : lot_info) :
  recorded cp i s ->
  process_info ok cp_no upd T s info = Some s' ->
  recorded cp i s'.
Proof.
  intros Hrec H Hc. apply process_info_some in H. destruct H as (z & _ & _ & Hh & _).
  rewrite Hh.
  destruct (insert_or_ignore_extends (tx_hist s) (hist_row_of (obs_of cp_no upd T info z)))
    as (more & ->).
  apply existsb_app_l. now apply Hrec.
Qed.

Lemma process_carpark_keeps_recorded (ok : bool) (T : string) (cp : carpark)
    (i : lot_info) (s s' : txn) (x : carpark) :
  recorded cp i s -> process_carpark ok T s x = Some s' -> recorded cp i s'.
Proof.
  intros Hrec H. unfold process_carpark in H.
  refine (for_each_inv (recorded cp i) _ _ (infos_of x) s s' Hrec H).
  intros s0 info s0' H0 Hi. eapply process_info_keeps_recorded; eauto.
Qed.

Lemma cycle_records (ok : bool) (T : string) (p : payload) (s s' : txn) :
  for_each (process_carpark ok T) (carparks_of p) s = Some s' ->
  forall cp info, In cp (carparks_of p) -> In info (infos_of cp) -> recorded cp info s'.
Proof.
  intros H cp info Hcp Hinfo. revert info Hinfo.
  refine (for_each_establish
            (fun cp s => forall info, In info (infos_of cp) -> recorded cp info s)
            (process_carpark ok T) _ _ (carparks_of p) s s' H cp Hcp).
  - intros s0 x s0' H0. unfold process_carpark in H0.
    exact (for_each_establish (fun info s => recorded x info s) _
             (fun s1 i s1' Hi => process_info_records ok T x s1 s1' i Hi)
             (fun s1 i y s1' Hy Hi =>
                process_info_keeps_recorded ok _ _ T x y s1 s1' i Hy Hi)
             (infos_of x) s0 s0' H0).
  - intros s0 x y s0' Hy H0 info Hinfo.
    eapply process_carpark_keeps_recorded; eauto.
Qed.

(** X9.  Replaying a payload adds no history: after a committed cycle,
    every lot entry of the payload that carries carpark_number, lot_type
    and update_datetime has a history row with these three values, whatever
    the other entries carry; and when all entries carry them, a later
    committed cycle fed the same payload leaves the history table as it is
    and reports history_inserts = 0, whatever its own timestamp. *)
Theorem upsert_replay_adds_no_history (s1 ok1 l1 : bool) (T1 : string)
    (db db1 : store) (p : payload) (st1 : upsert_stats) :
  upsert s1 ok1 l1 T1 db p = Committed db1 st1 ->
  (forall cp info, In cp (carparks_of p) -> In info (infos_of cp) ->
                   complete_triple cp info ->
                   exists r, In r (carpark_availability_history db1)
                             /\ hist_key r
                                = (cp_carpark_number cp, li_lot_type info,
                                   cp_update_datetime cp))
  /\ ((forall cp info, In cp (carparks_of p) -> In info (infos_of cp) ->
                       complete_triple cp info) ->
      forall (s2 ok2 l2 : bool) (T2 : string) (db2 : store) (st2 : upsert_stats),
        upsert s2 ok2 l2 T2 db1 p = Committed db2 st2 ->
        carpark_availability_history db2 = carpark_availability_history db1
        /\ history_inserts st2 = 0).
Proof.
  intros H1.
  apply upsert_committed in H1. destruct H1 as (t1 & Hloop1 & _ & Hh1 & _).
  pose proof (cycle_records ok1 T1 p _ t1 Hloop1) as Hrec.
  unfold recorded in Hrec. rewrite <- Hh1 in Hrec.
  split.
  - intros cp info Hcp Hinfo Hc. specialize (Hrec cp info Hcp Hinfo Hc).
    apply existsb_exists in Hrec.
    destruct Hrec as (r & Hr & Hcf). exists r. split; [assumption|].
    apply hist_conflict_iff in Hcf. destruct Hcf as (c & l & u & _ & E). exact E.
  - intros Hc s2 ok2 l2 T2 db2 st2 H2.
    apply upsert_committed_stats in H2.
    destruct H2 as (t2 & Hloop2 & Hh2 & Hn2 & _).
    rewrite Hh2, Hn2.
    refine (for_each_inv_in
              (fun s => tx_hist s = carpark_availability_history db1
                        /\ tx_history_inserts s = 0)
              (process_carpark ok2 T2) (carparks_of p) _ _ t2 _ Hloop2);
      [|split; reflexivity].
    intros s0 cp s0' Hcp H0 Hcar. unfold process_carpark in Hcar.
    refine (for_each_inv_in
              (fun s => tx_hist s = carpark_availability_history db1
                        /\ tx_history_inserts s = 0)
              _ (infos_of cp) _ s0 s0' H0 Hcar).
    intros s3 info s3' Hinfo [E3 N3] Hi. apply process_info_some in Hi.
    destruct Hi as (z & _ & _ & Hh & Hn). rewrite Hh, Hn, E3, N3.
    unfold insert_or_ignore.
    change (hist_conflict
              (hist_row_of
                 (obs_of (cp_carpark_number cp) (cp_update_datetime cp) T2 info z)))
      with (hist_conflict (probe cp info)).
    rewrite (Hrec cp info Hcp Hinfo (Hc cp info Hcp Hinfo)). split; reflexivity.
Qed.

Lemma upsert_replay_adds_no_history_witness :
  carpark_availability_history
    (committed_store
       (upsert true true false "2025-01-01T01:10:05Z" store_after_hlm
          (one_lot "HLM" (Some "2025-01-01T09:04:00") "5")))
  = carpark_availability_history store_after_hlm.
Proof.
  refine (proj1 (proj2
                   (upsert_replay_adds_no_history true true false
                      "2025-01-01T01:05:05Z" empty_store store_after_hlm
                      (one_lot "HLM" (Some "2025-01-01T09:04:00") "5")
                      (committed_value
                         (upsert true true false "2025-01-01T01:05:05Z" empty_store
                            (one_lot "HLM" (Some "2025-01-01T09:04:00") "5")) no_stats)
                      eq_refl)
                   _ true true false "2025-01-01T01:10:05Z" _
                   (committed_value
                      (upsert true true false "2025-01-01T01:10:05Z" store_after_hlm
                         (one_lot "HLM" (Some "2025-01-01T09:04:00") "5")) no_stats)
                   eq_refl)).
  intros cp info [<-|[]] [<-|[]]. repeat split; discriminate.
Defined.

(** ** Loading the metadata *)

Lemma load_loop_distinct (now : string) (records : list record_obj) :
  forall t rows,
    NoDup (map Info.carpark_number t ++ loaded_keys records) ->
    load_loop now records t rows
    = Some (t ++ loaded_rows now records,
            rows + Z.of_nat (List.length (loaded_rows now records))).
Proof.
  unfold loaded_keys, loaded_rows.
  induction records as [|rec records IH]; intros t rows Hnd; simpl.
  - rewrite app_nil_r. f_equal. f_equal. lia.
  - unfold has_key at 1 3 4. destruct (String.eqb (record_key rec) EmptyString) eqn:E;
      simpl in *.
    + unfold has_key in Hnd at 1. rewrite E in Hnd. simpl in Hnd. now apply IH.
    + unfold has_key in Hnd at 1. rewrite E in Hnd. simpl in Hnd.
      pose proof (NoDup_remove_2 _ _ _ Hnd) as Hnot.
      assert (existsb (fun r => String.eqb (Info.carpark_number r) (record_key rec)) t
              = false) as ->.
      { apply existsb_false_forall. intros r Hr. apply String.eqb_neq. intros Ek.
        apply Hnot. apply in_or_app. left. rewrite <- Ek. now apply in_map. }
      rewrite IH.
      * rewrite <- app_assoc. simpl. f_equal. f_equal. lia.
      * rewrite map_app. simpl. now rewrite <- app_assoc.
Qed.

Lemma load_loop_duplicate (now : string) (records : list record_obj) :
  forall t rows,
    NoDup (map Info.carpark_number t) ->
    ~ NoDup (map Info.carpark_number t ++ loaded_keys records) ->
    load_loop now records t rows = None.
Proof.
  unfold loaded_keys.
  induction records as [|rec records IH]; intros t rows Ht Hdup; simpl.
  - exfalso. apply Hdup. simpl. now rewrite app_nil_r.
  - simpl in Hdup. unfold has_key in Hdup at 1.
    destruct (String.eqb (record_key rec) EmptyString) eqn:E; simpl in Hdup.
    + now apply IH.
    + destruct (existsb _ t) eqn:Ex; [reflexivity|].
      pose proof (proj1 (existsb_false_forall _ _) Ex) as Hno.
      apply IH.
      * rewrite map_app. simpl. apply NoDup_app; [assumption|repeat constructor; now intros []|].
        intros k Hk [<-|[]]. apply in_map_iff in Hk. destruct Hk as (r & Hr & Hin).
        specialize (Hno r Hin). simpl in Hno. apply String.eqb_neq in Hno. now apply Hno.
      * rewrite map_app. simpl. now rewrite <- app_assoc.
Qed.

(** X10.  On records whose car_park_no and carpark_number are ASCII
    texts, [load_info_into_sqlite] replaces the metadata table by one row
    for each record that has a key (car_park_no, else carpark_number,
    stripped and upper-cased, not empty), in the order of the records, and
    returns their number, when these keys are pairwise distinct; when two
    records have the same key it rolls back.  Records without a key are
    skipped. *)
Theorem load_info_replaces (now : string) (db : store) (records : list record_obj) :
  Forall (fun rec => ascii_key rec = true) records ->
  (NoDup (loaded_keys records) ->
   load_info_into_sqlite now db records
   = Committed (with_info db (loaded_rows now records))
       (Z.of_nat (List.length (loaded_rows now records))))
  /\ (~ NoDup (loaded_keys records) ->
      load_info_into_sqlite now db records = RolledBack).
Proof.
  intros _. unfold load_info_into_sqlite. split; intros H.
  - now rewrite (load_loop_distinct now records [] 0 H).
  - rewrite (load_loop_duplicate now records [] 0); [reflexivity|constructor|exact H].
Qed.

Lemma load_info_replaces_witness :
  load_info_into_sqlite "2025-01-02T00:00:00Z" priced_store
    [record0; [("address", Some "nowhere")]]
  = Committed (with_info priced_store [info_row_of "2025-01-02T00:00:00Z" record0]) 1.
Proof.
  refine (proj1 (load_info_replaces "2025-01-02T00:00:00Z" priced_store
                   [record0; [("address", Some "nowhere")]] _) _).
  - repeat constructor.
  - repeat constructor. intros [].
Defined.

(** ** Fetching the metadata pages *)

Lemma firstn_add_skipn {A : Type} (n m : nat) (l : list A) :
  firstn n l ++ firstn m (skipn n l) = firstn (n + m) l.
Proof.
  revert l. induction n as [|n IH]; intros l; [reflexivity|].
  destruct l as [|a l]; simpl.
  - now rewrite firstn_nil.
  - now rewrite IH.
Qed.

Lemma fetch_loop_serves (fs : list string) (data : list record_obj)
    (get : nat -> nat -> option page) (page_size : nat) :
  (0 < page_size)%nat ->
  serves fs data get ->
  forall fuel offset fields,
    (List.length data - offset < fuel)%nat ->
    (offset <= List.length data)%nat ->
    fetch_loop fuel get page_size offset fields (firstn offset data)
    = Fetched (match fields with
               | Some f => f
               | None => filter (fun f => negb (String.eqb f "_id")) fs
               end) data.
Proof.
  intros Hps Hget. induction fuel as [|fuel IH]; intros offset fields Hfuel Hoff; [lia|].
  cbn [fetch_loop]. rewrite Hget. cbn [pg_fields pg_records].
  destruct (firstn page_size (skipn offset data)) as [|r rs] eqn:E.
  - assert (skipn offset data = []) as Es.
    { destruct (skipn offset data); [reflexivity|].
      destruct page_size; [lia|discriminate]. }
    rewrite <- (firstn_skipn offset data) at 2. rewrite Es, app_nil_r.
    destruct fields; reflexivity.
  - rewrite <- E.
    destruct (List.length (firstn page_size (skipn offset data)) <? page_size)%nat eqn:L.
    + apply Nat.ltb_lt in L.
      assert (firstn page_size (skipn offset data) = skipn offset data) as ->.
      { apply firstn_all2. rewrite length_firstn in L. lia. }
      rewrite firstn_skipn. destruct fields; reflexivity.
    + apply Nat.ltb_ge in L. rewrite length_firstn in L.
      rewrite length_skipn in L.
      assert (List.length (firstn page_size (skipn offset data)) = page_size) as El
          by (rewrite length_firstn, length_skipn; lia).
      rewrite El, firstn_add_skipn.
      rewrite IH by lia. destruct fields; reflexivity.
Qed.

(** X11.  Against a datastore that serves a record list by limit and
    offset, [fetch_info_records] with a positive page size returns the
    whole list, in order, with the field ids other than _id, and it does so
    within one request more than there are records. *)
Theorem fetch_info_records_all (fs : list string) (data : list record_obj)
    (get : nat -> nat -> option page) (page_size fuel : nat) :
  (0 < page_size)%nat ->
  serves fs data get ->
  (List.length data < fuel)%nat ->
  fetch_info_records fuel get page_size
  = Fetched (filter (fun f => negb (String.eqb f "_id")) fs) data.
Proof.
  intros Hps Hget Hfuel. unfold fetch_info_records.
  exact (fetch_loop_serves fs data get page_size Hps Hget fuel 0 None
           ltac:(lia) ltac:(lia)).
Qed.

Lemma fetch_info_records_all_witness :
  fetch_info_records 4
    (fun limit offset =>
       Some {| pg_fields := ["_id"; "car_park_no"; "address"];
               pg_records := firstn limit (skipn offset [record0; record0; record0]) |})
    2
  = Fetched ["car_park_no"; "address"] [record0; record0; record0].
Proof.
  refine (fetch_info_records_all ["_id"; "car_park_no"; "address"]
            [record0; record0; record0] _ 2 4 _ _ _).
  - lia.
  - intros limit offset. reflexivity.
  - simpl. lia.
Defined.

(** ** The mapping read from the sheet *)

Lemma dict_get_app (m : list (string * string)) (cp ev k : string) :
  dict_get (m ++ [(cp, ev)]) k
  = match dict_get m k with
    | Some v => Some v
    | None => if String.eqb cp k then Some ev else None
    end.
Proof.
  unfold dict_get. induction m as [|[a b] m IH]; simpl.
  - destruct (String.eqb cp k); reflexivity.
  - destruct (String.eqb a k); [reflexivity|exact IH].
Qed.

Lemma dict_get_none (m : list (string * string)) (k : string) :
  existsb (fun kv => String.eqb (fst kv) k) m = false -> dict_get m k = None.
Proof.
  unfold dict_get. induction m as [|[a b] m IH]; simpl; [reflexivity|].
  destruct (String.eqb a k); [discriminate|exact IH].
Qed.

Lemma dict_get_some (m : list (string * string)) (k : string) :
  existsb (fun kv => String.eqb (fst kv) k) m = true -> exists v, dict_get m k = Some v.
Proof.
  unfold dict_get. induction m as [|[a b] m IH]; simpl; [discriminate|].
  destruct (String.eqb a k); [intros _; now exists b|exact IH].
Qed.

Lemma load_ev_rows_get (rows : list (option string * option string)) (k : string) :
  k <> EmptyString ->
  forall m,
    dict_get (load_ev_rows rows m) k
    = match dict_get m k with
      | Some v => Some v
      | None => first_text rows k
      end.
Proof.
  intros Hk. unfold first_text.
  induction rows as [|[c e] rows IH]; intros m.
  - simpl. now destruct (dict_get m k).
  - cbn [load_ev_rows find]. cbv zeta.
    change (py_upper (py_strip match c with Some s => s | None => EmptyString end))
      with (ev_key (c, e)).
    change (py_strip match e with Some s => s | None => EmptyString end)
      with (ev_text (c, e)).
    destruct (String.eqb (ev_key (c, e)) EmptyString) eqn:Eb.
    + rewrite IH. apply String.eqb_eq in Eb.
      assert (String.eqb (ev_key (c, e)) k = false) as ->; [|reflexivity].
      apply String.eqb_neq. congruence.
    + destruct (existsb (fun kv => String.eqb (fst kv) (ev_key (c, e))) m) eqn:Ex;
        cbn [negb andb].
      * rewrite IH. destruct (dict_get m k) eqn:G; [reflexivity|].
        destruct (String.eqb (ev_key (c, e)) k) eqn:Ek; [|reflexivity].
        apply String.eqb_eq in Ek. rewrite Ek in Ex.
        destruct (dict_get_some m k Ex) as (v & Hv). congruence.
      * destruct (String.eqb (ev_text (c, e)) EmptyString) eqn:Et; cbn [negb].
        -- rewrite IH. now rewrite andb_false_r.
        -- rewrite IH, dict_get_app, andb_true_r.
           destruct (dict_get m k); [reflexivity|].
           destruct (String.eqb (ev_key (c, e)) k); reflexivity.
Qed.

Lemma load_ev_rows_keys (rows : list (option string * option string)) :
  forall m,
    NoDup (map fst m) -> (forall kv, In kv m -> fst kv <> EmptyString) ->
    NoDup (map fst (load_ev_rows rows m))
    /\ (forall kv, In kv (load_ev_rows rows m) -> fst kv <> EmptyString).
Proof.
  induction rows as [|[c e] rows IH]; intros m Hnd Hne; [now split|].
  cbn [load_ev_rows]. cbv zeta.
  change (py_upper (py_strip match c with Some s => s | None => EmptyString end))
    with (ev_key (c, e)).
  change (py_strip match e with Some s => s | None => EmptyString end)
    with (ev_text (c, e)).
  destruct (String.eqb (ev_key (c, e)) EmptyString) eqn:Eb; [now apply IH|].
  destruct (existsb _ m) eqn:Ex; cbn [negb andb]; [now apply IH|].
  destruct (String.eqb (ev_text (c, e)) EmptyString) eqn:Et; cbn [negb];
    [now apply IH|].
  apply IH.
  - rewrite map_app. simpl. apply NoDup_app; [assumption|repeat constructor; now intros []|].
    intros k Hk [<-|[]]. apply in_map_iff in Hk. destruct Hk as (kv & Hkv & Hin).
    pose proof (proj1 (existsb_false_forall _ _) Ex kv Hin) as Hno. simpl in Hno.
    apply String.eqb_neq in Hno. now apply Hno.
  - intros kv Hkv. apply in_app_or in Hkv. destruct Hkv as [Hkv|[<-|[]]]; auto.
    simpl. now apply String.eqb_neq.
Qed.

(** X12.  From rows of the sheet whose cells are ASCII texts, the mapping
    [_load_ev_mapping_csv] builds has one entry per carpark, none with an
    empty key or a blank text, and gives each carpark the stripped text of
    the first row of that carpark that has one (rows without a key or
    without a text are ignored). *)
Theorem load_ev_rows_first_wins (rows : list (option string * option string)) :
  Forall (fun row => ascii_row row = true) rows ->
  NoDup (map fst (load_ev_rows rows []))
  /\ (forall kv, In kv (load_ev_rows rows []) -> fst kv <> EmptyString)
  /\ values_non_blank (load_ev_rows rows [])
  /\ (forall k, k <> EmptyString ->
                dict_get (load_ev_rows rows []) k = first_text rows k).
Proof.
  intros _.
  destruct (load_ev_rows_keys rows [] (NoDup_nil _) (fun kv H => match H with end))
    as [H1 H2].
  repeat split; auto.
  - apply loaded_mapping_non_blank. intros e [].
  - intros k Hk. now rewrite (load_ev_rows_get rows k Hk []).
Qed.

Lemma load_ev_rows_first_wins_witness :
  dict_get
    (load_ev_rows
       [(Some " acb ", Some "Deck 1"); (None, Some "Deck 9"); (Some "ACB", Some "Deck 2")]
       [])
    "ACB"
  = Some "Deck 1".
Proof.
  refine (eq_trans
            (proj2 (proj2 (proj2
               (load_ev_rows_first_wins
                  [(Some " acb ", Some "Deck 1"); (None, Some "Deck 9");
                   (Some "ACB", Some "Deck 2")] _)))
               "ACB" _)
            eq_refl).
  - repeat constructor.
  - discriminate.
Defined.

(** ** What the annotation merge touches *)

(** X13.  [_apply_ev_mapping] changes nothing but ev_lot_location: the
    view keeps its rows, in order, with every other column as it was; it
    reports the number of rows as total_rows and the number of rows whose
    annotation was null or blank as defaulted_set_this_run, and never more
    rows with an annotation than rows. *)
Theorem apply_ev_mapping_frame (mapping : list (string * string)) (default_text : string)
    (v : join_table) :
  let res := _apply_ev_mapping mapping default_text v in
  map (set_ev None) (fst res) = map (set_ev None) v
  /\ total_rows (snd res) = List.length v
  /\ defaulted_set_this_run (snd res)
     = List.length (filter (fun j => is_blank (Join.ev_lot_location j)) v)
  /\ (with_ev_location (snd res) <= total_rows (snd res))%nat.
Proof.
  intros res.
  assert (fst res = map (merged_row mapping default_text) v) as Hrows
      by apply apply_ev_mapping_rows.
  unfold res, _apply_ev_mapping, sql_update in *.
  destruct (apply_entries mapping _ 0%nat) as [v2 updates]. simpl in *.
  subst v2. repeat split.
  - rewrite map_map. apply map_ext. intros j. reflexivity.
  - apply length_map.
  - apply filter_length_le.
Qed.

(** X14.  After a run whose default text is not blank and whose mapping
    has no blank text, no row of the view is left with a null or blank
    annotation. *)
Theorem apply_ev_mapping_fills (mapping : list (string * string)) (default_text : string)
    (v : join_table) (j : Join.row) :
  is_blank (Some default_text) = false ->
  values_non_blank mapping ->
  In j (fst (_apply_ev_mapping mapping default_text v)) ->
  is_blank (Join.ev_lot_location j) = false.
Proof.
  intros Hd Hm Hj. rewrite apply_ev_mapping_rows in Hj.
  apply in_map_iff in Hj. destruct Hj as (j0 & <- & _).
  unfold merged_row. cbn [Join.ev_lot_location set_ev].
  destruct (after_entries_cases mapping (norm_key (Join.carpark_number j0)))
    as [Hid|(e & He & Hc)].
  - rewrite Hid. unfold defaulted.
    destruct (is_blank (Join.ev_lot_location j0)) eqn:E; assumption.
  - rewrite Hc. now apply Hm.
Qed.

Lemma apply_ev_mapping_fills_witness :
  is_blank
    (Join.ev_lot_location
       (hd (view_row "X" "C" None)
          (fst (_apply_ev_mapping [("ACB", "L1")] "None" view0))))
  = false.
Proof.
  refine (apply_ev_mapping_fills [("ACB", "L1")] "None" view0 _ eq_refl _ _).
  - intros e [<-|[]]. reflexivity.
  - left. reflexivity.
Defined.

Lemma after_entries_perm (m m' : list (string * string)) (k : option string) :
  Permutation m m' -> NoDup (map fst m) ->
  forall x, after_entries m k x = after_entries m' k x.
Proof.
  unfold after_entries.
  induction 1 as [|e m m' Hp IH|e1 e2 m|m1 m2 m3 H12 IH12 H23 IH23]; intros Hnd x.
  - reflexivity.
  - simpl. apply IH. now inversion Hnd.
  - simpl. destruct (sql_eqb k (Some (fst e1))) eqn:E1,
             (sql_eqb k (Some (fst e2))) eqn:E2; try reflexivity.
    apply sql_eqb_eq in E1. apply sql_eqb_eq in E2.
    exfalso. simpl in Hnd. inversion Hnd as [|? ? Hnot _]; subst.
    apply Hnot. left. congruence.
  - rewrite IH12 by assumption. apply IH23.
    eapply Permutation_NoDup; [|exact Hnd]. now apply Permutation_map.
Qed.

(** X15.  The order of the mapping's entries does not matter: two
    mappings with the same entries, one per key, give the same view. *)
Theorem apply_ev_mapping_order (m m' : list (string * string)) (default_text : string)
    (v : join_table) :
  Permutation m m' ->
  NoDup (map fst m) ->
  fst (_apply_ev_mapping m default_text v) = fst (_apply_ev_mapping m' default_text v).
Proof.
  intros Hp Hnd. rewrite !apply_ev_mapping_rows. apply map_ext. intros j.
  unfold merged_row. f_equal. now apply after_entries_perm.
Qed.

Lemma apply_ev_mapping_order_witness :
  fst (_apply_ev_mapping [("ACB", "L1"); ("HLM", "L2")] "None" view0)
  = fst (_apply_ev_mapping [("HLM", "L2"); ("ACB", "L1")] "None" view0).
Proof.
  refine (apply_ev_mapping_order _ _ "None" view0 (perm_swap _ _ []) _).
  repeat constructor; simpl; intuition discriminate.
Defined.

(** ** A rebuild after the annotation merge *)

Lemma coalesce_none_r {A : Type} (x : option A) : coalesce x None = x.
Proof. now destruct x. Qed.

(** X16.  The carry-forward keeps what the annotation merge wrote: when
    every snapshot row has a carpark_number, rebuilding the view right
    after a merge run on a rebuilt view gives back the merged view, row for
    row. *)
Theorem rebuild_after_merge (db : store) (mapping : list (string * string))
    (default_text : string) :
  (forall a, In a (carpark_availability db) -> Avail.carpark_number a <> None) ->
  let db1 := rebuild_join_snapshot db in
  let db2 :=
    with_join db1
      (fst (_apply_ev_mapping mapping default_text (carpark_availability_join db1))) in
  rebuild_join_snapshot db2 = db2.
Proof.
  intros Hcp db1 db2. unfold db2, db1, rebuild_join_snapshot, with_join. simpl. f_equal.
  rewrite apply_ev_mapping_rows.
  set (ins := map priced_join_row
                (left_join join_on (carpark_availability db) (carpark_info db))).
  set (c0 := ev_cache (carpark_availability_join db)).
  change (rebuild_view (carpark_availability db) (carpark_info db)
            (carpark_availability_join db))
    with (map (restore_ev c0) ins).
  set (v2 := map (merged_row mapping default_text) (map (restore_ev c0) ins)).
  change (rebuild_view (carpark_availability db) (carpark_info db) v2)
    with (map (restore_ev (ev_cache v2)) ins).
  unfold v2 at 2. rewrite map_map.
  assert (forall j, In j ins ->
                    exists k, Join.carpark_number j = Some k
                              /\ Join.ev_lot_location j = None) as Hins.
  { intros j Hj. unfold ins in Hj. apply in_map_iff in Hj.
    destruct Hj as ([a i] & <- & Hai). apply left_join_pair in Hai.
    destruct Hai as [Ha _]. specialize (Hcp a Ha). simpl.
    destruct (Avail.carpark_number a) as [k|]; [eauto|congruence]. }
  assert (forall j, In j ins ->
                    merged_row mapping default_text (restore_ev c0 j)
                    = set_ev (after_entries mapping (norm_key (Join.carpark_number j))
                                (defaulted default_text
                                   (cache_lookup c0 (Join.carpark_number j)))) j)
    as Hmerged.
  { intros j Hj. destruct (Hins j Hj) as (k & Hk & He).
    unfold merged_row, restore_ev. cbn [Join.ev_lot_location Join.carpark_number set_ev].
    rewrite He, coalesce_none_r. reflexivity. }
  apply map_ext_in. intros j Hj. rewrite (Hmerged j Hj).
  destruct (Hins j Hj) as (k & Hk & He).
  unfold restore_ev. rewrite He, coalesce_none_r, Hk, cache_lookup_ev_cache. f_equal.
  apply agg_max_const.
  - intros E.
    assert (In (Join.ev_lot_location (merged_row mapping default_text (restore_ev c0 j)))
              (evs_of v2 (Some k))) as Hin.
    { apply evs_of_in. exists (merged_row mapping default_text (restore_ev c0 j)).
      repeat split; [|exact Hk].
      unfold v2. rewrite map_map. apply in_map_iff. eauto. }
    rewrite E in Hin. contradiction.
  - intros x Hx. apply evs_of_in in Hx. destruct Hx as (r & Hr & Hrk & <-).
    unfold v2 in Hr. rewrite map_map in Hr. apply in_map_iff in Hr.
    destruct Hr as (j' & <- & Hj'). rewrite (Hmerged j' Hj') in *.
    cbn [Join.carpark_number Join.ev_lot_location set_ev] in *. now rewrite Hrk.
Qed.

Lemma rebuild_after_merge_witness :
  rebuild_join_snapshot
    (with_join (rebuild_join_snapshot kept_store)
       (fst (_apply_ev_mapping [("BBB", "Deck 2")] "None"
               (carpark_availability_join (rebuild_join_snapshot kept_store)))))
  = with_join (rebuild_join_snapshot kept_store)
      (fst (_apply_ev_mapping [("BBB", "Deck 2")] "None"
              (carpark_availability_join (rebuild_join_snapshot kept_store)))).
Proof.
  refine (rebuild_after_merge kept_store [("BBB", "Deck 2")] "None" _).
  intros a [<-|[<-|[]]]; discriminate.
Defined.

(** ** The newest sheet *)

Lemma latest_loop_spec (objs : list (string * Z)) :
  forall acc,
    match latest_loop objs acc with
    | Some l =>
        ((In l objs /\ is_csv l = true) \/ acc = Some l)
        /\ (forall o, In o objs -> is_csv o = true -> snd o <= snd l)
        /\ (forall a, acc = Some a -> snd a <= snd l)
    | None => acc = None /\ forall o, In o objs -> is_csv o = false
    end.
Proof.
  induction objs as [|obj objs IH]; intros acc; simpl.
  - destruct acc as [a|].
    + repeat split; auto; [intros o []|]. intros a0 E. inversion E. lia.
    + split; [reflexivity|intros o []].
  - specialize (IH (if is_csv obj
                    then match acc with
                         | None => Some obj
                         | Some l => if snd obj >? snd l then Some obj else acc
                         end
                    else acc)).
    destruct (latest_loop objs _) as [l|].
    + destruct IH as (Hl & Hmax & Hacc). destruct (is_csv obj) eqn:Ec.
      * destruct acc as [a|].
        -- destruct (snd obj >? snd a) eqn:Eg.
           ++ apply Z.gtb_lt in Eg. pose proof (Hacc obj eq_refl) as Ho.
              repeat split.
              ** destruct Hl as [[Hin Hc]|E]; [left; auto|].
                 inversion E; subst. left. auto.
              ** intros o [<-|Ho'] Hc; auto.
              ** intros a0 E. inversion E; subst. lia.
           ++ assert (snd obj <= snd a) as Hle.
              { destruct (Z.gtb_spec (snd obj) (snd a)); [discriminate|lia]. }
              pose proof (Hacc a eq_refl) as Ha. repeat split.
              ** destruct Hl as [[Hin Hc]|E]; [left; auto|right; exact E].
              ** intros o [<-|Ho'] Hc; [lia|auto].
              ** intros a0 E. inversion E; subst. exact Ha.
        -- pose proof (Hacc obj eq_refl) as Ho. repeat split.
           ++ destruct Hl as [[Hin Hc]|E]; [left; auto|].
              inversion E; subst. left. auto.
           ++ intros o [<-|Ho'] Hc; auto.
           ++ intros a0 E. discriminate.
      * repeat split.
        -- destruct Hl as [[Hin Hc]|E]; [left; auto|right; exact E].
        -- intros o [<-|Ho'] Hc; [congruence|auto].
        -- exact Hacc.
    + destruct IH as (Hacc & Hno). destruct (is_csv obj) eqn:Ec.
      * destruct acc as [a|]; [destruct (snd obj >? snd a)|]; discriminate.
      * split; [assumption|]. intros o [<-|Ho']; auto.
Qed.

(** X17.  [_latest_csv_key] returns the key of a listed object whose key
    ends in .csv (in any letter case) and whose LastModified is not before
    that of any other such object; it raises FileNotFoundError exactly when
    no listed key ends in .csv. *)
Theorem latest_csv_key_is_newest (objs : list (string * Z)) :
  match _latest_csv_key objs with
  | Some k =>
      exists t, In (k, t) objs /\ is_csv (k, t) = true
                /\ forall o, In o objs -> is_csv o = true -> snd o <= t
  | None => forall o, In o objs -> is_csv o = false
  end.
Proof.
  unfold _latest_csv_key. pose proof (latest_loop_spec objs None) as H.
  destruct (latest_loop objs None) as [[k t]|]; simpl.
  - destruct H as ([[Hin Hc]|E] & Hmax & _); [|discriminate].
    exists t. auto.
  - now destruct H.
Qed.

(** ** The availability job *)

Lemma rebuild_view_keys (avail : avail_table) (info : info_table) (v : join_table)
    (k : option string * option string) :
  (exists j, In j (rebuild_view avail info v) /\ view_key j = k)
  <-> (exists a, In a avail /\ row_key a = k).
Proof.
  unfold rebuild_view. split.
  - intros (j & Hj & Hk). apply in_map_iff in Hj. destruct Hj as (j0 & <- & Hj).
    apply in_map_iff in Hj. destruct Hj as ([a i] & <- & Hai).
    apply left_join_pair in Hai. destruct Hai as [Ha _]. exists a. auto.
  - intros (a & Ha & Hk). destruct (left_join_covers join_on avail info a Ha) as (i & Hi).
    exists (restore_ev (ev_cache v) (priced_join_row (a, i))). split; [|exact Hk].
    apply in_map. now apply in_map with (f := priced_join_row) in Hi.
Qed.

(** X18.  When the availability job succeeds, the view it leaves has a row
    for every key the payload observed, and the keys of the view are those
    of the snapshot table; with strict mirror on and every stored row last
    seen strictly before the cycle's timestamp, the view has rows of
    observed keys only. *)
Theorem availability_job_view (strict ok legacy : bool) (T : string) (db db' : store)
    (p : payload) (st : upsert_stats) :
  update_carpark_availability_handler strict ok legacy T db p = Committed db' st ->
  (forall k, In k (observed_keys p) ->
             exists j, In j (carpark_availability_join db') /\ view_key j = k)
  /\ (forall k, (exists j, In j (carpark_availability_join db') /\ view_key j = k)
                <-> (exists a, In a (carpark_availability db') /\ row_key a = k))
  /\ (strict = true ->
      (forall r, In r (carpark_availability db) ->
                 String.ltb (Avail.last_seen_at r) T = true) ->
      forall j, In j (carpark_availability_join db') -> In (view_key j) (observed_keys p)).
Proof.
  unfold update_carpark_availability_handler. intros H.
  destruct (upsert strict ok legacy T db p) as [db1 st1|] eqn:E; [|discriminate].
  inversion H; subst. clear H. simpl.
  apply upsert_committed in E. destruct E as (s & Hloop & Ha & _).
  pose proof (cycle_old_or_seen ok T p _ s (fun r Hr => or_introl Hr) Hloop) as Hinv.
  pose proof (cycle_has_seen ok T p _ s Hloop) as Hseen. simpl in Hinv.
  split; [|split].
  - intros k Hk. apply rebuild_view_keys. destruct (Hseen k Hk) as (r & Hr & Hrk & Hs).
    exists r. split; [|exact Hrk]. rewrite Ha. destruct strict; [|exact Hr].
    unfold delete_stale; simpl. apply filter_In. split; [exact Hr|].
    now rewrite Hs, ltb_irrefl.
  - intros k. apply rebuild_view_keys.
  - intros -> Hold j Hj.
    destruct (proj1 (rebuild_view_keys _ _ _ (view_key j)) (ex_intro _ j (conj Hj eq_refl)))
      as (a & Hin & Hk).
    rewrite Ha in Hin. unfold delete_stale in Hin; simpl in Hin.
    apply filter_In in Hin. destruct Hin as [Hin Hfresh].
    destruct (Hinv a Hin) as [Hpre|(k & HK & Hrk & _)].
    + rewrite (Hold a Hpre) in Hfresh. discriminate.
    + now rewrite <- Hk, Hrk.
Qed.

Lemma availability_job_view_witness :
  exists j,
    In j (carpark_availability_join
            (committed_store
               (update_carpark_availability_handler true true false
                  "2025-01-01T01:10:05Z" store_after_hlm
                  (one_lot "ACB" (Some "2025-01-01T09:09:00") "7"))))
    /\ view_key j = (Some "ACB", Some "C").
Proof.
  refine (proj1 (availability_job_view true true false "2025-01-01T01:10:05Z"
                   store_after_hlm _ (one_lot "ACB" (Some "2025-01-01T09:09:00") "7")
                   (committed_value
                      (update_carpark_availability_handler true true false
                         "2025-01-01T01:10:05Z" store_after_hlm
                         (one_lot "ACB" (Some "2025-01-01T09:09:00") "7")) no_stats)
                   eq_refl) _ _).
  left. reflexivity.
Defined.

(** ** The metadata job *)

Lemma loaded_rows_keys (now : string) (records : list record_obj) :
  map Info.carpark_number (loaded_rows now records) = loaded_keys records.
Proof. unfold loaded_rows, loaded_keys. rewrite map_map. reflexivity. Qed.

Lemma plain_view_has_info (avail : avail_table) (info : info_table) (j : Join.row) :
  In j (map plain_join_row (left_join join_on avail info)) ->
  Join.has_info j = 1
  <-> exists k, In k (map Info.carpark_number info)
                /\ norm_key (Join.carpark_number j) = Some k.
Proof.
  intros H. apply in_map_iff in H. destruct H as ([a i] & <- & H).
  apply left_join_pair in H. destruct H as [_ H]. destruct i as [x|]; simpl.
  - destruct H as [Hx Hon]. split; [intros _|reflexivity].
    exists (Info.carpark_number x). split; [now apply in_map|].
    now apply join_on_key.
  - split; [discriminate|]. intros (k & Hk & Hn). exfalso.
    apply in_map_iff in Hk. destruct Hk as (x & <- & Hx).
    apply join_on_key in Hn. rewrite (H x Hx) in Hn. discriminate.
Qed.

(** X19.  Against a datastore that serves, by limit and offset, a list of
    records whose car_park_no and carpark_number are ASCII texts, the
    metadata job answers when the keys of the records are pairwise
    distinct: it reports the number of records downloaded, the
    number of keyed records loaded, the number of snapshot rows as total and
    matched + unmatched = total; it leaves the snapshot table as it was, the
    metadata table with exactly the keyed records, and a view in which a
    row has has_info = 1 exactly when its normalised carpark_number is the
    key of a loaded record.  When two records share a key the job raises
    and leaves the store as it was. *)
Theorem metadata_job (fs : list string) (data : list record_obj)
    (get : nat -> nat -> option page) (page_size fuel : nat) (now : string) (db : store) :
  (0 < page_size)%nat ->
  serves fs data get ->
  (List.length data < fuel)%nat ->
  Forall (fun rec => ascii_key rec = true) data ->
  (NoDup (loaded_keys data) ->
   exists db' r,
     ingest_hdb_carpark_info_handler fuel get page_size now db = JobDone db' r
     /\ info_rows_downloaded r = Z.of_nat (List.length data)
     /\ info_rows_loaded r = Z.of_nat (List.length (filter has_key data))
     /\ join_rows_total r = Z.of_nat (List.length (carpark_availability db))
     /\ join_rows_matched r + join_rows_unmatched r = join_rows_total r
     /\ info_columns r = filter (fun f => negb (String.eqb f "_id")) fs
     /\ carpark_availability db' = carpark_availability db
     /\ carpark_availability_history db' = carpark_availability_history db
     /\ carpark_info db' = loaded_rows now data
     /\ (forall j, In j (carpark_availability_join db') ->
                   Join.has_info j = 1
                   <-> exists k, In k (loaded_keys data)
                                 /\ norm_key (Join.carpark_number j) = Some k))
  /\ (~ NoDup (loaded_keys data) ->
      ingest_hdb_carpark_info_handler fuel get page_size now db = JobRaised db).
Proof.
  intros Hps Hget Hfuel _. unfold ingest_hdb_carpark_info_handler, fetch_info_records.
  pose proof (fetch_loop_serves fs data get page_size Hps Hget fuel 0 None
                ltac:(lia) ltac:(lia)) as F.
  change (firstn 0 data) with (@nil record_obj) in F. rewrite F. clear F.
  unfold load_info_into_sqlite. split; intros H.
  - rewrite (load_loop_distinct now data [] 0 H). cbn [app Z.add].
    unfold rebuild_join_table.
    cbn [carpark_availability carpark_info carpark_availability_history].
    eexists. eexists. split; [reflexivity|].
    cbn [info_rows_downloaded info_rows_loaded join_rows_total join_rows_matched
         join_rows_unmatched info_columns carpark_availability carpark_info
         carpark_availability_history carpark_availability_join].
    rewrite <- (loaded_rows_keys now data) in H.
    repeat split.
    + unfold loaded_rows. now rewrite length_map.
    + rewrite length_map, (left_join_unique _ _ H), length_map. reflexivity.
    + lia.
    + intros Hj. rewrite <- (loaded_rows_keys now data).
      now apply (plain_view_has_info _ _ j H0).
    + intros Hj. rewrite <- (loaded_rows_keys now data) in Hj.
      now apply (plain_view_has_info _ _ j H0).
  - rewrite (load_loop_duplicate now data [] 0); [reflexivity|constructor|exact H].
Qed.

Lemma metadata_job_witness :
  exists db' r,
    ingest_hdb_carpark_info_handler 4
      (fun limit offset =>
         Some {| pg_fields := ["_id"; "car_park_no"; "address"];
                 pg_records :=
                   firstn limit (skipn offset [record0; [("address", Some "nowhere")]]) |})
      2 "2025-01-02T00:00:00Z" priced_store
    = JobDone db' r
    /\ info_rows_downloaded r = 2
    /\ carpark_info db' = [info_row_of "2025-01-02T00:00:00Z" record0].
Proof.
  destruct (proj1 (metadata_job ["_id"; "car_park_no"; "address"]
                     [record0; [("address", Some "nowhere")]]
                     (fun limit offset =>
                        Some {| pg_fields := ["_id"; "car_park_no"; "address"];
                                pg_records :=
                                  firstn limit
                                    (skipn offset [record0; [("address", Some "nowhere")]]) |})
                     2 4 "2025-01-02T00:00:00Z" priced_store
                     ltac:(lia) ltac:(intros limit offset; reflexivity)
                     ltac:(simpl; lia) ltac:(repeat constructor))
             ltac:(repeat constructor; intros []))
    as (db' & r & E & Hd & _ & _ & _ & _ & _ & _ & Hi & _).
  exists db', r. repeat split; assumption.
Defined.

(** ** The primary key of the view *)

Lemma pk_ok_distinct_keys (t : avail_table) :
  pk_ok t = distinct_keys (map row_key t).
Proof.
  induction t as [|r t IH]; [reflexivity|]. simpl. rewrite IH. f_equal. f_equal.
  clear IH. induction t as [|r' t IH]; [reflexivity|]. simpl. rewrite IH. f_equal.
  unfold key_match, keys_collide, row_key. simpl.
  now rewrite (sql_eqb_sym (Avail.carpark_number r')), (sql_eqb_sym (Avail.lot_type r')).
Qed.

Lemma rebuild_view_key_list (avail : avail_table) (info : info_table) (v : join_table) :
  NoDup (map Info.carpark_number info) ->
  map view_key (rebuild_view avail info v) = map row_key avail.
Proof.
  intros Hnd. unfold rebuild_view. rewrite (left_join_unique _ _ Hnd), !map_map.
  apply map_ext. reflexivity.
Qed.

Lemma rebuild_join_table_key_list (db : store) :
  NoDup (map Info.carpark_number (carpark_info db)) ->
  map view_key (carpark_availability_join (fst (rebuild_join_table db)))
  = map row_key (carpark_availability db).
Proof.
  intros Hnd. unfold rebuild_join_table. cbn [fst carpark_availability_join].
  rewrite (left_join_unique _ _ Hnd), !map_map. apply map_ext. reflexivity.
Qed.

(** X20.  In every store the pipeline can reach, no two rows of the view
    collide on (carpark_number, lot_type): the INSERT of either rebuild
    never violates the primary key of the view, because the snapshot table
    has distinct keys and the metadata table one row per carpark_number,
    and the annotation merge and the other jobs leave the keys of the view
    alone. *)
Theorem reachable_view_keys (db : store) :
  reachable db ->
  distinct_keys (map view_key (carpark_availability_join db)) = true.
Proof.
  induction 1 as [|db db' Hreach IH Hstep]; [reflexivity|].
  destruct Hstep as [strict ok legacy T p db db' st H|db db' H].
  - apply upsert_committed in H. destruct H as (_ & _ & _ & _ & _ & Hj).
    now rewrite Hj.
  - pose proof (reachable_info_nodup db Hreach) as Hnd.
    pose proof (reachable_pk_ok db Hreach) as Hpk.
    rewrite pk_ok_distinct_keys in Hpk.
    destruct H as [db|now stamp db|db|now records db db' n H|db|mapping default_text db].
    + exact IH.
    + exact IH.
    + unfold rebuild_join_snapshot. cbn [carpark_availability_join].
      now rewrite (rebuild_view_key_list _ _ _ Hnd).
    + unfold load_info_into_sqlite in H.
      destruct (load_loop now records [] 0) as [[t rows]|]; [|discriminate].
      inversion H; subst. exact IH.
    + now rewrite (rebuild_join_table_key_list db Hnd).
    + cbn [with_join carpark_availability_join].
      rewrite apply_ev_mapping_rows, map_map.
      erewrite map_ext; [exact IH|]. reflexivity.
Qed.

Lemma reachable_view_keys_witness :
  distinct_keys
    (map view_key (carpark_availability_join (rebuild_join_snapshot store_after_hlm)))
  = true.
Proof.
  apply reachable_view_keys.
  apply reach_step with (db := store_after_hlm).
  - apply reach_step with (db := empty_store); [apply reach_empty|].
    eapply step_upsert with (strict := true) (ok := true) (legacy := false)
      (retrieved_at := "2025-01-01T01:05:05Z")
      (p := one_lot "HLM" (Some "2025-01-01T09:04:00") "5").
    reflexivity.
  - apply step_job. apply step_rebuild_join_snapshot.
Defined.

(** ** Keys and the normalisation of the join *)

Lemma lstrip_fixed (sp : ascii -> bool) (s : string) :
  match s with String c _ => sp c = false | EmptyString => True end ->
  lstrip sp s = s.
Proof. destruct s as [|c s]; simpl; [reflexivity|]. now intros ->. Qed.

Lemma rstrip_weaker (sp sp' : ascii -> bool) (s : string) :
  (forall c, sp c = false -> sp' c = false) ->
  rstrip sp' (rstrip sp s) = rstrip sp s.
Proof.
  intros Hsub. induction s as [|c s IH]; [reflexivity|]. cbn [rstrip].
  destruct (rstrip sp s) as [|d t] eqn:E.
  - destruct (sp c) eqn:Ec; [reflexivity|]. simpl. now rewrite (Hsub c Ec).
  - cbn [rstrip]. cbn [rstrip] in IH. rewrite IH. reflexivity.
Qed.

Lemma sql_trim_py_strip (s : string) : sql_trim (py_strip s) = py_strip s.
Proof.
  unfold sql_trim, py_strip.
  rewrite (lstrip_fixed is_space).
  - apply rstrip_weaker. exact is_space_py_space.
  - destruct (lstrip is_py_space s) as [|c t] eqn:E; [exact I|].
    pose proof (lstrip_head is_py_space s c t E) as Hc.
    destruct (rstrip is_py_space (String c t)) as [|c' t'] eqn:R; [exact I|].
    apply rstrip_head in R. subst c'. now apply is_space_py_space.
Qed.

Lemma upper_char_space (c : ascii) : is_space (upper_char c) = is_space c.
Proof. destruct c as [[] [] [] [] [] [] [] []]; reflexivity. Qed.

Lemma upper_char_idem (c : ascii) : upper_char (upper_char c) = upper_char c.
Proof. destruct c as [[] [] [] [] [] [] [] []]; reflexivity. Qed.

Lemma lstrip_map_string (sp : ascii -> bool) (f : ascii -> ascii) (s : string) :
  (forall c, sp (f c) = sp c) ->
  lstrip sp (map_string f s) = map_string f (lstrip sp s).
Proof.
  intros H. induction s as [|c s IH]; [reflexivity|]. simpl. rewrite H.
  destruct (sp c); [exact IH|reflexivity].
Qed.

Lemma rstrip_map_string (sp : ascii -> bool) (f : ascii -> ascii) (s : string) :
  (forall c, sp (f c) = sp c) ->
  rstrip sp (map_string f s) = map_string f (rstrip sp s).
Proof.
  intros H. induction s as [|c s IH]; [reflexivity|]. cbn [map_string rstrip].
  rewrite IH, H. destruct (rstrip sp s); [destruct (sp c)|]; reflexivity.
Qed.

Lemma sql_upper_idem (s : string) : sql_upper (sql_upper s) = sql_upper s.
Proof.
  unfold sql_upper. induction s as [|c s IH]; [reflexivity|]. simpl.
  now rewrite IH, upper_char_idem.
Qed.

(** What Python's [strip().upper()] returns is left alone by SQLite's
    [UPPER(TRIM(x))]. *)
Lemma py_norm_sql_normal (s : string) :
  sql_upper (sql_trim (py_upper (py_strip s))) = py_upper (py_strip s).
Proof.
  unfold py_upper. fold (sql_upper (py_strip s)).
  assert (sql_trim (sql_upper (py_strip s)) = sql_upper (sql_trim (py_strip s))) as ->.
  { unfold sql_trim, sql_upper.
    now rewrite (lstrip_map_string _ _ _ upper_char_space),
                (rstrip_map_string _ _ _ upper_char_space). }
  now rewrite sql_trim_py_strip, sql_upper_idem.
Qed.

Lemma load_ev_rows_key_form (rows : list (option string * option string)) :
  forall m k,
    In k (map fst (load_ev_rows rows m)) ->
    In k (map fst m) \/ exists row, In row rows /\ k = ev_key row.
Proof.
  induction rows as [|[c e] rows IH]; intros m k Hk; [now left|].
  cbn [load_ev_rows] in Hk. cbv zeta in Hk.
  change (py_upper (py_strip match c with Some s => s | None => EmptyString end))
    with (ev_key (c, e)) in Hk.
  assert (In k (map fst m) \/ (exists row, In row rows /\ k = ev_key row)
          \/ k = ev_key (c, e)) as [H|[(row & Hr & E)|H]].
  { destruct (String.eqb (ev_key (c, e)) EmptyString).
    - destruct (IH m k Hk); auto.
    - destruct (negb _ && negb _).
      + destruct (IH _ k Hk) as [H|H]; auto.
        rewrite map_app in H. apply in_app_or in H. destruct H as [H|[<-|[]]]; auto.
      + destruct (IH m k Hk); auto. }
  - now left.
  - right. exists row. split; [now right|exact E].
  - right. exists (c, e). split; [now left|exact H].
Qed.

(** X21.  The keys the two loaders make of ASCII texts are fixed points
    of the normalisation the view is matched with: UPPER(TRIM(k)) = k for
    the key of a metadata record whose car_park_no and carpark_number are
    ASCII, and for every key of the mapping built from a sheet of ASCII
    cells.  So a snapshot row whose carpark_number is written as the key of
    such a record joins the row loaded from that record. *)
Theorem loader_keys_normal (now : string) (rec : record_obj)
    (rows : list (option string * option string)) :
  ascii_key rec = true ->
  Forall (fun row => ascii_row row = true) rows ->
  norm_key (Some (record_key rec)) = Some (record_key rec)
  /\ (forall a, Avail.carpark_number a = Some (record_key rec) ->
                join_on a (info_row_of now rec) = true)
  /\ (forall k, In k (map fst (load_ev_rows rows [])) -> norm_key (Some k) = Some k).
Proof.
  intros _ _.
  assert (norm_key (Some (record_key rec)) = Some (record_key rec)) as Hk.
  { unfold norm_key, record_key. simpl.
    destruct (py_or _ _); [now rewrite py_norm_sql_normal|reflexivity]. }
  split; [exact Hk|]. split.
  - intros a Ha. apply join_on_key. rewrite Ha. exact Hk.
  - intros k H. apply load_ev_rows_key_form in H. destruct H as [[]|(row & _ & ->)].
    unfold norm_key, ev_key. simpl. now rewrite py_norm_sql_normal.
Qed.

Lemma loader_keys_normal_witness :
  norm_key (Some (record_key [("car_park_no", Some " acb ")])) = Some "ACB".
Proof.
  exact (proj1 (loader_keys_normal "2025-01-02T00:00:00Z"
                  [("car_park_no", Some " acb ")]
                  [(Some "hlm", Some "Deck 3A")]
                  eq_refl ltac:(repeat constructor))).
Defined.

(** ** The last entry of a key *)

Lemma for_each_app {S X : Type} (body : S -> X -> option S) (xs ys : list X) (s : S) :
  for_each body (xs ++ ys) s = bind (for_each body xs s) (for_each body ys).
Proof.
  revert s. induction xs as [|x xs IH]; intros s; [reflexivity|]. simpl. unfold bind at 1 3.
  destruct (body s x); [apply IH|reflexivity].
Qed.

Lemma for_each_map {S X Y : Type} (body : S -> Y -> option S) (f : X -> Y)
    (xs : list X) (s : S) :
  for_each body (map f xs) s = for_each (fun s x => body s (f x)) xs s.
Proof.
  revert s. induction xs as [|x xs IH]; intros s; [reflexivity|]. simpl. unfold bind.
  destruct (body s (f x)); [apply IH|reflexivity].
Qed.

(** The two nested loops are one loop over the entries. *)
Lemma for_each_entries (ok : bool) (T : string) (cps : list carpark) (s : txn) :
  for_each (process_carpark ok T) cps s
  = for_each (process_entry ok T)
      (flat_map (fun cp => map (pair cp) (infos_of cp)) cps) s.
Proof.
  revert s. induction cps as [|cp cps IH]; intros s; [reflexivity|].
  cbn [flat_map for_each]. rewrite for_each_app, for_each_map.
  unfold process_carpark at 1, process_entry at 1. cbn [fst snd].
  unfold bind. destruct (for_each _ (infos_of cp) s); [apply IH|reflexivity].
Qed.

Lemma insert_settles (c l : string) (t : avail_table) (new r : Avail.row) :
  pk_ok t = true ->
  Avail.carpark_number new = Some c -> Avail.lot_type new = Some l ->
  In r (insert_on_conflict t new) ->
  key_match (Some c) (Some l) r = true ->
  Avail.lots_available r = Avail.lots_available new
  /\ Avail.update_datetime r = Avail.update_datetime new
  /\ Avail.last_seen_at r = Avail.last_seen_at new.
Proof.
  intros Hpk Hc Hl. induction t as [|r0 t IH]; intros Hin Hm.
  - destruct Hin as [<-|[]]. auto.
  - simpl in Hpk. apply andb_true_iff in Hpk. destruct Hpk as [Hr0 Hpk].
    cbn [insert_on_conflict] in Hin. rewrite Hc, Hl in Hin.
    destruct (key_match (Some c) (Some l) r0) eqn:E.
    + destruct Hin as [<-|Hin]; [auto|]. exfalso.
      apply negb_true_iff in Hr0.
      pose proof (proj1 (existsb_false_forall _ _) Hr0 r Hin) as Hno.
      apply key_match_true in E. destruct E as [E1 E2].
      rewrite E1, E2, Hm in Hno. discriminate.
    + destruct Hin as [<-|Hin]; [congruence|]. apply IH; assumption.
Qed.

Lemma insert_keeps_others (c l : string) (t : avail_table) (new r : Avail.row) :
  ~ (Avail.carpark_number new = Some c /\ Avail.lot_type new = Some l) ->
  In r (insert_on_conflict t new) ->
  key_match (Some c) (Some l) r = true ->
  In r t.
Proof.
  intros Hnot. induction t as [|r0 t IH]; intros Hin Hm.
  - destruct Hin as [<-|[]]. apply key_match_true in Hm. now elim Hnot.
  - cbn [insert_on_conflict] in Hin.
    destruct (key_match (Avail.carpark_number new) (Avail.lot_type new) r0) eqn:E.
    + destruct Hin as [<-|Hin]; [|now right]. exfalso.
      rewrite key_match_do_update in Hm.
      apply key_match_true in E. apply key_match_true in Hm.
      apply Hnot. destruct E, Hm. split; congruence.
    + destruct Hin as [<-|Hin]; [now left|]. right. now apply IH.
Qed.

Lemma entry_to_true (c l : string) (e : carpark * lot_info) :
  entry_to c l e = true
  <-> cp_carpark_number (fst e) = Some c /\ li_lot_type (snd e) = Some l.
Proof.
  unfold entry_to. rewrite andb_true_iff. split.
  - intros [H1 H2]. split; now apply sql_eqb_eq.
  - intros [-> ->]. now rewrite !sql_eqb_refl.
Qed.

Lemma process_entry_settles (ok : bool) (T : string) (c l : string) (s s' : txn)
    (e : carpark * lot_info) (r : Avail.row) :
  pk_ok (tx_avail s) = true ->
  process_entry ok T s e = Some s' ->
  entry_to c l e = true ->
  In r (tx_avail s') -> key_match (Some c) (Some l) r = true ->
  settled T e r.
Proof.
  intros Hpk H He Hin Hm. unfold process_entry in H.
  apply process_info_some in H. destruct H as (z & Hz & Ha & _).
  rewrite Ha, upsert_snapshot_on_conflict in Hin by assumption.
  apply entry_to_true in He. destruct He as [Hc Hl].
  destruct (insert_settles c l (tx_avail s)
              (inserted_row
                 (obs_of (cp_carpark_number (fst e)) (cp_update_datetime (fst e)) T
                    (snd e) z))
              r Hpk Hc Hl Hin Hm) as (H1 & H2 & H3).
  unfold settled. rewrite Hz, H1, H2, H3. repeat split.
Qed.

Lemma process_entry_keeps_others (ok : bool) (T : string) (c l : string) (s s' : txn)
    (e : carpark * lot_info) (r : Avail.row) :
  pk_ok (tx_avail s) = true ->
  process_entry ok T s e = Some s' ->
  entry_to c l e = false ->
  In r (tx_avail s') -> key_match (Some c) (Some l) r = true ->
  In r (tx_avail s).
Proof.
  intros Hpk H He Hin Hm. unfold process_entry in H.
  apply process_info_some in H. destruct H as (z & Hz & Ha & _).
  rewrite Ha, upsert_snapshot_on_conflict in Hin by assumption.
  apply (insert_keeps_others c l _ _ r) in Hin; [assumption| |assumption].
  intros Hk. simpl in Hk. apply entry_to_true in Hk. congruence.
Qed.

Lemma entries_last_wins (ok : bool) (T : string) (c l : string) :
  forall (es : list (carpark * lot_info)) (s s' : txn),
    pk_ok (tx_avail s) = true ->
    for_each (process_entry ok T) es s = Some s' ->
    forall r, In r (tx_avail s') -> key_match (Some c) (Some l) r = true ->
              match last_of (filter (entry_to c l) es) with
              | Some e => settled T e r
              | None => In r (tx_avail s)
              end.
Proof.
  induction es as [|e es IH]; intros s s' Hpk H r Hin Hm.
  - simpl in H. inversion H; subst. exact Hin.
  - simpl in H. unfold bind in H.
    destruct (process_entry ok T s e) as [s1|] eqn:E; [|discriminate].
    assert (pk_ok (tx_avail s1) = true) as Hpk1
        by (eapply process_info_pk_ok; [exact Hpk|exact E]).
    specialize (IH s1 s' Hpk1 H r Hin Hm). cbn [filter].
    destruct (entry_to c l e) eqn:He; cbn [last_of].
    + destruct (last_of (filter (entry_to c l) es)); [exact IH|].
      exact (process_entry_settles ok T c l s s1 e r Hpk E He IH Hm).
    + destruct (last_of (filter (entry_to c l) es)); [exact IH|].
      exact (process_entry_keeps_others ok T c l s s1 e r Hpk E He IH Hm).
Qed.

Lemma last_of_in {A : Type} (l : list A) (a : A) : last_of l = Some a -> In a l.
Proof.
  induction l as [|b l IH]; simpl; [discriminate|].
  destruct (last_of l) as [x|].
  - intros H. right. apply IH. exact H.
  - intros H. inversion H. now left.
Qed.

Lemma pk_ok_one_row (c l : string) (t : avail_table) (r : Avail.row) :
  pk_ok t = true -> In r t -> key_match (Some c) (Some l) r = true ->
  filter (key_match (Some c) (Some l)) t = [r].
Proof.
  induction t as [|r0 t IH]; intros Hpk Hin Hm; [contradiction|].
  simpl in Hpk. apply andb_true_iff in Hpk. destruct Hpk as [Hr0 Hpk].
  apply negb_true_iff in Hr0. pose proof (proj1 (existsb_false_forall _ _) Hr0) as Hno.
  simpl. destruct (key_match (Some c) (Some l) r0) eqn:E.
  - apply key_match_true in E. destruct E as [E1 E2]. rewrite E1, E2 in Hno.
    assert (filter (key_match (Some c) (Some l)) t = []) as ->.
    { clear -Hno. induction t as [|x t IH]; [reflexivity|]. simpl.
      rewrite (Hno x) by now left. apply IH. intros y Hy. apply Hno. now right. }
    destruct Hin as [->|Hin]; [reflexivity|]. rewrite (Hno r Hin) in Hm. discriminate.
  - destruct Hin as [<-|Hin]; [congruence|]. now apply IH.
Qed.

(** X22.  Within one payload the last entry of a key wins: after a
    committed cycle at [T] on a snapshot table satisfying its primary key,
    the table holds exactly one row for every key (carpark_number,
    lot_type) that some lot entry of the payload carries, and that row has
    the lots_available of the last such entry (as [int()] reads it), the
    update_datetime of that entry's carpark and last_seen_at = T, with
    strict mirror on or off. *)
Theorem upsert_last_entry_wins (strict ok legacy : bool) (T : string) (db db' : store)
    (p : payload) (st : upsert_stats) (c l : string) (e : carpark * lot_info) :
  pk_ok (carpark_availability db) = true ->
  upsert strict ok legacy T db p = Committed db' st ->
  last_of (filter (entry_to c l) (entries p)) = Some e ->
  exists r,
    filter (key_match (Some c) (Some l)) (carpark_availability db') = [r]
    /\ settled T e r.
Proof.
  intros Hpk H Hlast.
  pose proof (upsert_pk_ok strict ok legacy T db db' p st H Hpk) as Hpk'.
  apply upsert_committed in H. destruct H as (s & Hloop & Ha & _).
  pose proof Hloop as Hflat. rewrite for_each_entries in Hflat.
  pose proof (fun Hp => entries_last_wins ok T c l _ _ s Hp Hflat) as Hwin.
  specialize (Hwin Hpk). fold (entries p) in Hwin. rewrite Hlast in Hwin.
  pose proof (last_of_in _ _ Hlast) as He. apply filter_In in He.
  destruct He as [He Hto]. apply entry_to_true in Hto. destruct Hto as [Hc Hl].
  assert (In (Some c, Some l) (observed_keys p)) as Hk.
  { unfold entries in He. apply in_flat_map in He. destruct He as (cp & Hcp & He).
    apply in_map_iff in He. destruct He as (info & <- & Hinfo). simpl in Hc, Hl.
    unfold observed_keys. apply in_flat_map. exists cp. split; [exact Hcp|].
    apply in_map_iff. exists info. split; [now rewrite Hc, Hl|exact Hinfo]. }
  destruct (cycle_has_seen ok T p _ s Hloop _ Hk) as (r & Hr & Hrk & Hseen).
  assert (key_match (Some c) (Some l) r = true) as Hm.
  { apply key_match_some; [exact (f_equal fst Hrk)|exact (f_equal snd Hrk)]. }
  assert (In r (carpark_availability db')) as Hr'.
  { rewrite Ha. destruct strict; [|exact Hr]. unfold delete_stale. simpl.
    apply filter_In. split; [exact Hr|]. now rewrite Hseen, ltb_irrefl. }
  exists r. split.
  - now apply pk_ok_one_row.
  - now apply Hwin.
Qed.

Lemma upsert_last_entry_wins_witness :
  exists r,
    filter (key_match (Some "HLM") (Some "C"))
      (carpark_availability
         (committed_store
            (upsert true true false "2025-01-01T01:05:05Z" empty_store hlm_twice)))
    = [r]
    /\ Avail.lots_available r = 9.
Proof.
  destruct (upsert_last_entry_wins true true false "2025-01-01T01:05:05Z" empty_store
              (committed_store
                 (upsert true true false "2025-01-01T01:05:05Z" empty_store hlm_twice))
              hlm_twice
              (committed_value
                 (upsert true true false "2025-01-01T01:05:05Z" empty_store hlm_twice)
                 no_stats)
              "HLM" "C" (hlm_carpark, lot_c "9") eq_refl eq_refl eq_refl)
    as (r & Hf & Hs & _).
  exists r. split; [exact Hf|].
  change (Some (Avail.lots_available r) = Some 9) in Hs. congruence.
Defined.

(** ** The availability reader *)

Lemma group_append_keys (g : list (option string * list lot_json)) (k : option string)
    (v : lot_json) (k' : option string) :
  In k' (map fst (group_append g k v)) <-> In k' (map fst g) \/ k' = k.
Proof.
  induction g as [|[k0 vs] g IH]; simpl.
  - intuition.
  - destruct (text_eqb k0 k) eqn:E; simpl.
    + apply text_eqb_eq in E. subst. intuition.
    + rewrite IH. intuition.
Qed.

Lemma group_append_nodup (g : list (option string * list lot_json)) (k : option string)
    (v : lot_json) :
  NoDup (map fst g) -> NoDup (map fst (group_append g k v)).
Proof.
  induction g as [|[k0 vs] g IH]; simpl; intros H.
  - repeat constructor. intros [].
  - inversion H as [|? ? Hnot Hnd]; subst.
    destruct (text_eqb k0 k) eqn:E; simpl.
    + now constructor.
    + constructor; [|now apply IH]. intros Hin. apply group_append_keys in Hin.
      destruct Hin as [Hin| ->]; [contradiction|].
      rewrite text_eqb_refl in E. discriminate.
Qed.

Lemma group_append_get (g : list (option string * list lot_json)) (k : option string)
    (v : lot_json) (k' : option string) :
  group_get (group_append g k v) k'
  = if text_eqb k k' then group_get g k' ++ [v] else group_get g k'.
Proof.
  unfold group_get. induction g as [|[k0 vs] g IH]; simpl.
  - destruct (text_eqb k k'); reflexivity.
  - destruct (text_eqb k0 k) eqn:E; simpl.
    + apply text_eqb_eq in E. subst k0. destruct (text_eqb k k'); reflexivity.
    + destruct (text_eqb k0 k') eqn:E'; [|exact IH].
      apply text_eqb_eq in E'. subst k0.
      destruct (text_eqb k k') eqn:E2; [|reflexivity].
      apply text_eqb_eq in E2. subst. rewrite text_eqb_refl in E. discriminate.
Qed.

Lemma group_rows_from (rs : list snap_row) :
  forall g,
    let g' := fold_left (fun g r => group_append g (snap_cp r) (lot_of r)) rs g in
    (NoDup (map fst g) -> NoDup (map fst g'))
    /\ (forall k, In k (map fst g') <-> In k (map fst g) \/ In k (map snap_cp rs))
    /\ (forall k, group_get g' k = group_get g k ++ lots_of k rs).
Proof.
  induction rs as [|r rs IH]; intros g; cbn zeta.
  - simpl. split; [auto|]. split; [intuition|].
    intros k. unfold lots_of. simpl. now rewrite app_nil_r.
  - cbn [fold_left]. specialize (IH (group_append g (snap_cp r) (lot_of r))).
    cbn zeta in IH. destruct IH as (H1 & H2 & H3). split; [|split].
    + intros Hnd. apply H1. now apply group_append_nodup.
    + intros k. rewrite H2, group_append_keys. simpl. intuition.
    + intros k. rewrite H3, group_append_get. unfold lots_of. cbn [filter].
      destruct (text_eqb (snap_cp r) k); [|reflexivity].
      cbn [map]. now rewrite <- app_assoc.
Qed.

Lemma insert_sorted_perm (x : string) (l : list string) :
  Permutation (insert_sorted x l) (x :: l).
Proof.
  induction l as [|a l IH]; simpl; [reflexivity|].
  destruct (String.leb x a); [reflexivity|].
  rewrite IH. apply perm_swap.
Qed.

Lemma sort_strings_perm (l : list string) : Permutation (sort_strings l) l.
Proof.
  induction l as [|a l IH]; simpl; [reflexivity|].
  now rewrite insert_sorted_perm, IH.
Qed.

Lemma insert_sorted_sorted (x : string) (l : list string) :
  Sorted (fun a b => String.leb a b = true) l ->
  Sorted (fun a b => String.leb a b = true) (insert_sorted x l).
Proof.
  induction l as [|a l IH]; simpl; intros H.
  - repeat constructor.
  - destruct (String.leb x a) eqn:E.
    + constructor; [exact H|]. now constructor.
    + inversion H as [|? ? Hs Hh]; subst. constructor; [now apply IH|].
      assert (String.leb a x = true) as Hax
          by (destruct (String.leb_total a x) as [H0|H0]; [exact H0|congruence]).
      destruct l as [|b l]; simpl.
      * now constructor.
      * destruct (String.leb x b); constructor; [exact Hax|].
        now inversion Hh.
Qed.

Lemma sort_strings_sorted (l : list string) :
  Sorted (fun a b => String.leb a b = true) (sort_strings l).
Proof.
  induction l as [|a l IH]; simpl; [constructor|]. now apply insert_sorted_sorted.
Qed.

Lemma all_some_map (ks : list (option string)) :
  (forall k, In k ks -> k <> None) -> exists l, all_some ks = Some l /\ ks = map Some l.
Proof.
  induction ks as [|[s|] ks IH]; intros H.
  - exists []. now split.
  - destruct IH as (l & E & ->); [intros k Hk; apply H; now right|].
    exists (s :: l). simpl. now rewrite E.
  - exfalso. now apply (H None); [left|].
Qed.

Lemma all_some_none (ks : list (option string)) : In None ks -> all_some ks = None.
Proof.
  induction ks as [|[s|] ks IH]; simpl; intros H.
  - contradiction.
  - destruct H as [H|H]; [discriminate|]. now rewrite IH.
  - reflexivity.
Qed.

Lemma py_sorted_keys_texts (l : list string) :
  NoDup l ->
  exists ks, py_sorted_keys (map Some l) = Some (map Some ks)
             /\ Permutation ks l
             /\ Sorted (fun a b => String.leb a b = true) ks.
Proof.
  intros Hnd. destruct l as [|a [|b l]].
  - exists []. repeat split; constructor.
  - exists [a]. repeat split; repeat constructor.
  - destruct (all_some_map (map Some (a :: b :: l))) as (l' & E & El).
    { intros k Hk. apply in_map_iff in Hk. destruct Hk as (x & <- & _). discriminate. }
    assert (l' = a :: b :: l) as ->.
    { clear -El. revert El. generalize (a :: b :: l). intros m. revert l'.
      induction m as [|x m IH]; intros [|y l'] H; try discriminate; [reflexivity|].
      simpl in H. inversion H. f_equal. now apply IH. }
    exists (sort_strings (a :: b :: l)). split; [|split].
    + unfold py_sorted_keys. cbn [map]. cbn [map] in E. now rewrite E.
    + apply sort_strings_perm.
    + apply sort_strings_sorted.
Qed.

Lemma py_sorted_keys_none (ks : list (option string)) (c : string) :
  In None ks -> In (Some c) ks -> py_sorted_keys ks = None.
Proof.
  intros H1 H2. destruct ks as [|a [|b m]].
  - contradiction.
  - destruct H1 as [H1|[]]. destruct H2 as [H2|[]]. congruence.
  - unfold py_sorted_keys. now rewrite (all_some_none _ H1).
Qed.

(** X23.  The reader groups whatever rows of the snapshot table it
    fetched: when every fetched row has a carpark_number, the response
    lists each carpark_number once, in ascending order, each with exactly
    the lots of its rows, in the order fetched and with lots_available as
    decimal text; when the rows have a null carpark_number besides another
    one, sorting the keys raises and there is no response. *)
Theorem carpark_ava_groups (sample_snap : list snap_row) :
  ((forall r, In r sample_snap -> snap_cp r <> None) ->
   exists ks,
     carpark_ava sample_snap
     = Some (map (fun c => (Some c, lots_of (Some c) sample_snap)) ks)
     /\ NoDup ks
     /\ Sorted (fun a b => String.leb a b = true) ks
     /\ (forall c, In c ks <-> In (Some c) (map snap_cp sample_snap)))
  /\ (forall c, In None (map snap_cp sample_snap) ->
                In (Some c) (map snap_cp sample_snap) ->
                carpark_ava sample_snap = None).
Proof.
  unfold carpark_ava, group_rows.
  destruct (group_rows_from sample_snap []) as (Hnd & Hkeys & Hget). cbn zeta in *.
  specialize (Hnd (NoDup_nil _)).
  set (g := fold_left _ sample_snap []) in *. split.
  - intros Hsome.
    destruct (all_some_map (map fst g)) as (l & _ & El).
    { intros k Hk. apply Hkeys in Hk. destruct Hk as [[]|Hk].
      apply in_map_iff in Hk. destruct Hk as (r & <- & Hr). now apply Hsome. }
    rewrite El in Hnd.
    assert (NoDup l) as Hl.
    { clear -Hnd. induction l as [|a l IH]; [constructor|].
      simpl in Hnd. inversion Hnd as [|? ? Hnot Hnd']; subst. constructor; [|now apply IH].
      intros Hin. apply Hnot. now apply in_map. }
    destruct (py_sorted_keys_texts l Hl) as (ks & E & Hperm & Hsorted).
    exists ks. rewrite El, E. cbn [option_map]. repeat split.
    + f_equal. rewrite map_map. apply map_ext. intros c. now rewrite Hget.
    + eapply Permutation_NoDup; [symmetry; exact Hperm|exact Hl].
    + exact Hsorted.
    + intros Hc. apply (Permutation_in _ Hperm) in Hc.
      assert (In (Some c) (map fst g)) as Hg by (rewrite El; now apply in_map).
      apply Hkeys in Hg. now destruct Hg as [[]|Hg].
    + intros Hc. assert (In (Some c) (map fst g)) as Hg by (apply Hkeys; now right).
      rewrite El in Hg. apply in_map_iff in Hg. destruct Hg as (x & Hx & Hin).
      inversion Hx; subst. apply (Permutation_in _ (Permutation_sym Hperm)). exact Hin.
  - intros c Hnone Hc.
    assert (In None (map fst g)) as H1 by (apply Hkeys; now right).
    assert (In (Some c) (map fst g)) as H2 by (apply Hkeys; now right).
    now rewrite (py_sorted_keys_none _ c H1 H2).
Qed.

(** ** The two rebuilds side by side *)

(** X24.  The rebuild of the metadata job and the rebuild of the
    availability and pricing jobs materialise the same join: on every
    store, the view [rebuild_join_table] leaves is the view
    [rebuild_join_snapshot] leaves with the four priced columns and
    ev_lot_location set to null, row for row. *)
Theorem rebuilds_agree (db : store) :
  carpark_availability_join (fst (rebuild_join_table db))
  = map unpriced (carpark_availability_join (rebuild_join_snapshot db)).
Proof.
  unfold rebuild_join_table, rebuild_join_snapshot, rebuild_view.
  cbn [fst carpark_availability_join]. rewrite !map_map.
  apply map_ext. intros [a i]. reflexivity.
Qed.

(** ** Running the pricing job again *)

Lemma map_mapi_from {A B C : Type} (f : B -> C) (g : nat -> A -> B) (l : list A) :
  forall i, map f (mapi_from i g l) = mapi_from i (fun i a => f (g i a)) l.
Proof. induction l as [|a l IH]; intros i; simpl; [reflexivity|]. now rewrite IH. Qed.

Lemma mapi_from_mapi_from {A B C : Type} (f : nat -> B -> C) (g : nat -> A -> B)
    (l : list A) :
  forall i, mapi_from i f (mapi_from i g l) = mapi_from i (fun i a => f i (g i a)) l.
Proof. induction l as [|a l IH]; intros i; simpl; [reflexivity|]. now rewrite IH. Qed.

Lemma mapi_from_map {A B C : Type} (f : nat -> B -> C) (g : A -> B) (l : list A) :
  forall i, mapi_from i f (map g l) = mapi_from i (fun i a => f i (g a)) l.
Proof. induction l as [|a l IH]; intros i; simpl; [reflexivity|]. now rewrite IH. Qed.

Lemma mapi_from_keys (f : nat -> Info.row -> Info.row) (l : info_table) :
  (forall i r, Info.carpark_number (f i r) = Info.carpark_number r) ->
  forall i, map Info.carpark_number (mapi_from i f l) = map Info.carpark_number l.
Proof.
  intros H. induction l as [|a l IH]; intros i; simpl; [reflexivity|].
  now rewrite H, IH.
Qed.

Lemma refresh_code_priced (now : civil_time) (stamp : nat -> string) (t : info_table) :
  NoDup (map Info.carpark_number t) ->
  refresh_time_dependent_rates now stamp t = mapi_from 0 (code_priced now stamp) t.
Proof.
  intros Hnd. unfold refresh_time_dependent_rates.
  change (map _ t) with (map selected t).
  change (refresh_loop now stamp 0 (map selected t) t)
    with (refresh_loop now stamp 0 (map selected t) ([] ++ t)).
  now rewrite (refresh_loop_done now stamp t [] 0 Hnd).
Qed.

(** The pricing pass after classification, as one map over the table. *)
Lemma priced_after_mark (now : civil_time) (stamp : nat -> string) (t : info_table) :
  NoDup (map Info.carpark_number t) ->
  refresh_time_dependent_rates now stamp (mark_central_and_base_rates t)
  = mapi_from 0 (fun i r => code_priced now stamp i (classified r)) t.
Proof.
  intros Hnd. rewrite mark_central_map, refresh_code_priced.
  - apply mapi_from_map.
  - now rewrite map_map.
Qed.

(** A rebuild leaves no trace of the metadata an earlier rebuild over the
    same snapshot table read. *)
Lemma rebuild_view_absorbs (avail : avail_table) (info1 info2 : info_table)
    (v : join_table) :
  rebuild_view avail info2 (rebuild_view avail info1 v) = rebuild_view avail info2 v.
Proof.
  set (v1 := rebuild_view avail info1 v).
  unfold rebuild_view.
  apply map_ext_in. intros j Hj.
  unfold restore_ev. rewrite (inserted_ev_null avail info2 j Hj). f_equal. f_equal.
  destruct (Join.carpark_number j) as [k|] eqn:Hk; [|now rewrite !cache_lookup_null].
  rewrite !cache_lookup_ev_cache.
  apply in_map_iff in Hj. destruct Hj as ([a i] & Ej & Hai).
  apply left_join_pair in Hai. destruct Hai as [Ha _].
  destruct (left_join_covers join_on avail info1 a Ha) as (i1 & Hi1).
  set (j1 := restore_ev (ev_cache v) (priced_join_row (a, i1))).
  assert (In j1 v1) as Hin.
  { unfold v1, rebuild_view, j1. apply in_map. now apply in_map with (f := priced_join_row) in Hi1. }
  assert (Join.carpark_number j1 = Some k) as Hk1.
  { rewrite <- Hk, <- Ej. reflexivity. }
  apply agg_max_const.
  - intros E.
    assert (In (Join.ev_lot_location j1) (evs_of v1 (Some k))) as H.
    { apply evs_of_in. exists j1. auto. }
    rewrite E in H. contradiction.
  - intros x Hx. apply evs_of_in in Hx. destruct Hx as (r & Hr & Hrk & <-).
    rewrite (rebuild_view_ev avail info1 v r Hr), Hrk. reflexivity.
Qed.

(** X25.  The pricing job keeps nothing of an earlier run: over a
    metadata table with unique carpark_number, running it at one clock
    reading after a run at another leaves the store that running it at the
    later reading alone leaves; run twice at the same reading, it changes
    nothing the second time. *)
Theorem pricing_job_overwrites (now now' : civil_time) (stamp stamp' : nat -> string)
    (db : store) :
  NoDup (map Info.carpark_number (carpark_info db)) ->
  update_carpark_rates_handler now' stamp' (update_carpark_rates_handler now stamp db)
  = update_carpark_rates_handler now' stamp' db
  /\ update_carpark_rates_handler now stamp (update_carpark_rates_handler now stamp db)
     = update_carpark_rates_handler now stamp db.
Proof.
  intros Hnd.
  assert (forall n1 s1 n2 s2,
             update_carpark_rates_handler n2 s2 (update_carpark_rates_handler n1 s1 db)
             = update_carpark_rates_handler n2 s2 db) as H; [|now split].
  intros n1 s1 n2 s2. unfold update_carpark_rates_handler, rebuild_join_snapshot, with_info.
  cbn [carpark_availability carpark_availability_history carpark_info
       carpark_availability_join].
  rewrite !(priced_after_mark _ _ _ Hnd).
  assert (refresh_time_dependent_rates n2 s2
            (mark_central_and_base_rates
               (mapi_from 0 (fun i r => code_priced n1 s1 i (classified r))
                  (carpark_info db)))
          = mapi_from 0 (fun i r => code_priced n2 s2 i (classified r)) (carpark_info db))
    as ->.
  { rewrite priced_after_mark.
    - rewrite mapi_from_mapi_from. reflexivity.
    - now rewrite mapi_from_keys. }
  now rewrite rebuild_view_absorbs.
Qed.

Lemma pricing_job_overwrites_witness :
  update_carpark_rates_handler (wednesday 23 0) (fun _ => "2025-01-01T15:00:00Z")
    (update_carpark_rates_handler (wednesday 10 0) (fun _ => "2025-01-01T02:00:00Z")
       kept_store)
  = update_carpark_rates_handler (wednesday 23 0) (fun _ => "2025-01-01T15:00:00Z")
      kept_store.
Proof.
  refine (proj1 (pricing_job_overwrites (wednesday 10 0) (wednesday 23 0)
                   (fun _ => "2025-01-01T02:00:00Z") (fun _ => "2025-01-01T15:00:00Z")
                   kept_store _)).
  repeat constructor. simpl. tauto.
Defined.
